(** * cso2: the timing harness of gettimings.c and the helpers of fork_run.c

    A shallow embedding of the two C files.  The C program talks to the
    operating system all the time (clock, fork, waitpid, ...), so every
    function of the program is a computation in a small monad that threads
    the process state, appends to a trace of observable events, and may stop
    the process ([exit], [_exit], [exec]).  The answers of the operating
    system come from an oracle indexed by the number of calls made so far. *)

From Stdlib Require Import ZArith List String Ascii Bool Lia Permutation.
From Stdlib Require Import DecimalString DecimalPos DecimalZ.
From Stdlib Require Import Floats.SpecFloat.
Import ListNotations.
Open Scope string_scope.
Open Scope list_scope.
Open Scope Z_scope.

(** ** Machine data *)

(** [uint64_t]: a [Z] reduced modulo 2^64 after every operation. *)
Definition u64 (x : Z) : Z := x mod 2 ^ 64.

(** [(int)] conversion of a wider integer (two's complement, 32 bits). *)
Definition to_int32 (x : Z) : Z := (x + 2 ^ 31) mod 2 ^ 32 - 2 ^ 31.

(** [double]: IEEE 754 binary64, as the Standard Library specifies it. *)
Definition double := spec_float.
Definition double_of_u64 (n : Z) : double := binary_normalize 53 1024 n 0 false.
Definition ddiv (x y : double) : double := SFdiv 53 1024 x y.
Definition dsub (x y : double) : double := SFsub 53 1024 x y.

(** [struct timespec]: [(tv_sec, tv_nsec)]. *)
Definition timespec := (Z * Z)%type.

(** [errno] values the program compares against or that the model sets
    (Linux numbering). *)
Definition EINTR : Z := 4.
Definition ECHILD : Z := 10.

(** The answer of a system call: a value, or a failure with its [errno]. *)
Inductive reply (A : Type) : Type :=
| Ok (a : A)
| Err (e : Z).
Arguments Ok {A} a.
Arguments Err {A} e.

(** What [fork] answers: a failure, the child's side, or the parent's side
    with the new child's (positive) process id. *)
Inductive fork_reply : Type :=
| ForkErr (e : Z)
| ForkChild
| ForkParent (p : positive).

(** ** Function pointers

    [action_fn] is a pointer to a [void f(void)]; the program only ever
    takes the address of the functions below.  [NULL] is [None]. *)
Inductive action_fn : Type :=
| p_act_call_empty
| p_act_drand48
| p_act_getppid
| p_act_fork_parent_return
| p_teardown_wait_for_last_child
| p_setup_waitpid_ready
| p_act_waitpid_ready
| p_teardown_wait_ready
| p_act_fork_child_exit_wait
| p_act_system_true
| p_setup_mkdir_rmdir
| p_act_mkdir_rmdir.

(** ** Observable events *)

(** What goes to the error stream. *)
Inductive errline : Type :=
| Perror (tag : string) (e : Z)      (* perror(tag): "tag: strerror(e)" *)
| ItersMsg                           (* "iters must be > 0\n" *)
| UsageMsg (prog : string).          (* "Usage: %s <scenario 1..8>\n" *)

(** What goes to the standard output: one constructor per [printf] of
    [measure]; a [double] is the value handed to the ["%.3f"] conversion. *)
Inductive outline : Type :=
| LLabel (label : string)            (* "%s\n" *)
| LIters (n : Z)                     (* "iters,%" PRIu64 "\n" *)
| LMeanTotal (d : double)            (* "mean_ns_total,%.3f\n" *)
| LMeanOverhead (d : double)         (* "mean_ns_overhead,%.3f\n" *)
| LMeanSubtracted (d : double)       (* "mean_ns_subtracted,%.3f\n" *)
| LBlank.                            (* "\n" *)

Inductive event : Type :=
| EvCall (f : action_fn)                       (* call through a function pointer *)
| EvBarrier                                    (* COMPILER_BARRIER() *)
| EvClock (r : reply timespec)                 (* clock_gettime(CLOCK_MONOTONIC) *)
| EvFork (r : fork_reply)
| EvWaitpid (pid : Z) (r : reply Z)            (* Ok c: child c was reaped *)
| EvNanosleep (ns : Z) (r : reply unit)
| EvSystem (cmd : string) (r : reply N)          (* Ok st: the wait status *)
| EvMkdtemp (template : string) (r : reply string)
| EvRmdir (path : string) (r : reply unit)
| EvAccess (path : string) (r : reply unit)
| EvGetppid (p : Z)
| EvOpen (path : string) (r : reply Z)
| EvDup2 (fd newfd : Z)
| EvClose (fd : Z)
| EvMalloc (ok : bool)
| EvExec (path : string) (argv : list string) (r : reply unit)
| EvStdout (l : outline)
| EvStderr (l : errline).

Definition trace := list event.

Definition stdout_of (tr : trace) : list outline :=
  flat_map (fun e => match e with EvStdout l => [l] | _ => [] end) tr.

Definition stderr_of (tr : trace) : list errline :=
  flat_map (fun e => match e with EvStderr l => [l] | _ => [] end) tr.

(** ** The operating system as an oracle

    [os_x k] is the answer to the call of [x] made when [k] system calls
    have been answered before it. *)
Record os : Type := mkOS {
  os_clock : nat -> reply timespec;
  os_fork : nat -> fork_reply;
  os_waitpid : nat -> option Z;       (* Some st: the child ended with status st;
                                         None: interrupted by a signal *)
  os_nanosleep : nat -> reply unit;
  os_system : nat -> reply N;
  os_mkdtemp : nat -> reply string;
  os_rmdir : nat -> reply unit;
  os_access : nat -> string -> reply unit;
  os_getppid : nat -> Z;
  os_open : nat -> reply Z;
  os_malloc : nat -> bool;
  os_exec : nat -> reply unit
}.

(** ** Process state: the kernel's view and the program's globals *)
Record state : Type := mkState {
  tick : nat;               (* system calls answered so far *)
  procs : list Z;           (* children forked and not yet reaped *)
  errno : Z;
  rand48 : Z;               (* the 48-bit state of drand48 *)
  sink_u64 : Z;
  sink_double : double;
  last_child : Z;
  ready_zombie : Z;
  workdir : string;
  TRUE_PATH : string
}.

Definition dir_template : string := "/tmp/gtXXXXXX".

(** The globals as their initialisers leave them. *)
Definition init_state : state :=
  {| tick := 0; procs := []; errno := 0; rand48 := 0;
     sink_u64 := 0; sink_double := S754_zero false;
     last_child := -1; ready_zombie := -1;
     workdir := ""; TRUE_PATH := "/bin/true" |}.

Definition set_tick (n : nat) (s : state) : state :=
  mkState n (procs s) (errno s) (rand48 s) (sink_u64 s) (sink_double s)
          (last_child s) (ready_zombie s) (workdir s) (TRUE_PATH s).
Definition set_procs (ps : list Z) (s : state) : state :=
  mkState (tick s) ps (errno s) (rand48 s) (sink_u64 s) (sink_double s)
          (last_child s) (ready_zombie s) (workdir s) (TRUE_PATH s).
Definition set_errno (e : Z) (s : state) : state :=
  mkState (tick s) (procs s) e (rand48 s) (sink_u64 s) (sink_double s)
          (last_child s) (ready_zombie s) (workdir s) (TRUE_PATH s).
Definition set_rand48 (x : Z) (s : state) : state :=
  mkState (tick s) (procs s) (errno s) x (sink_u64 s) (sink_double s)
          (last_child s) (ready_zombie s) (workdir s) (TRUE_PATH s).
Definition set_sink_u64 (x : Z) (s : state) : state :=
  mkState (tick s) (procs s) (errno s) (rand48 s) x (sink_double s)
          (last_child s) (ready_zombie s) (workdir s) (TRUE_PATH s).
Definition set_sink_double (d : double) (s : state) : state :=
  mkState (tick s) (procs s) (errno s) (rand48 s) (sink_u64 s) d
          (last_child s) (ready_zombie s) (workdir s) (TRUE_PATH s).
Definition set_last_child (p : Z) (s : state) : state :=
  mkState (tick s) (procs s) (errno s) (rand48 s) (sink_u64 s) (sink_double s)
          p (ready_zombie s) (workdir s) (TRUE_PATH s).
Definition set_ready_zombie (p : Z) (s : state) : state :=
  mkState (tick s) (procs s) (errno s) (rand48 s) (sink_u64 s) (sink_double s)
          (last_child s) p (workdir s) (TRUE_PATH s).
Definition set_workdir (w : string) (s : state) : state :=
  mkState (tick s) (procs s) (errno s) (rand48 s) (sink_u64 s) (sink_double s)
          (last_child s) (ready_zombie s) w (TRUE_PATH s).
Definition set_TRUE_PATH (p : string) (s : state) : state :=
  mkState (tick s) (procs s) (errno s) (rand48 s) (sink_u64 s) (sink_double s)
          (last_child s) (ready_zombie s) (workdir s) p.

(** ** The monad: state, trace, and the end of the process *)

(** How a process image ends before its function returns. *)
Inductive halt : Type :=
| Exit (status : Z)        (* exit(status) *)
| ChildExit (status : Z)   (* _exit(status) in a forked child *)
| ChildExec                (* the child's image was replaced by exec *)
| Undefined.               (* a store through a null pointer *)

Inductive res (A : Type) : Type :=
| Ret (a : A) (s : state)
| Halt (h : halt).
Arguments Ret {A} a s.
Arguments Halt {A} h.

Definition M (A : Type) : Type := state -> trace * res A.

Definition ret {A} (a : A) : M A := fun s => ([], Ret a s).

Definition bind {A B} (m : M A) (k : A -> M B) : M B :=
  fun s =>
    match m s with
    | (t1, Ret a s1) => let (t2, r) := k a s1 in (t1 ++ t2, r)
    | (t1, Halt h) => (t1, Halt h)
    end.

Declare Scope monad_scope.
Delimit Scope monad_scope with monad.
Notation "x <- m ;; k" := (bind m (fun x => k))
  (at level 61, m at next level, right associativity) : monad_scope.
Notation "m ;; k" := (bind m (fun _ => k))
  (at level 61, right associativity) : monad_scope.
Open Scope monad_scope.

Definition get : M state := fun s => ([], Ret s s).
Definition modify (f : state -> state) : M unit := fun s => ([], Ret tt (f s)).
Definition emit (e : event) : M unit := fun s => ([e], Ret tt s).
Definition stop {A} (h : halt) : M A := fun _ => ([], Halt h).

(** [exit(status)] and [_exit(status)]. *)
Definition exit {A} (status : Z) : M A := stop (Exit status).
Definition _exit {A} (status : Z) : M A := stop (ChildExit status).

(** One question to the oracle. *)
Definition sys {A} (ask : nat -> A) : M A :=
  fun s => ([], Ret (ask (tick s)) (set_tick (S (tick s)) s)).

(** [for (uint64_t i = 0; i < n; ++i) body]: the body runs [n] times and
    threads the local variables [a] it updates. *)
Fixpoint for_loop {A} (n : nat) (body : A -> M A) (a : A) : M A :=
  match n with
  | O => ret a
  | S n' => a' <- body a ;; for_loop n' body a'
  end.

Definition when (b : bool) (m : M unit) : M unit := if b then m else ret tt.

(** ** The process table *)

Fixpoint remove_one (c : Z) (ps : list Z) : list Z :=
  match ps with
  | [] => []
  | p :: ps' => if p =? c then ps' else p :: remove_one c ps'
  end.

(** Which child [waitpid(pid, _, 0)] waits for: the child [pid] when
    [pid > 0], any child otherwise (the children stay in the caller's
    process group); [None] when there is no such child. *)
Definition wait_target (pid : Z) (ps : list Z) : option Z :=
  if 0 <? pid then (if existsb (Z.eqb pid) ps then Some pid else None)
  else hd_error ps.

(** The effect of one event on the table of unreaped children. *)
Definition step_children (ps : list Z) (e : event) : list Z :=
  match e with
  | EvFork (ForkParent p) => Z.pos p :: ps
  | EvFork ForkChild => []
  | EvWaitpid _ (Ok c) => remove_one c ps
  | _ => ps
  end.

Definition children_after (tr : trace) (ps : list Z) : list Z :=
  fold_left step_children tr ps.

(** ** Library calls *)

Section Program.

Variable OS : os.

Definition perror (tag : string) : M unit :=
  s <- get ;; emit (EvStderr (Perror tag (errno s))).

Definition clock_gettime : M (reply timespec) :=
  r <- sys (os_clock OS) ;;
  emit (EvClock r) ;;
  match r with
  | Ok ts => ret (Ok ts)
  | Err e => modify (set_errno e) ;; ret (Err e)
  end.

Definition fork : M Z :=
  r <- sys (os_fork OS) ;;
  emit (EvFork r) ;;
  match r with
  | ForkErr e => modify (set_errno e) ;; ret (-1)
  | ForkChild => modify (set_procs []) ;; ret 0
  | ForkParent p =>
      modify (fun s => set_procs (Z.pos p :: procs s) s) ;; ret (Z.pos p)
  end.

(** [waitpid(pid, &st, 0)]: the pair of the return value and [st].  Without
    a matching child the call fails with [ECHILD]; with one it blocks until
    the child has ended and reaps it, unless a signal interrupts it. *)
Definition waitpid (pid : Z) : M (Z * Z) :=
  s <- get ;;
  match wait_target pid (procs s) with
  | None =>
      _ <- sys (fun _ => tt) ;;
      emit (EvWaitpid pid (Err ECHILD)) ;;
      modify (set_errno ECHILD) ;; ret (-1, 0)
  | Some c =>
      r <- sys (os_waitpid OS) ;;
      match r with
      | Some st =>
          emit (EvWaitpid pid (Ok c)) ;;
          modify (fun s => set_procs (remove_one c (procs s)) s) ;; ret (c, st)
      | None =>
          emit (EvWaitpid pid (Err EINTR)) ;;
          modify (set_errno EINTR) ;; ret (-1, 0)
      end
  end.

Definition rc_of {A} (r : reply A) : Z :=
  match r with Ok _ => 0 | Err _ => -1 end.

Definition set_errno_of {A} (r : reply A) : M unit :=
  match r with Ok _ => ret tt | Err e => modify (set_errno e) end.

Definition nanosleep (ns : Z) : M Z :=
  r <- sys (os_nanosleep OS) ;;
  emit (EvNanosleep ns r) ;; set_errno_of r ;; ret (rc_of r).

Definition system (cmd : string) : M Z :=
  r <- sys (os_system OS) ;;
  emit (EvSystem cmd r) ;; set_errno_of r ;;
  ret (match r with Ok st => Z.of_N st | Err _ => -1 end).

(** [mkdtemp(buf)]: the name written over the template, or [NULL]. *)
Definition mkdtemp (template : string) : M (option string) :=
  r <- sys (os_mkdtemp OS) ;;
  emit (EvMkdtemp template r) ;; set_errno_of r ;;
  ret (match r with Ok name => Some name | Err _ => None end).

Definition rmdir (path : string) : M Z :=
  r <- sys (os_rmdir OS) ;;
  emit (EvRmdir path r) ;; set_errno_of r ;; ret (rc_of r).

Definition access (path : string) : M Z :=
  r <- sys (fun k => os_access OS k path) ;;
  emit (EvAccess path r) ;; set_errno_of r ;; ret (rc_of r).

Definition getppid : M Z :=
  p <- sys (os_getppid OS) ;; emit (EvGetppid p) ;; ret p.

(** [srand48] and [drand48] as POSIX defines them: a 48-bit linear
    congruential generator. *)
Definition srand48 (seed : Z) : M unit :=
  modify (set_rand48 (Z.lor (Z.shiftl (seed mod 2 ^ 32) 16) 13070)).

Definition drand48 : M double :=
  s <- get ;;
  let x := (25214903917 * rand48 s + 11) mod 2 ^ 48 in
  modify (set_rand48 x) ;;
  ret (binary_normalize 53 1024 x (-48) false).

(** ** gettimings.c *)

(** Lines 20-26: an empty [asm] with a memory clobber; it does nothing at
    run time and is kept in the trace to show where it stands. *)
Definition COMPILER_BARRIER : M unit := emit EvBarrier.

(** Lines 29-36. *)
Definition nsecs_now : M Z :=
  r <- clock_gettime ;;
  match r with
  | Err _ => perror "clock_gettime" ;; exit 1
  | Ok (tv_sec, tv_nsec) => ret (u64 (u64 tv_sec * 1000000000 + u64 tv_nsec))
  end.

(** Lines 39-42. *)
Definition empty_function : M unit := COMPILER_BARRIER.

(** *** Scenarios *)

(** Lines 109, 112 and 115. *)
Definition act_call_empty : M unit := empty_function.

Definition act_drand48 : M unit :=
  d <- drand48 ;; modify (set_sink_double d).

Definition act_getppid : M unit :=
  p <- getppid ;; modify (set_sink_u64 (u64 p)).

(** Lines 118-132: [last_child] starts at -1. *)
Definition act_fork_parent_return : M unit :=
  p <- fork ;;
  when (p <? 0) (perror "fork" ;; exit 1) ;;
  when (p =? 0) (_exit 0) ;;
  modify (set_last_child p) ;;
  modify (fun s => set_sink_u64 (Z.lxor (sink_u64 s) (u64 p)) s).

Definition teardown_wait_for_last_child : M unit :=
  s <- get ;;
  when (0 <? last_child s)
    (r <- waitpid (last_child s) ;;
     when (fst r <? 0) (perror "waitpid" ;; exit 1) ;;
     modify (set_last_child (-1))).

(** Lines 135-158: [ready_zombie] starts at -1; the result of [nanosleep]
    is not looked at. *)
Definition setup_waitpid_ready : M unit :=
  p <- fork ;;
  when (p <? 0) (perror "fork" ;; exit 1) ;;
  when (p =? 0) (_exit 0) ;;
  nanosleep (2 * 1000 * 1000) ;;
  modify (set_ready_zombie p).

Definition act_waitpid_ready : M unit :=
  s <- get ;;
  r <- waitpid (ready_zombie s) ;;
  when (negb (fst r =? ready_zombie s)) (perror "waitpid" ;; exit 1) ;;
  modify (fun s => set_sink_u64 (Z.lxor (sink_u64 s) (u64 (fst r))) s).

Definition teardown_wait_ready : M unit :=
  s <- get ;;
  when (0 <? ready_zombie s)
    (r <- waitpid (ready_zombie s) ;;
     s1 <- get ;;
     when ((fst r <? 0) && negb (errno s1 =? ECHILD))
       (perror "waitpid" ;; exit 1) ;;
     modify (set_ready_zombie (-1))).

(** Lines 161-168. *)
Definition act_fork_child_exit_wait : M unit :=
  p <- fork ;;
  when (p <? 0) (perror "fork" ;; exit 1) ;;
  when (p =? 0) (_exit 0) ;;
  r <- waitpid p ;;
  when (fst r <? 0) (perror "waitpid" ;; exit 1) ;;
  modify (fun s => set_sink_u64 (Z.lxor (sink_u64 s) (u64 (snd r))) s).

(** Lines 171-175. *)
Definition act_system_true : M unit :=
  s <- get ;;
  rc <- system (TRUE_PATH s) ;;
  when (rc =? -1) (perror "system" ;; exit 1).

(** Lines 178-188: [buf] is the copy of [workdir] that [mkdtemp]
    overwrites. *)
Definition setup_mkdir_rmdir : M unit :=
  modify (set_workdir dir_template).

Definition act_mkdir_rmdir : M unit :=
  s <- get ;;
  let buf := workdir s in
  r <- mkdtemp buf ;;
  match r with
  | None => perror "mkdtemp" ;; exit 1
  | Some buf' =>
      rc <- rmdir buf' ;;
      when (negb (rc =? 0)) (perror "rmdir" ;; exit 1)
  end.

(** *** Calls through function pointers *)

Definition body_of (f : action_fn) : M unit :=
  match f with
  | p_act_call_empty => act_call_empty
  | p_act_drand48 => act_drand48
  | p_act_getppid => act_getppid
  | p_act_fork_parent_return => act_fork_parent_return
  | p_teardown_wait_for_last_child => teardown_wait_for_last_child
  | p_setup_waitpid_ready => setup_waitpid_ready
  | p_act_waitpid_ready => act_waitpid_ready
  | p_teardown_wait_ready => teardown_wait_ready
  | p_act_fork_child_exit_wait => act_fork_child_exit_wait
  | p_act_system_true => act_system_true
  | p_setup_mkdir_rmdir => setup_mkdir_rmdir
  | p_act_mkdir_rmdir => act_mkdir_rmdir
  end.

(** [f();] *)
Definition call (f : action_fn) : M unit := emit (EvCall f) ;; body_of f.

(** [if (f) f();] *)
Definition call_opt (f : option action_fn) : M unit :=
  match f with Some g => call g | None => ret tt end.

(** *** The measurement harness *)

(** Lines 50-104.  The bodies of the three loops first, each a function of
    the locals it updates; then [measure]. *)
Definition warm_cycle (setup_each : option action_fn) (action : action_fn)
    (teardown_each : option action_fn) (_ : unit) : M unit :=
  call_opt setup_each ;;
  COMPILER_BARRIER ;;
  call action ;;
  COMPILER_BARRIER ;;
  call_opt teardown_each.

Definition timed_cycle (setup_each : option action_fn) (action : action_fn)
    (teardown_each : option action_fn) (total_ns : Z) : M Z :=
  call_opt setup_each ;;
  COMPILER_BARRIER ;;
  t0 <- nsecs_now ;;
  call action ;;
  t1 <- nsecs_now ;;
  COMPILER_BARRIER ;;
  call_opt teardown_each ;;
  ret (u64 (total_ns + u64 (t1 - t0))).

Definition overhead_cycle (setup_each teardown_each : option action_fn)
    (total_o : Z) : M Z :=
  call_opt setup_each ;;
  COMPILER_BARRIER ;;
  t0 <- nsecs_now ;;
  COMPILER_BARRIER ;;
  t1 <- nsecs_now ;;
  call_opt teardown_each ;;
  ret (u64 (total_o + u64 (t1 - t0))).

Definition measure (label : string)
    (setup_each : option action_fn) (action : action_fn)
    (teardown_each : option action_fn)
    (iters : Z) (subtract_overhead : bool) : M unit :=
  when (iters =? 0) (emit (EvStderr ItersMsg) ;; exit 2) ;;
  let warm := u64 (iters / 10 + 1) in
  for_loop (Z.to_nat warm) (warm_cycle setup_each action teardown_each) tt ;;
  total_ns <- for_loop (Z.to_nat iters)
                (timed_cycle setup_each action teardown_each) 0 ;;
  let mean_ns := ddiv (double_of_u64 total_ns) (double_of_u64 iters) in
  overhead_ns <-
    (if subtract_overhead then
       total_o <- for_loop (Z.to_nat iters)
                    (overhead_cycle setup_each teardown_each) 0 ;;
       ret (ddiv (double_of_u64 total_o) (double_of_u64 iters))
     else ret (S754_zero false)) ;;
  emit (EvStdout (LLabel label)) ;;
  emit (EvStdout (LIters iters)) ;;
  emit (EvStdout (LMeanTotal mean_ns)) ;;
  when subtract_overhead
    (emit (EvStdout (LMeanOverhead overhead_ns)) ;;
     emit (EvStdout (LMeanSubtracted (dsub mean_ns overhead_ns)))) ;;
  emit (EvStdout LBlank).

(** *** The driver *)

(** Lines 191-194. *)
Definition usage (prog : string) : M unit := emit (EvStderr (UsageMsg prog)).

Definition isspace (c : ascii) : bool :=
  let n := nat_of_ascii c in
  (Nat.eqb n 32 || (Nat.leb 9 n && Nat.leb n 13))%bool.

Definition digit_of (c : ascii) : option Z :=
  let n := Z.of_nat (nat_of_ascii c) in
  if (48 <=? n) && (n <=? 57) then Some (n - 48) else None.

Fixpoint skip_space (s : string) : string :=
  match s with
  | String c r => if isspace c then skip_space r else s
  | EmptyString => s
  end.

Fixpoint digits (s : string) (acc : Z) : Z :=
  match s with
  | String c r =>
      match digit_of c with
      | Some d => digits r (10 * acc + d)
      | None => acc
      end
  | EmptyString => acc
  end.

Definition clamp_long (x : Z) : Z := Z.max (- 2 ^ 63) (Z.min (2 ^ 63 - 1) x).

(** [strtol(s, NULL, 10)] with a 64-bit [long]. *)
Definition strtol10 (s : string) : Z :=
  match skip_space s with
  | String "-" r => clamp_long (- digits r 0)
  | String "+" r => clamp_long (digits r 0)
  | r => clamp_long (digits r 0)
  end.

(** [atoi]: white space, an optional sign, then the longest run of decimal
    digits; what follows is ignored and no digits at all give 0.  A value
    that does not fit an [int] is undefined in C; this is what glibc does
    ([(int) strtol(s, NULL, 10)]). *)
Definition atoi (s : string) : Z := to_int32 (strtol10 s).

(** [argv[0]] as ["%s"] prints it. *)
Definition prog_name (argv : list string) : string := hd "(null)" argv.

(** Lines 196-271; [argc] is the length of [argv], and [0xC0FFEE] is
    12648430. *)
Definition main (argv : list string) : M Z :=
  if negb (Z.of_nat (List.length argv) =? 2) then usage (prog_name argv) ;; ret 2
  else
    let which := atoi (nth 1%nat argv "") in
    s <- get ;;
    a1 <- access (TRUE_PATH s) ;;
    (if negb (a1 =? 0) then
       a2 <- access "/usr/bin/true" ;;
       when (a2 =? 0) (modify (set_TRUE_PATH "/usr/bin/true"))
     else ret tt) ;;
    srand48 12648430 ;;
    match which with
    | 1 => measure "scenario_1_empty_function_call"
             None p_act_call_empty None 200000 true ;; ret 0
    | 2 => measure "scenario_2_drand48"
             None p_act_drand48 None 200000 true ;; ret 0
    | 3 => measure "scenario_3_getppid"
             None p_act_getppid None 200000 true ;; ret 0
    | 4 => measure "scenario_4_fork_parent_return"
             None p_act_fork_parent_return (Some p_teardown_wait_for_last_child)
             8000 true ;; ret 0
    | 5 => measure "scenario_5_waitpid_already_terminated"
             (Some p_setup_waitpid_ready) p_act_waitpid_ready
             (Some p_teardown_wait_ready) 2000 true ;; ret 0
    | 6 => measure "scenario_6_fork_child_exit_waitpid"
             None p_act_fork_child_exit_wait None 4000 false ;; ret 0
    | 7 => measure "scenario_7_system_true"
             None p_act_system_true None 2500 false ;; ret 0
    | 8 => measure "scenario_8_mkdir_rmdir"
             (Some p_setup_mkdir_rmdir) p_act_mkdir_rmdir None 20000 true ;; ret 0
    | _ => usage (prog_name argv) ;; ret 2
    end.

(** The process from start to end: the trace and how it ended ([return n]
    from [main] is [exit(n)]). *)
Definition run (argv : list string) : trace * halt :=
  match main argv init_state with
  | (tr, Ret status _) => (tr, Exit status)
  | (tr, Halt h) => (tr, h)
  end.

(** ** fork_run.c *)

Definition STDOUT_FILENO : Z := 1.
Definition STDERR_FILENO : Z := 2.

(** [open(path, O_WRONLY | O_CREAT | O_TRUNC, 0666)] *)
Definition open_trunc (path : string) : M Z :=
  r <- sys (os_open OS) ;;
  emit (EvOpen path r) ;; set_errno_of r ;;
  ret (match r with Ok fd => fd | Err _ => -1 end).

Definition dup2 (fd newfd : Z) : M unit := emit (EvDup2 fd newfd).
Definition close (fd : Z) : M unit := emit (EvClose fd).

(** [malloc]: whether the block was obtained. *)
Definition malloc : M bool :=
  ok <- sys (os_malloc OS) ;; emit (EvMalloc ok) ;; ret ok.

(** [execl] and [execv]: they return, with -1, only when they fail. *)
Definition exec (path : string) (argv : list string) : M Z :=
  r <- sys (os_exec OS) ;;
  emit (EvExec path argv r) ;;
  match r with
  | Ok _ => stop ChildExec
  | Err e => modify (set_errno e) ;; ret (-1)
  end.

(** Lines 11-42. *)
Definition writeoutput (command out_path err_path : string) : M unit :=
  out_fd <- open_trunc out_path ;;
  err_fd <- open_trunc err_path ;;
  pid <- fork ;;
  if pid =? 0 then
    when (0 <=? out_fd) (dup2 out_fd STDOUT_FILENO) ;;
    when (0 <=? err_fd) (dup2 err_fd STDERR_FILENO) ;;
    when (0 <=? out_fd) (close out_fd) ;;
    when (0 <=? err_fd) (close err_fd) ;;
    exec "/bin/sh" ["sh"; "-c"; command] ;;
    _exit 127
  else
    when (0 <=? out_fd) (close out_fd) ;;
    when (0 <=? err_fd) (close err_fd) ;;
    when (0 <? pid) (waitpid pid ;; ret tt).

(** ["%d"] *)
Definition decimal (i : Z) : string :=
  DecimalString.NilZero.string_of_int (Z.to_int i).

(** [a[i] = v] on an array of known length. *)
Fixpoint store (a : list Z) (i : nat) (v : Z) : list Z :=
  match a, i with
  | [], _ => []
  | _ :: a', O => v :: a'
  | x :: a', S i' => x :: store a' i' v
  end.

(** The child's side of one turn of the first loop of
    [parallelwriteoutput]. *)
Definition parallel_child (argv_base : list string) (out_fd i : Z) : M unit :=
  when (0 <=? out_fd) (dup2 out_fd STDOUT_FILENO) ;;
  when (0 <=? out_fd) (close out_fd) ;;
  argv <- malloc ;;
  if argv then
    exec (hd "" argv_base) (argv_base ++ [decimal i]) ;;
    _exit 127
  else stop Undefined.

(** The locals of the first loop: [i] and the array [pids] ([None] when the
    pointer is [NULL]). *)
Definition parallel_fork (argv_base : list string) (out_fd : Z)
    (loc : Z * option (list Z)) : M (Z * option (list Z)) :=
  let (i, pids) := loc in
  pid <- fork ;;
  if pid =? 0 then parallel_child argv_base out_fd i ;; ret loc
  else
    ret (i + 1, match pids with
                | Some a => Some (store a (Z.to_nat i) pid)
                | None => None
                end).

Definition parallel_wait (pids : list Z) (i : Z) : M Z :=
  when (0 <? nth (Z.to_nat i) pids 0) (waitpid (nth (Z.to_nat i) pids 0) ;; ret tt) ;;
  ret (i + 1).

(** Lines 44-95; [argv_base] is the array up to its [NULL], [pids] the
    array of [count] cells. *)
Definition parallelwriteoutput (count : Z) (argv_base : list string)
    (out_path : string) : M unit :=
  out_fd <- open_trunc out_path ;;
  pids <- (if 0 <? count then
             ok <- malloc ;;
             ret (if ok then Some (repeat 0 (Z.to_nat count)) else None)
           else ret None) ;;
  loc <- for_loop (Z.to_nat count) (parallel_fork argv_base out_fd) (0, pids) ;;
  when (0 <=? out_fd) (close out_fd) ;;
  match snd loc with
  | Some a => for_loop (Z.to_nat count) (parallel_wait a) 0 ;; ret tt
  | None => ret tt
  end.

End Program.

(** ** Vocabulary of the properties *)

(** *** The shape of a measurement

    One cycle of a loop of [measure], seen from outside: what the three
    callbacks emitted and, for the cycles that read the clock, the two
    readings. *)
Record cycle : Type := mkCycle {
  c_setup : trace;
  c_start : timespec;
  c_action : trace;
  c_end : timespec;
  c_teardown : trace
}.

(** The events a callback may emit: everything but what the harness itself
    emits around it (calls through pointers, clock readings, the report). *)
Definition cb_event (e : event) : bool :=
  match e with
  | EvCall _ | EvClock _ | EvStdout _ => false
  | _ => true
  end.

Definition quiet (tr : trace) : Prop := Forall (fun e => cb_event e = true) tr.

Definition quiet_cycle (c : cycle) : Prop :=
  quiet (c_setup c) /\ quiet (c_action c) /\ quiet (c_teardown c).

(** [if (f) f();] with what [f] emitted. *)
Definition opt_call_trace (f : option action_fn) (body : trace) : trace :=
  match f with Some g => EvCall g :: body | None => [] end.

(** The value [nsecs_now] returns for a reading. *)
Definition ns_of (ts : timespec) : Z :=
  u64 (u64 (fst ts) * 1000000000 + u64 (snd ts)).

Definition warm_trace (su : option action_fn) (ac : action_fn)
    (td : option action_fn) (c : cycle) : trace :=
  opt_call_trace su (c_setup c)
  ++ [EvBarrier; EvCall ac] ++ c_action c
  ++ [EvBarrier] ++ opt_call_trace td (c_teardown c).

Definition timed_trace (su : option action_fn) (ac : action_fn)
    (td : option action_fn) (c : cycle) : trace :=
  opt_call_trace su (c_setup c)
  ++ [EvBarrier; EvClock (Ok (c_start c)); EvCall ac] ++ c_action c
  ++ [EvClock (Ok (c_end c)); EvBarrier] ++ opt_call_trace td (c_teardown c).

Definition overhead_trace (su td : option action_fn) (c : cycle) : trace :=
  opt_call_trace su (c_setup c)
  ++ [EvBarrier; EvClock (Ok (c_start c)); EvBarrier; EvClock (Ok (c_end c))]
  ++ opt_call_trace td (c_teardown c).

(** [total += (t1 - t0)] over the cycles, in [uint64_t]. *)
Definition accumulate (cs : list cycle) (total : Z) : Z :=
  fold_left (fun acc c => u64 (acc + u64 (ns_of (c_end c) - ns_of (c_start c))))
            cs total.

(** The mean as [measure] computes it. *)
Definition mean_of (total iters : Z) : double :=
  ddiv (double_of_u64 total) (double_of_u64 iters).

(** The report block. *)
Definition report (label : string) (iters : Z) (subtract_overhead : bool)
    (total_ns total_o : Z) : list outline :=
  [LLabel label; LIters iters; LMeanTotal (mean_of total_ns iters)]
  ++ (if subtract_overhead
      then [LMeanOverhead (mean_of total_o iters);
            LMeanSubtracted (dsub (mean_of total_ns iters) (mean_of total_o iters))]
      else [])
  ++ [LBlank].

(** "The warm-up phase of this run had [n] cycles": the trace starts with
    [n] warm-up cycles, and the first timed cycle follows them. *)
Definition warmup_cycles (su : option action_fn) (ac : action_fn)
    (td : option action_fn) (tr : trace) (n : nat) : Prop :=
  exists warm c rest,
    tr = flat_map (warm_trace su ac td) warm ++ timed_trace su ac td c ++ rest
    /\ List.length warm = n /\ Forall quiet_cycle warm /\ quiet_cycle c.

(** *** Children *)

(** The largest number of unreaped children while [tr] unfolds from the
    table [ps]. *)
Fixpoint peak (tr : trace) (ps : list Z) : nat :=
  Nat.max (List.length ps)
    match tr with
    | [] => 0%nat
    | e :: tr' => peak tr' (step_children ps e)
    end.

(** *** A program logic over the monad

    [ok s tr s'] says what a returning computation may have done between
    [s] and [s'], [bad s tr h] what a computation that stopped the process
    may have done; [spec] adds a precondition and a postcondition. *)
Definition spec (ok : state -> trace -> state -> Prop)
    (bad : state -> trace -> halt -> Prop) {A}
    (P : state -> Prop) (m : M A) (Q : A -> state -> Prop) : Prop :=
  forall s, P s ->
    match m s with
    | (tr, Ret a s') => ok s tr s' /\ Q a s'
    | (tr, Halt h) => bad s tr h
    end.

(** *** Oracles and runs used as examples *)

(** A system where every call succeeds: the clock advances by one second
    per system call, children get fresh process ids. *)
Definition nice : os :=
  mkOS (fun k => Ok (Z.of_nat k, 7))
       (fun k => ForkParent (Pos.of_nat (100 + k)))
       (fun _ => Some 0) (fun _ => Ok tt) (fun _ => Ok 0%N)
       (fun _ => Ok "/tmp/gtabcdef") (fun _ => Ok tt) (fun _ _ => Ok tt)
       (fun _ => 1) (fun k => Ok (3 + Z.of_nat k)) (fun _ => true)
       (fun _ => Err 2).

(** The state a returning computation ends in. *)
Definition final_state {A} (x : trace * res A) : state :=
  match snd x with Ret _ s => s | Halt _ => init_state end.

(** Two iterations of the fifth scenario, with overhead subtraction. *)
Definition demo_run : trace * res unit :=
  measure nice "demo" (Some p_setup_waitpid_ready) p_act_waitpid_ready
          (Some p_teardown_wait_ready) 2 true init_state.

(** Ten iterations of the third scenario, without. *)
Definition ten_run : trace * res unit :=
  measure nice "ten" None p_act_getppid None 10 false init_state.

(** A system where every call that can fail does. *)
Definition hostile : os :=
  mkOS (fun _ => Err 22) (fun _ => ForkErr 11) (fun _ => None)
       (fun _ => Err 4) (fun _ => Err 11) (fun _ => Err 13) (fun _ => Err 13)
       (fun _ _ => Err 2) (fun _ => 1) (fun _ => Err 13) (fun _ => false)
       (fun _ => Err 2).

(** A system where every [fork] is seen from the child and only the first
    [malloc] (the parent's) succeeds. *)
Definition child_without_memory : os :=
  mkOS (fun _ => Err 22) (fun _ => ForkChild) (fun _ => Some 0)
       (fun _ => Ok tt) (fun _ => Ok 0%N) (fun _ => Err 13) (fun _ => Ok tt)
       (fun _ _ => Ok tt) (fun _ => 1) (fun k => Ok (3 + Z.of_nat k))
       (fun k => (k <? 2)%nat) (fun _ => Ok tt).

(** *** The helpers of fork_run.c

    What a helper that returns has done: nothing on the error stream.  How
    a helper may stop: only on the child's side of a [fork], and there in
    one of three ways, told by the last thing the child did ([after] is
    what the child did after its [fork]): [exec] succeeded and replaced the
    image; [exec] failed and the child called [_exit(127)]; or the child's
    [malloc] failed and the child stored through the null pointer. *)
Definition child_end (after : trace) (h : halt) : Prop :=
  (h = ChildExec /\
   exists path argv u, last after EvBarrier = EvExec path argv (Ok u)) \/
  (h = ChildExit 127 /\
   exists path argv e, last after EvBarrier = EvExec path argv (Err e)) \/
  (h = Undefined /\ last after EvBarrier = EvMalloc false).

Definition helper_ok (s : state) (tr : trace) (s' : state) : Prop :=
  stderr_of tr = [].

Definition helper_bad (s : state) (tr : trace) (h : halt) : Prop :=
  stderr_of tr = [] /\
  exists before after,
    tr = before ++ EvFork ForkChild :: after /\ child_end after h.

(** *** The parts of [measure] and of [main]

    The three loops of [measure] without the report, and [main] cut into
    what it does before the [switch] and the table the [switch] encodes;
    [measure_phases] and [main_eq] relate them to the functions. *)
Definition phases (OS : os) (su : option action_fn) (ac : action_fn)
    (td : option action_fn) (iters : Z) (sub : bool) : M (Z * Z) :=
  for_loop (Z.to_nat (u64 (iters / 10 + 1))) (warm_cycle OS su ac td) tt ;;
  total_ns <- for_loop (Z.to_nat iters) (timed_cycle OS su ac td) 0 ;;
  total_o <- (if sub
              then for_loop (Z.to_nat iters) (overhead_cycle OS su td) 0
              else ret 0) ;;
  ret (total_ns, total_o).

Record scenario : Type := mkScenario {
  sc_label : string;
  sc_setup : option action_fn;
  sc_action : action_fn;
  sc_teardown : option action_fn;
  sc_iters : Z;
  sc_subtract : bool
}.

Definition scenario_table (which : Z) : option scenario :=
  match which with
  | 1 => Some (mkScenario "scenario_1_empty_function_call"
                 None p_act_call_empty None 200000 true)
  | 2 => Some (mkScenario "scenario_2_drand48"
                 None p_act_drand48 None 200000 true)
  | 3 => Some (mkScenario "scenario_3_getppid"
                 None p_act_getppid None 200000 true)
  | 4 => Some (mkScenario "scenario_4_fork_parent_return"
                 None p_act_fork_parent_return
                 (Some p_teardown_wait_for_last_child) 8000 true)
  | 5 => Some (mkScenario "scenario_5_waitpid_already_terminated"
                 (Some p_setup_waitpid_ready) p_act_waitpid_ready
                 (Some p_teardown_wait_ready) 2000 true)
  | 6 => Some (mkScenario "scenario_6_fork_child_exit_waitpid"
                 None p_act_fork_child_exit_wait None 4000 false)
  | 7 => Some (mkScenario "scenario_7_system_true"
                 None p_act_system_true None 2500 false)
  | 8 => Some (mkScenario "scenario_8_mkdir_rmdir"
                 (Some p_setup_mkdir_rmdir) p_act_mkdir_rmdir None 20000 true)
  | _ => None
  end.

Definition run_scenario (OS : os) (sc : scenario) : M unit :=
  measure OS (sc_label sc) (sc_setup sc) (sc_action sc) (sc_teardown sc)
          (sc_iters sc) (sc_subtract sc).

(** [main] between the check of [argc] and the [switch]. *)
Definition prelude (OS : os) : M unit :=
  s <- get ;;
  a1 <- access OS (TRUE_PATH s) ;;
  (if negb (a1 =? 0) then
     a2 <- access OS "/usr/bin/true" ;;
     when (a2 =? 0) (modify (set_TRUE_PATH "/usr/bin/true"))
   else ret tt) ;;
  srand48 12648430.

Definition is_access (e : event) : bool :=
  match e with EvAccess _ _ => true | _ => false end.

(** *** Children while the program runs

    A computation that returns keeps the process table and the trace in
    step, and never has more than one unreaped child when it started with at
    most one; a computation that stops the process obeys the same bound up
    to there, and does not stop it with status 0. *)
Definition kids_ok (s : state) (tr : trace) (s' : state) : Prop :=
  ((List.length (procs s) <= 1)%nat -> (peak tr (procs s) <= 1)%nat)
  /\ procs s' = children_after tr (procs s).

Definition kids_bad (s : state) (tr : trace) (h : halt) : Prop :=
  ((List.length (procs s) <= 1)%nat -> (peak tr (procs s) <= 1)%nat)
  /\ h <> Exit 0.

(** The states between the callbacks of a cycle. *)
Definition no_child (s : state) : Prop := procs s = [].

Definition child_in_last_child (s : state) : Prop :=
  exists p, procs s = [Z.pos p] /\ last_child s = Z.pos p.

Definition child_in_ready_zombie (s : state) : Prop :=
  exists p, procs s = [Z.pos p] /\ ready_zombie s = Z.pos p.

(** *** Failures of the monitored primitives

    The failure indicators [measure] and the scenarios test for. *)
Definition monitored_failure (e : event) : bool :=
  match e with
  | EvClock (Err _) | EvFork (ForkErr _) | EvWaitpid _ (Err _)
  | EvSystem _ (Err _) | EvMkdtemp _ (Err _) | EvRmdir _ (Err _) => true
  | _ => false
  end.

(** What [perror] prints for the failure [e]: the name of the call and the
    error the system gave. *)
Definition failure_report (e : event) : errline :=
  match e with
  | EvClock (Err n) => Perror "clock_gettime" n
  | EvFork (ForkErr n) => Perror "fork" n
  | EvWaitpid _ (Err n) => Perror "waitpid" n
  | EvSystem _ (Err n) => Perror "system" n
  | EvMkdtemp _ (Err n) => Perror "mkdtemp" n
  | EvRmdir _ (Err n) => Perror "rmdir" n
  | _ => Perror "" 0
  end.

(** The one failure the program lets pass: [ECHILD] from the [waitpid] of
    [teardown_wait_ready]; [cur] is the callback that is running. *)
Definition tolerated (cur : option action_fn) (e : event) : bool :=
  match cur, e with
  | Some p_teardown_wait_ready, EvWaitpid _ (Err n) => n =? ECHILD
  | _, _ => false
  end.

(** Does [tr] hold a failure of a monitored primitive that is not
    tolerated?  [cur] is the callback entered last before [tr]. *)
Fixpoint fatal_in (cur : option action_fn) (tr : trace) : bool :=
  match tr with
  | [] => false
  | EvCall f :: tr' => fatal_in (Some f) tr'
  | e :: tr' =>
      (monitored_failure e && negb (tolerated cur e)) || fatal_in cur tr'
  end.

Fixpoint cur_after (cur : option action_fn) (tr : trace) : option action_fn :=
  match tr with
  | [] => cur
  | EvCall f :: tr' => cur_after (Some f) tr'
  | _ :: tr' => cur_after cur tr'
  end.

(** A run that a failure stopped: nothing was printed, and the trace ends
    with the failing call and its [perror]; nothing failed fatally before. *)
Definition fatal_stop (tr : trace) : Prop :=
  stdout_of tr = []
  /\ (exists pre e,
        tr = pre ++ [e; EvStderr (failure_report e)]
        /\ monitored_failure e = true
        /\ forall cur, fatal_in cur pre = false)
  /\ forall cur, fatal_in cur tr = true.

Definition outcome_ok (tr : trace) (h : halt) : Prop :=
  match h with
  | Exit 1 => fatal_stop tr
  | _ => forall cur, fatal_in cur tr = false
  end.

Definition fatal_ok (s : state) (tr : trace) (s' : state) : Prop :=
  stdout_of tr = [] /\ forall cur, fatal_in cur tr = false.

Definition fatal_bad (s : state) (tr : trace) (h : halt) : Prop :=
  stdout_of tr = [] /\ outcome_ok tr h.

Definition any_state (s : state) : Prop := True.

Definition pid_in_ready_zombie (s : state) : Prop :=
  exists p, ready_zombie s = Z.pos p.

Definition is_echild (e : event) : bool :=
  match e with EvWaitpid _ (Err n) => n =? ECHILD | _ => false end.

(** *** The child-pid registers

    The states in which the program calls something: the initial one, and
    every state it gets to by what [main] does before the [switch], by a
    call through a function pointer, or by a clock reading. *)
Inductive reachable (OS : os) : state -> Prop :=
| reach_init : reachable OS init_state
| reach_prelude s tr s' :
    reachable OS s -> prelude OS s = (tr, Ret tt s') -> reachable OS s'
| reach_call f s tr s' :
    reachable OS s -> call OS f s = (tr, Ret tt s') -> reachable OS s'
| reach_clock s tr t s' :
    reachable OS s -> nsecs_now OS s = (tr, Ret t s') -> reachable OS s'.

(** A register holds -1 or a process id. *)
Definition registers_ok (s : state) : Prop :=
  (last_child s = -1 \/ 0 < last_child s)
  /\ (ready_zombie s = -1 \/ 0 < ready_zombie s).

(** A system like [nice] where every [nanosleep] is interrupted and
    [/bin/true] cannot be executed. *)
Definition sleepless : os :=
  mkOS (os_clock nice) (os_fork nice) (os_waitpid nice)
       (fun _ => Err EINTR) (os_system nice) (os_mkdtemp nice)
       (os_rmdir nice)
       (fun _ path => if String.eqb path "/bin/true" then Err 2 else Ok tt)
       (os_getppid nice) (os_open nice) (os_malloc nice) (os_exec nice).

(** Failures of the calls whose result the program does not look at
    ([nanosleep]) or only branches on ([access]). *)
Definition ignored_failure (e : event) : bool :=
  match e with
  | EvNanosleep _ (Err _) | EvAccess _ (Err _) => true
  | _ => false
  end.

(** *** The command line

    What the specification calls an argument that is an integer: an
    optional sign and at least one decimal digit, and nothing else. *)
Fixpoint all_digits (s : string) : bool :=
  match s with
  | EmptyString => true
  | String c r =>
      match digit_of c with Some _ => all_digits r | None => false end
  end.

Definition numeral (s : string) : option Z :=
  match s with
  | EmptyString => None
  | _ => if all_digits s then Some (digits s 0) else None
  end.

Definition denotes_integer (s : string) : option Z :=
  match s with
  | String "-" r => option_map Z.opp (numeral r)
  | String "+" r => numeral r
  | _ => numeral s
  end.

(** "The argument is an integer in [1, 8]". *)
Definition integer_in_1_8 (arg : string) : bool :=
  match denotes_integer arg with
  | Some n => (1 <=? n) && (n <=? 8)
  | None => false
  end.

Definition is_stderr (e : event) : bool :=
  match e with EvStderr _ => true | _ => false end.

(** Does a teardown of the fifth scenario reap a child somewhere in [tr]:
    is there a call of [teardown_wait_ready] whose [waitpid] succeeds? *)
Fixpoint teardown_reaps (tr : trace) : bool :=
  match tr with
  | EvCall p_teardown_wait_ready :: ((EvWaitpid _ (Ok _) :: _) as tr') =>
      true || teardown_reaps tr'
  | _ :: tr' => teardown_reaps tr'
  | [] => false
  end.

(** *** More vocabulary: clock readings and calls in a trace *)

(** The successful clock readings of a trace, in order. *)
Definition clock_reads (tr : trace) : list timespec :=
  flat_map (fun e => match e with EvClock (Ok ts) => [ts] | _ => [] end) tr.

(** A reading as a number of nanoseconds, without any wrap-around. *)
Definition real_ns (ts : timespec) : Z := fst ts * 1000000000 + snd ts.

(** The readings taken two by two, start then end: the sum of the true
    differences. *)
Fixpoint pair_sum (rs : list timespec) : Z :=
  match rs with
  | t0 :: t1 :: rs' => (real_ns t1 - real_ns t0) + pair_sum rs'
  | _ => 0
  end.

(** The readings never go back. *)
Fixpoint monotone (rs : list timespec) : Prop :=
  match rs with
  | t0 :: ((t1 :: _) as rs') => real_ns t0 <= real_ns t1 /\ monotone rs'
  | _ => True
  end.

Definition action_fn_eq_dec (f g : action_fn) : {f = g} + {f <> g}.
Proof. decide equality. Defined.

(** How many times the trace calls through the pointer [f]. *)
Definition count_calls (f : action_fn) (tr : trace) : nat :=
  List.length
    (filter (fun e => match e with
                      | EvCall g => if action_fn_eq_dec f g then true else false
                      | _ => false
                      end) tr).

(** The readings of a list of cycles, in order. *)
Definition cycle_reads (cs : list cycle) : list timespec :=
  flat_map (fun c => [c_start c; c_end c]) cs.

(** *** What a run says

    What has been written when a computation returns inside a measurement
    (nothing), and when it stops the process (one [perror] line and status
    1, or nothing in a forked child). *)
Definition say_ok (s : state) (tr : trace) (s' : state) : Prop :=
  stdout_of tr = [] /\ stderr_of tr = [].

Definition say_bad (s : state) (tr : trace) (h : halt) : Prop :=
  stdout_of tr = []
  /\ ((h = Exit 1 /\ exists tag e, stderr_of tr = [Perror tag e])
      \/ (h = ChildExit 0 /\ stderr_of tr = [])).

(** *** The command of the subshell scenario *)

(** Every [system] of the trace runs the command [p]. *)
Definition runs_only (p : string) (tr : trace) : Prop :=
  Forall (fun e => match e with EvSystem cmd _ => cmd = p | _ => True end) tr.

Definition path_ok (p : string) (s : state) (tr : trace) (s' : state) : Prop :=
  runs_only p tr.

Definition path_bad (p : string) (s : state) (tr : trace) (h : halt) : Prop :=
  runs_only p tr.

Definition has_path (p : string) (s : state) : Prop := TRUE_PATH s = p.

(** The path the two probes of [main] select: the second candidate when
    the first cannot be executed and the second can, the first otherwise. *)
Definition resolved_path (tr : trace) : string :=
  match tr with
  | EvAccess _ (Err _) :: EvAccess _ (Ok _) :: _ => "/usr/bin/true"
  | _ => "/bin/true"
  end.

(** *** Temporary directories *)

Fixpoint remove_str (x : string) (ds : list string) : list string :=
  match ds with
  | [] => []
  | d :: ds' => if String.eqb d x then ds' else d :: remove_str x ds'
  end.

(** The effect of one event on the directories that [mkdtemp] created and
    [rmdir] has not removed. *)
Definition step_dirs (ds : list string) (e : event) : list string :=
  match e with
  | EvMkdtemp _ (Ok name) => name :: ds
  | EvRmdir path (Ok _) => remove_str path ds
  | _ => ds
  end.

Definition dirs_after (tr : trace) (ds : list string) : list string :=
  fold_left step_dirs tr ds.

(** Every [mkdtemp] of the trace is given the template of the program. *)
Definition from_template (tr : trace) : Prop :=
  Forall (fun e => match e with
                   | EvMkdtemp template _ => template = dir_template
                   | _ => True
                   end) tr.

Definition dir_ok (s : state) (tr : trace) (s' : state) : Prop :=
  (forall ds, dirs_after tr ds = ds) /\ from_template tr.

Definition dir_bad (s : state) (tr : trace) (h : halt) : Prop :=
  from_template tr /\ h <> Exit 0.

Definition has_template (s : state) : Prop := workdir s = dir_template.

(** *** fork_run.c seen from the caller

    What [fork] returned on the parent's side, in order; the process ids
    [waitpid] was called with, and those whose call failed; the descriptors
    [open] delivered and those [close] was called with; the events only a
    child produces; whether a [malloc] succeeded. *)
Definition fork_value (r : fork_reply) : Z :=
  match r with
  | ForkErr _ => -1
  | ForkChild => 0
  | ForkParent p => Z.pos p
  end.

Definition fork_values (tr : trace) : list Z :=
  flat_map (fun e => match e with
                     | EvFork ForkChild => []
                     | EvFork r => [fork_value r]
                     | _ => []
                     end) tr.

Definition waited (tr : trace) : list Z :=
  flat_map (fun e => match e with EvWaitpid pid _ => [pid] | _ => [] end) tr.

Definition interrupted (tr : trace) : list Z :=
  flat_map (fun e => match e with
                     | EvWaitpid pid (Err _) => [pid]
                     | _ => []
                     end) tr.

Definition opened_fds (tr : trace) : list Z :=
  flat_map (fun e => match e with
                     | EvOpen _ (Ok fd) => if 0 <=? fd then [fd] else []
                     | _ => []
                     end) tr.

Definition closed_fds (tr : trace) : list Z :=
  flat_map (fun e => match e with EvClose fd => [fd] | _ => [] end) tr.

Definition child_side (e : event) : bool :=
  match e with
  | EvFork ForkChild | EvDup2 _ _ | EvExec _ _ _ => true
  | _ => false
  end.

Definition pids_allocated (tr : trace) : bool :=
  existsb (fun e => match e with EvMalloc true => true | _ => false end) tr.

Definition is_wait (e : event) : bool :=
  match e with EvWaitpid _ _ => true | _ => false end.

(** The cells [from], [from + 1], ... of [a] overwritten by [vs]. *)
Fixpoint store_all (a : list Z) (from : nat) (vs : list Z) : list Z :=
  match vs with
  | [] => a
  | v :: vs' => store_all (store a from v) (S from) vs'
  end.

(** What [open] returned. *)
Definition open_fd (ro : reply Z) : Z :=
  match ro with Ok fd => fd | Err _ => -1 end.

(** What the child of index [i] does in [parallelwriteoutput] after its
    [fork] (lines 60-78), and how it ends: [ok] is whether its [malloc]
    succeeded, [r] the answer of [execv]. *)
Definition child_trace (argv_base : list string) (out_fd i : Z) (ok : bool)
    (r : reply unit) : trace :=
  (if 0 <=? out_fd then [EvDup2 out_fd STDOUT_FILENO; EvClose out_fd] else [])
  ++ EvMalloc ok
  :: (if ok then [EvExec (hd "" argv_base) (argv_base ++ [decimal i]) r]
      else []).

Definition child_halt (ok : bool) (r : reply unit) : halt :=
  if ok then match r with Ok _ => ChildExec | Err _ => ChildExit 127 end
  else Undefined.

(** Two systems where the second [fork] of [parallelwriteoutput] is seen
    from the child: in the first everything else succeeds, in the second
    [open] and [execv] fail. *)
Definition in_second_child : os :=
  mkOS (fun _ => Err 22)
       (fun k => if (k <? 3)%nat then ForkParent (Pos.of_nat (100 + k))
                 else ForkChild)
       (fun _ => Some 0) (fun _ => Ok tt) (fun _ => Ok 0%N)
       (fun _ => Err 13) (fun _ => Ok tt) (fun _ _ => Ok tt)
       (fun _ => 1) (fun k => Ok (3 + Z.of_nat k)) (fun _ => true)
       (fun _ => Ok tt).

Definition in_second_child_failing : os :=
  mkOS (fun _ => Err 22)
       (fun k => if (k <? 3)%nat then ForkParent (Pos.of_nat (200 + k))
                 else ForkChild)
       (fun _ => Some 0) (fun _ => Ok tt) (fun _ => Ok 0%N)
       (fun _ => Err 13) (fun _ => Ok tt) (fun _ _ => Ok tt)
       (fun _ => 1) (fun _ => Err 13) (fun _ => true)
       (fun _ => Err 2).

(** *** The doubles of the report

    A double that is a number (no NaN, no infinity), and its sign bit. *)
Definition finite (x : double) : bool :=
  match x with
  | S754_zero _ | S754_finite _ _ _ => true
  | _ => false
  end.

Definition sign_bit (x : double) : bool :=
  match x with
  | S754_zero s | S754_infinity s | S754_finite s _ _ => s
  | S754_nan => false
  end.

(** A finite double whose exponent is at least [lo] and whose magnitude
    (digits of the mantissa plus exponent) is at most [hi]. *)
Definition within (lo hi : Z) (x : double) : Prop :=
  match x with
  | S754_zero _ => True
  | S754_finite _ m e => lo <= e /\ Z.pos (digits2_pos m) + e <= hi
  | _ => False
  end.

Definition mean_line_ok (l : outline) : Prop :=
  match l with
  | LMeanTotal d | LMeanOverhead d => finite d = true /\ sign_bit d = false
  | LMeanSubtracted d => finite d = true
  | _ => True
  end.

(** *** The children of the scenarios

    An event of the process that called [fork], not of the child; a trace
    that ends at the [fork] that made the process a child, with nothing
    after it. *)
Definition not_child (e : event) : bool :=
  match e with EvFork ForkChild => false | _ => true end.

Definition ends_at_fork (tr : trace) : bool :=
  match rev tr with
  | EvFork ForkChild :: before => forallb not_child before
  | _ => false
  end.

Definition parent_ok (s : state) (tr : trace) (s' : state) : Prop :=
  forallb not_child tr = true.

Definition parent_bad (s : state) (tr : trace) (h : halt) : Prop :=
  match h with
  | Exit _ => forallb not_child tr = true
  | ChildExit st => st = 0 /\ ends_at_fork tr = true
  | _ => False
  end.

(** What the child of [writeoutput] does after its [fork] (lines 19-30);
    [r] is the answer of [execl]. *)
Definition shell_child_trace (command : string) (out_fd err_fd : Z)
    (r : reply unit) : trace :=
  (if 0 <=? out_fd then [EvDup2 out_fd STDOUT_FILENO] else [])
  ++ (if 0 <=? err_fd then [EvDup2 err_fd STDERR_FILENO] else [])
  ++ (if 0 <=? out_fd then [EvClose out_fd] else [])
  ++ (if 0 <=? err_fd then [EvClose err_fd] else [])
  ++ [EvExec "/bin/sh" ["sh"; "-c"; command] r].

(** A system where every [fork] is seen from the child. *)
Definition in_child : os :=
  mkOS (fun _ => Err 22) (fun _ => ForkChild)
       (fun _ => Some 0) (fun _ => Ok tt) (fun _ => Ok 0%N)
       (fun _ => Err 13) (fun _ => Ok tt) (fun _ _ => Ok tt)
       (fun _ => 1) (fun k => Ok (3 + Z.of_nat k)) (fun _ => true)
       (fun _ => Ok tt).

(** *** The pseudo-random scenario

    One step of the generator behind [drand48], the double it delivers in
    a state, and what a computation whose trace is [tr] has done to the
    generator and to [sink_double]. *)
Definition lcg (x : Z) : Z := (25214903917 * x + 11) mod 2 ^ 48.

Definition drand48_value (x : Z) : double :=
  binary_normalize 53 1024 x (-48) false.

Definition draws (tr : trace) : nat := count_calls p_act_drand48 tr.

Definition rand_ok (s : state) (tr : trace) (s' : state) : Prop :=
  rand48 s' = Nat.iter (draws tr) lcg (rand48 s) /\
  sink_double s' = match draws tr with
                   | O => sink_double s
                   | S _ => drand48_value (rand48 s')
                   end.

Definition rand_bad (s : state) (tr : trace) (h : halt) : Prop := True.

(** Two iterations of the second scenario. *)
Definition rand_run : trace * res unit :=
  measure nice "rand" None p_act_drand48 None 2 true init_state.

(** ** Properties *)

(** *** The model at work *)

Example atoi_examples :
  atoi "7" = 7 /\ atoi "  +7" = 7 /\ atoi "7x" = 7 /\ atoi "-12" = -12
  /\ atoi "x7" = 0 /\ atoi "" = 0 /\ atoi "9" = 9.
Proof. repeat split. Qed.

(** Two timed cycles of two seconds each and two overhead cycles of one
    second each on [nice]'s clock: means of 2e9 and 1e9 nanoseconds. *)
Example demo_report :
  stdout_of (fst demo_run) =
  [LLabel "demo"; LIters 2;
   LMeanTotal (double_of_u64 2000000000);
   LMeanOverhead (double_of_u64 1000000000);
   LMeanSubtracted (double_of_u64 1000000000);
   LBlank].
Proof. vm_compute. reflexivity. Qed.

Example zero_iterations_on_nice :
  measure nice "none" None p_act_call_empty None 0 true init_state
  = ([EvStderr ItersMsg], Halt (Exit 2)).
Proof. reflexivity. Qed.

(** *** The monad *)

Lemma bind_Ret {A B} (m : M A) (k : A -> M B) s tr b s' :
  bind m k s = (tr, Ret b s') ->
  exists t1 a s1 t2,
    m s = (t1, Ret a s1) /\ k a s1 = (t2, Ret b s') /\ tr = t1 ++ t2.
Proof.
  unfold bind. destruct (m s) as [t1 [a s1|h]].
  - destruct (k a s1) as [t2 r] eqn:E. intros H; inversion H; subst.
    exists t1, a, s1, t2. auto.
  - discriminate.
Qed.

Section Logic.

Variable ok : state -> trace -> state -> Prop.
Variable bad : state -> trace -> halt -> Prop.
Hypothesis ok_nil : forall s, ok s [] s.
Hypothesis ok_app : forall s t1 s1 t2 s2,
  ok s t1 s1 -> ok s1 t2 s2 -> ok s (t1 ++ t2) s2.
Hypothesis bad_app : forall s t1 s1 t2 h,
  ok s t1 s1 -> bad s1 t2 h -> bad s (t1 ++ t2) h.

Lemma spec_ret {A} (P : state -> Prop) (a : A) (Q : A -> state -> Prop) :
  (forall s, P s -> Q a s) -> spec ok bad P (ret a) Q.
Proof. intros H s Hs. simpl. auto. Qed.

Lemma spec_bind {A B} (P : state -> Prop) (m : M A) (Q : A -> state -> Prop)
    (k : A -> M B) (R : B -> state -> Prop) :
  spec ok bad P m Q -> (forall a, spec ok bad (Q a) (k a) R) ->
  spec ok bad P (bind m k) R.
Proof.
  intros Hm Hk s Hs. specialize (Hm s Hs). unfold bind.
  destruct (m s) as [t1 [a s1|h]]; auto.
  destruct Hm as [Ho Hq]. specialize (Hk a s1 Hq).
  destruct (k a s1) as [t2 [b s2|h]].
  - destruct Hk. split; eauto.
  - eauto.
Qed.

Lemma spec_for_loop {A} (I : state -> Prop) (body : A -> M A) n :
  (forall a, spec ok bad I (body a) (fun _ => I)) ->
  forall a, spec ok bad I (for_loop n body a) (fun _ => I).
Proof.
  intros Hb. induction n as [|n IH]; intros a; simpl.
  - apply spec_ret. auto.
  - eapply spec_bind; [apply Hb | apply IH].
Qed.

End Logic.

(** *** Symbolic execution of straight-line code *)

Lemma wait_target_pos p ps c : wait_target (Z.pos p) ps = Some c -> c = Z.pos p.
Proof.
  unfold wait_target. simpl.
  destruct (existsb (Z.eqb (Z.pos p)) ps); congruence.
Qed.

(** Unfolds the monad, the library calls and the functions of the program,
    and the projections of a state that is given by its fields. *)
Ltac mred :=
  cbv beta iota zeta delta
    [bind ret get modify emit stop exit _exit sys when perror clock_gettime
     fork waitpid nanosleep system mkdtemp rmdir access getppid srand48
     drand48 set_errno_of rc_of COMPILER_BARRIER nsecs_now empty_function
     act_call_empty act_drand48 act_getppid act_fork_parent_return
     teardown_wait_for_last_child setup_waitpid_ready act_waitpid_ready
     teardown_wait_ready act_fork_child_exit_wait act_system_true
     setup_mkdir_rmdir act_mkdir_rmdir call call_opt body_of
     open_trunc dup2 close malloc exec EINTR ECHILD
     fst snd app negb andb orb
     Z.ltb Z.leb Z.eqb Z.compare Z.of_N
     tick procs errno rand48 sink_u64 sink_double last_child ready_zombie
     workdir TRUE_PATH
     set_tick set_procs set_errno set_rand48 set_sink_u64 set_sink_double
     set_last_child set_ready_zombie set_workdir set_TRUE_PATH].

(** Splits on an answer of the oracle (or on a value that is not known)
    that a [match] of the goal is waiting for. *)
Ltac mcase :=
  match goal with
  | |- context [match ?x with _ => _ end] =>
      lazymatch x with
      | context [match _ with _ => _ end] => fail
      | _ => destruct x eqn:?
      end
  end.

(** Comparisons of two known process ids or [errno] values. *)
Ltac peqb :=
  rewrite ?Pos.eqb_refl;
  repeat match goal with
         | |- context [Pos.eqb ?a ?b] =>
             let v := eval cbv in (Pos.eqb a b) in
             lazymatch v with
             | true => change (Pos.eqb a b) with true
             | false => change (Pos.eqb a b) with false
             end
         end.

(** [waitpid] on a positive process id reaps that child or none. *)
Ltac wcase :=
  match goal with
  | |- context [wait_target (Z.pos ?p) ?ps] =>
      let E := fresh "E" in
      destruct (wait_target (Z.pos p) ps) as [?|] eqn:E;
      [apply wait_target_pos in E; subst|]
  end.

Ltac mexec :=
  mred; peqb; mred; repeat (first [wcase | mcase]; mred; peqb; mred).

(** The same when the process table is known: [waitpid] is decided. *)
Ltac pred :=
  cbv beta iota zeta delta
    [wait_target existsb hd_error remove_one step_children children_after
     fold_left peak Nat.max List.length orb Z.ltb Z.eqb Z.compare];
  rewrite ?Pos.eqb_refl.

Ltac pexec := mred; pred; peqb; mred; repeat (mcase; mred; pred; peqb; mred).

Lemma body_quiet OS f s : quiet (fst (body_of OS f s)).
Proof.
  destruct s as [tk ps er rd su sd lc rz wd tp].
  destruct f; mexec; unfold quiet; repeat constructor.
Qed.

Lemma call_Ret OS f s tr a s' :
  call OS f s = (tr, Ret a s') -> exists body, tr = EvCall f :: body /\ quiet body.
Proof.
  unfold call. intros H. apply bind_Ret in H.
  destruct H as (t1 & x & s1 & t2 & H1 & H2 & ->).
  inversion H1; subst. exists t2. split; auto.
  pose proof (body_quiet OS f s1) as Hq. now rewrite H2 in Hq.
Qed.

Lemma call_opt_Ret OS f s tr a s' :
  call_opt OS f s = (tr, Ret a s') ->
  exists body, tr = opt_call_trace f body /\ quiet body.
Proof.
  destruct f as [g|]; simpl.
  - apply call_Ret.
  - intros H; inversion H; subst. exists []. split; auto. constructor.
Qed.

Lemma nsecs_now_Ret OS s tr t s' :
  nsecs_now OS s = (tr, Ret t s') ->
  exists ts, tr = [EvClock (Ok ts)] /\ t = ns_of ts.
Proof.
  destruct s as [tk ps er rd su sd lc rz wd tp].
  mexec; intros H; inversion H; subst. eexists (_, _). split; reflexivity.
Qed.

Ltac trace_eq :=
  simpl; repeat rewrite app_nil_r; repeat rewrite <- app_assoc; simpl;
  reflexivity.

(** Splits [H : bind m k s = (tr, Ret b s')] into the run of [m] (named
    [H1], with result [a]) and the run of the continuation (left in [H]). *)
Ltac bind_inv H H1 a :=
  let t1 := fresh "t" in let s1 := fresh "s" in let t2 := fresh "t" in
  apply bind_Ret in H; destruct H as (t1 & a & s1 & t2 & H1 & H & ->).

Lemma warm_cycle_Ret OS su ac td u s tr a s' :
  warm_cycle OS su ac td u s = (tr, Ret a s') ->
  exists c, quiet_cycle c /\ tr = warm_trace su ac td c.
Proof.
  unfold warm_cycle. intros H.
  bind_inv H Hsu x1. apply call_opt_Ret in Hsu as (bs & -> & Hs).
  bind_inv H Hb1 x2. inversion Hb1; subst.
  bind_inv H Hac x3. apply call_Ret in Hac as (ba & -> & Ha).
  bind_inv H Hb2 x4. inversion Hb2; subst.
  apply call_opt_Ret in H as (bt & -> & Ht).
  exists (mkCycle bs (0, 0) ba (0, 0) bt). split.
  - repeat split; assumption.
  - unfold warm_trace. trace_eq.
Qed.

Lemma timed_cycle_Ret OS su ac td total s tr total' s' :
  timed_cycle OS su ac td total s = (tr, Ret total' s') ->
  exists c, quiet_cycle c /\ tr = timed_trace su ac td c /\
            total' = u64 (total + u64 (ns_of (c_end c) - ns_of (c_start c))).
Proof.
  unfold timed_cycle. intros H.
  bind_inv H Hsu x1. apply call_opt_Ret in Hsu as (bs & -> & Hs).
  bind_inv H Hb1 x2. inversion Hb1; subst.
  bind_inv H Ht0 t0. apply nsecs_now_Ret in Ht0 as (ts0 & -> & ->).
  bind_inv H Hac x3. apply call_Ret in Hac as (ba & -> & Ha).
  bind_inv H Ht1 t1. apply nsecs_now_Ret in Ht1 as (ts1 & -> & ->).
  bind_inv H Hb2 x4. inversion Hb2; subst.
  bind_inv H Htd x5. apply call_opt_Ret in Htd as (bt & -> & Ht).
  inversion H; subst.
  exists (mkCycle bs ts0 ba ts1 bt). split; [|split].
  - repeat split; assumption.
  - unfold timed_trace. trace_eq.
  - reflexivity.
Qed.

Lemma overhead_cycle_Ret OS su td total s tr total' s' :
  overhead_cycle OS su td total s = (tr, Ret total' s') ->
  exists c, quiet_cycle c /\ tr = overhead_trace su td c /\
            total' = u64 (total + u64 (ns_of (c_end c) - ns_of (c_start c))).
Proof.
  unfold overhead_cycle. intros H.
  bind_inv H Hsu x1. apply call_opt_Ret in Hsu as (bs & -> & Hs).
  bind_inv H Hb1 x2. inversion Hb1; subst.
  bind_inv H Ht0 t0. apply nsecs_now_Ret in Ht0 as (ts0 & -> & ->).
  bind_inv H Hb2 x3. inversion Hb2; subst.
  bind_inv H Ht1 t1. apply nsecs_now_Ret in Ht1 as (ts1 & -> & ->).
  bind_inv H Htd x5. apply call_opt_Ret in Htd as (bt & -> & Ht).
  inversion H; subst.
  exists (mkCycle bs ts0 [] ts1 bt). split; [|split].
  - repeat split; try assumption. constructor.
  - unfold overhead_trace. trace_eq.
  - reflexivity.
Qed.

Lemma warm_loop_Ret OS su ac td n : forall s tr a s',
  for_loop n (warm_cycle OS su ac td) tt s = (tr, Ret a s') ->
  exists cs, List.length cs = n /\ Forall quiet_cycle cs /\
             tr = flat_map (warm_trace su ac td) cs.
Proof.
  induction n as [|n IH]; simpl; intros s tr a s' H.
  - inversion H; subst. exists []. repeat split; constructor.
  - bind_inv H Hc u. apply warm_cycle_Ret in Hc as (c & Hc & ->).
    destruct u. apply IH in H as (cs & Hl & Hq & ->).
    exists (c :: cs). simpl. repeat split; auto.
Qed.

Lemma timed_loop_Ret OS su ac td n : forall total s tr total' s',
  for_loop n (timed_cycle OS su ac td) total s = (tr, Ret total' s') ->
  exists cs, List.length cs = n /\ Forall quiet_cycle cs /\
             tr = flat_map (timed_trace su ac td) cs /\
             total' = accumulate cs total.
Proof.
  induction n as [|n IH]; simpl; intros total s tr total' s' H.
  - inversion H; subst. exists []. repeat split; constructor.
  - bind_inv H Hc x. apply timed_cycle_Ret in Hc as (c & Hc & -> & ->).
    apply IH in H as (cs & Hl & Hq & -> & ->).
    exists (c :: cs). simpl. repeat split; auto.
Qed.

Lemma overhead_loop_Ret OS su td n : forall total s tr total' s',
  for_loop n (overhead_cycle OS su td) total s = (tr, Ret total' s') ->
  exists cs, List.length cs = n /\ Forall quiet_cycle cs /\
             tr = flat_map (overhead_trace su td) cs /\
             total' = accumulate cs total.
Proof.
  induction n as [|n IH]; simpl; intros total s tr total' s' H.
  - inversion H; subst. exists []. repeat split; constructor.
  - bind_inv H Hc x. apply overhead_cycle_Ret in Hc as (c & Hc & -> & ->).
    apply IH in H as (cs & Hl & Hq & -> & ->).
    exists (c :: cs). simpl. repeat split; auto.
Qed.

(** The whole of a measurement that returned. *)
Lemma measure_Ret OS label su ac td iters sub s tr a s' :
  measure OS label su ac td iters sub s = (tr, Ret a s') ->
  exists warm timed over,
    tr = flat_map (warm_trace su ac td) warm
         ++ flat_map (timed_trace su ac td) timed
         ++ flat_map (overhead_trace su td) over
         ++ map EvStdout (report label iters sub (accumulate timed 0) (accumulate over 0))
    /\ List.length warm = Z.to_nat (u64 (iters / 10 + 1))
    /\ List.length timed = Z.to_nat iters
    /\ List.length over = (if sub then Z.to_nat iters else 0%nat)
    /\ Forall quiet_cycle warm /\ Forall quiet_cycle timed /\ Forall quiet_cycle over
    /\ iters <> 0.
Proof.
  unfold measure. intros H.
  bind_inv H Hg x0.
  assert (Hi : iters <> 0 /\ t = []).
  { destruct (iters =? 0) eqn:E; simpl in Hg.
    - discriminate.
    - inversion Hg; subst. split; auto. now apply Z.eqb_neq. }
  destruct Hi as [Hi ->]. clear Hg.
  bind_inv H Hw x1. apply warm_loop_Ret in Hw as (warm & Hlw & Hqw & ->).
  bind_inv H Ht total. apply timed_loop_Ret in Ht as (timed & Hlt & Hqt & -> & ->).
  bind_inv H Ho ov.
  assert (Hov : exists over, t = flat_map (overhead_trace su td) over /\
             List.length over = (if sub then Z.to_nat iters else 0%nat) /\
             Forall quiet_cycle over /\
             (sub = true -> ov = mean_of (accumulate over 0) iters)).
  { destruct sub.
    - bind_inv Ho Hl total_o.
      apply overhead_loop_Ret in Hl as (over & Hlo & Hqo & -> & ->).
      inversion Ho; subst. exists over. rewrite app_nil_r. repeat split; auto.
    - inversion Ho; subst. exists []. repeat split; auto. discriminate. }
  destruct Hov as (over & -> & Hlo & Hqo & Hov). clear Ho.
  exists warm, timed, over. repeat split; auto.
  destruct sub.
  - rewrite (Hov eq_refl) in H. cbv [bind emit when ret] in H.
    inversion H; subst. unfold report. trace_eq.
  - cbv [bind emit when ret] in H.
    inversion H; subst. unfold report. trace_eq.
Qed.

(** *** What callbacks cannot emit *)

Lemma stdout_of_app t1 t2 : stdout_of (t1 ++ t2) = stdout_of t1 ++ stdout_of t2.
Proof. unfold stdout_of. apply flat_map_app. Qed.

Lemma stdout_of_map ls : stdout_of (map EvStdout ls) = ls.
Proof. induction ls; simpl; congruence. Qed.

Lemma quiet_stdout tr : quiet tr -> stdout_of tr = [].
Proof.
  induction 1 as [|e tr He _ IH]; simpl; auto.
  destruct e; simpl in *; try discriminate; auto.
Qed.

Lemma opt_call_stdout f b : quiet b -> stdout_of (opt_call_trace f b) = [].
Proof. destruct f; simpl; auto using quiet_stdout. Qed.

Lemma warm_stdout su ac td cs :
  Forall quiet_cycle cs -> stdout_of (flat_map (warm_trace su ac td) cs) = [].
Proof.
  induction 1 as [|c cs (Hs & Ha & Ht) _ IH]; simpl; auto.
  rewrite stdout_of_app, IH. unfold warm_trace.
  rewrite !stdout_of_app, !opt_call_stdout, (quiet_stdout _ Ha); auto.
Qed.

Lemma timed_stdout su ac td cs :
  Forall quiet_cycle cs -> stdout_of (flat_map (timed_trace su ac td) cs) = [].
Proof.
  induction 1 as [|c cs (Hs & Ha & Ht) _ IH]; simpl; auto.
  rewrite stdout_of_app, IH. unfold timed_trace.
  rewrite !stdout_of_app, !opt_call_stdout, (quiet_stdout _ Ha); auto.
Qed.

Lemma overhead_stdout su td cs :
  Forall quiet_cycle cs -> stdout_of (flat_map (overhead_trace su td) cs) = [].
Proof.
  induction 1 as [|c cs (Hs & Ha & Ht) _ IH]; simpl; auto.
  rewrite stdout_of_app, IH. unfold overhead_trace.
  rewrite !stdout_of_app, !opt_call_stdout; auto.
Qed.

(** *** The claims about the shape of a measurement *)

(** C1. A measurement that returns has run, after the warm-up cycles,
    exactly [iterations] timed cycles; in each of them the setup callback
    (when there is one) runs before the first clock reading, the action
    between the two readings and the teardown callback after the second;
    the accumulator adds up [end - start] over these cycles only (the
    warm-up cycles read no clock), and the report, printed after every
    cycle, has [iterations] in its iters line and accumulator/[iterations]
    in its mean_ns_total line. *)
Theorem measure_timed_phase OS label su ac td iters sub s tr s' :
  measure OS label su ac td iters sub s = (tr, Ret tt s') ->
  exists warm timed over tail,
    tr = flat_map (warm_trace su ac td) warm
         ++ flat_map (timed_trace su ac td) timed
         ++ flat_map (overhead_trace su td) over
         ++ map EvStdout (LLabel label :: LIters iters ::
                          LMeanTotal (mean_of (accumulate timed 0) iters) :: tail)
    /\ List.length timed = Z.to_nat iters
    /\ Forall quiet_cycle warm /\ Forall quiet_cycle timed
    /\ Forall quiet_cycle over
    /\ stdout_of tr = LLabel label :: LIters iters ::
                      LMeanTotal (mean_of (accumulate timed 0) iters) :: tail.
Proof.
  intros H. apply measure_Ret in H.
  destruct H as (warm & timed & over & -> & _ & Hl & _ & Hw & Ht & Ho & _).
  exists warm, timed, over. eexists. split; [reflexivity|].
  repeat split; auto.
  rewrite !stdout_of_app, warm_stdout, timed_stdout, overhead_stdout by auto.
  rewrite stdout_of_map. reflexivity.
Qed.

Lemma measure_timed_phase_witness :
  exists warm timed over tail,
    fst demo_run =
      flat_map (warm_trace (Some p_setup_waitpid_ready) p_act_waitpid_ready
                           (Some p_teardown_wait_ready)) warm
      ++ flat_map (timed_trace (Some p_setup_waitpid_ready) p_act_waitpid_ready
                               (Some p_teardown_wait_ready)) timed
      ++ flat_map (overhead_trace (Some p_setup_waitpid_ready)
                                  (Some p_teardown_wait_ready)) over
      ++ map EvStdout (LLabel "demo" :: LIters 2 ::
                       LMeanTotal (mean_of (accumulate timed 0) 2) :: tail)
    /\ List.length timed = Z.to_nat 2
    /\ Forall quiet_cycle warm /\ Forall quiet_cycle timed
    /\ Forall quiet_cycle over
    /\ stdout_of (fst demo_run) =
       LLabel "demo" :: LIters 2 ::
       LMeanTotal (mean_of (accumulate timed 0) 2) :: tail.
Proof.
  apply (measure_timed_phase nice "demo" (Some p_setup_waitpid_ready)
           p_act_waitpid_ready (Some p_teardown_wait_ready) 2 true init_state
           (fst demo_run) (final_state demo_run)).
  vm_compute. reflexivity.
Defined.



(** C5. With an iteration count of 0, [measure] writes its diagnostic to
    the error stream and ends the process with status 2; nothing else
    happens: no callback runs, no clock is read, nothing is printed. *)
Theorem measure_zero_iterations OS label su ac td sub s :
  measure OS label su ac td 0 sub s = ([EvStderr ItersMsg], Halt (Exit 2)).
Proof. reflexivity. Qed.

(** C3, as the code has it.  For every iteration count [iterations] > 0
    (a [uint64_t]), the warm-up phase of a measurement that returns has
    exactly [iterations / 10 + 1] full cycles (setup, action, teardown, no
    clock reading); this is [max (iterations / 10) 1] only below 10. *)
Theorem measure_warmup_phase OS label su ac td iters sub s tr s' :
  0 < iters < 2 ^ 64 ->
  measure OS label su ac td iters sub s = (tr, Ret tt s') ->
  warmup_cycles su ac td tr (Z.to_nat (iters / 10 + 1)).
Proof.
  intros Hi H. apply measure_Ret in H.
  destruct H as (warm & timed & over & -> & Hlw & Hl & _ & Hw & Ht & _ & _).
  destruct timed as [|c timed].
  { simpl in Hl. lia. }
  exists warm, c. eexists. split; [|split; [|split]].
  - simpl. rewrite <- !app_assoc. reflexivity.
  - rewrite Hlw. f_equal. unfold u64. apply Z.mod_small.
    assert (0 <= iters / 10) by (apply Z.div_pos; lia).
    assert (iters / 10 <= iters) by (apply Z.div_le_upper_bound; lia).
    assert (iters / 10 < iters) by (apply Z.div_lt; lia). lia.
  - assumption.
  - now inversion Ht.
Qed.


Lemma measure_warmup_phase_witness :
  0 < 10 < 2 ^ 64 /\
  warmup_cycles None p_act_getppid None (fst ten_run) (Z.to_nat (10 / 10 + 1)).
Proof.
  split; [lia|].
  apply (measure_warmup_phase nice "ten" None p_act_getppid None 10 false
           init_state (fst ten_run) (final_state ten_run)).
  - lia.
  - vm_compute. reflexivity.
Defined.

(** C3, as stated, fails: with 10 iterations the warm-up phase does not
    consist of [max (10 / 10) 1 = 1] cycle (it has two). *)
Lemma measure_warmup_phase_counterexample :
  ~ warmup_cycles None p_act_getppid None (fst ten_run)
      (Z.to_nat (Z.max (10 / 10) 1)).
Proof.
  intros (warm & c & rest & Htr & Hlen & Hq & Hc).
  change (Z.to_nat (Z.max (10 / 10) 1)) with 1%nat in Hlen.
  destruct warm as [|w [|? ?]]; try discriminate Hlen.
  inversion Hq as [|? ? (_ & Hqa & _) _]; subst.
  vm_compute in Htr.
  destruct w as [ws wt0 wa wt1 wt]. simpl in *.
  injection Htr as Htr.
  destruct wa as [|e1 wa]; [discriminate Htr|].
  injection Htr as <- Htr.
  destruct wa as [|e2 wa]; [discriminate Htr|].
  injection Htr as <- Htr.
  destruct wa as [|e3 wa]; [discriminate Htr|].
  injection Htr as <- Htr.
  destruct wa as [|e4 wa]; [discriminate Htr|].
  injection Htr as <- Htr.
  inversion Hqa as [|? ? _ Hq1]. inversion Hq1 as [|? ? _ Hq2].
  inversion Hq2 as [|? ? _ Hq3]. inversion Hq3 as [|? ? Hq4 _].
  discriminate Hq4.
Qed.

(** *** fork_run.c: no error is fatal *)

Lemma stderr_of_app t1 t2 : stderr_of (t1 ++ t2) = stderr_of t1 ++ stderr_of t2.
Proof. unfold stderr_of. apply flat_map_app. Qed.

Lemma helper_ok_nil s : helper_ok s [] s.
Proof. reflexivity. Qed.

Lemma helper_ok_app s t1 s1 t2 s2 :
  helper_ok s t1 s1 -> helper_ok s1 t2 s2 -> helper_ok s (t1 ++ t2) s2.
Proof. unfold helper_ok. intros H1 H2. now rewrite stderr_of_app, H1, H2. Qed.

Lemma helper_bad_app s t1 s1 t2 h :
  helper_ok s t1 s1 -> helper_bad s1 t2 h -> helper_bad s (t1 ++ t2) h.
Proof.
  unfold helper_ok, helper_bad. intros H1 (H2 & before & after & -> & Hh).
  split.
  - rewrite stderr_of_app, H1. exact H2.
  - exists (t1 ++ before), after. split; auto. now rewrite <- app_assoc.
Qed.

Ltac child_end_leaf :=
  unfold child_end; simpl;
  first [ left; split; [reflexivity | eexists _, _, _; reflexivity]
        | right; left; split; [reflexivity | eexists _, _, _; reflexivity]
        | right; right; split; reflexivity ].

(** The child's part of a trace that is known: it starts after the
    [fork], which comes first in a turn of the loop of
    [parallelwriteoutput] and third in [writeoutput]. *)
Ltac child_part :=
  first [ exists []; eexists; split; [reflexivity|]
        | eexists [_; _]; eexists; split; [reflexivity|] ].

Ltac helper_leaf :=
  unfold helper_ok, helper_bad; simpl;
  repeat match goal with |- _ /\ _ => split end;
  first [ reflexivity | exact I
        | child_part; first [ child_end_leaf
                            | split; [child_end_leaf | discriminate] ] ].

Ltac helper_bind :=
  eapply (spec_bind _ _ helper_ok_app helper_bad_app) with (Q := fun _ _ => True).

Lemma parallel_fork_spec OS argv fd loc :
  spec helper_ok helper_bad (fun _ => True)
       (parallel_fork OS argv fd loc) (fun _ _ => True).
Proof.
  intros s _. destruct s as [tk ps er rd su sd lc rz wd tp].
  destruct loc as [i pids].
  unfold parallel_fork, parallel_child. mexec; helper_leaf.
Qed.

Lemma parallel_wait_spec OS a i :
  spec helper_ok helper_bad (fun _ => True)
       (parallel_wait OS a i) (fun _ _ => True).
Proof.
  intros s _. destruct s as [tk ps er rd su sd lc rz wd tp].
  unfold parallel_wait. mexec; helper_leaf.
Qed.

Lemma parallelwriteoutput_spec OS count argv o :
  spec helper_ok helper_bad (fun _ => True)
       (parallelwriteoutput OS count argv o) (fun _ _ => True).
Proof.
  unfold parallelwriteoutput.
  helper_bind. { intros s _. destruct s. mexec; helper_leaf. }
  intros out_fd.
  helper_bind. { intros s _. destruct s. mexec; helper_leaf. }
  intros pids.
  helper_bind.
  { apply (spec_for_loop _ _ helper_ok_nil helper_ok_app helper_bad_app
             (fun _ => True)).
    intros a. apply parallel_fork_spec. }
  intros loc.
  helper_bind. { intros s _. destruct s. mexec; helper_leaf. }
  intros _. destruct (snd loc) as [a|].
  - helper_bind.
    + apply (spec_for_loop _ _ helper_ok_nil helper_ok_app helper_bad_app
               (fun _ => True)).
      intros i. apply parallel_wait_spec.
    + intros _ s _. simpl. helper_leaf.
  - intros s _. simpl. helper_leaf.
Qed.

(** C9, as the code has it.  Neither helper is fatal on an error: the
    calling process always returns from [writeoutput] and from
    [parallelwriteoutput] and writes nothing to the error stream, whatever
    [open], [fork], [malloc] and [waitpid] answer.  A process stops inside
    them only on the child's side of a [fork], and the last thing the child
    did tells how: its image was replaced by an [exec] that succeeded; it
    called [_exit(127)] after an [exec] that failed; or, in
    [parallelwriteoutput] only, its [malloc] failed and it stored through
    the null pointer (lines 65-74 do not look at what [malloc] returned). *)
Theorem helpers_never_fatal OS :
  (forall command out_path err_path s,
     match writeoutput OS command out_path err_path s with
     | (tr, Ret _ _) => stderr_of tr = []
     | (tr, Halt h) =>
         stderr_of tr = [] /\
         exists before after,
           tr = before ++ EvFork ForkChild :: after /\
           child_end after h /\ h <> Undefined
     end) /\
  (forall count argv_base out_path s,
     match parallelwriteoutput OS count argv_base out_path s with
     | (tr, Ret _ _) => stderr_of tr = []
     | (tr, Halt h) =>
         stderr_of tr = [] /\
         exists before after,
           tr = before ++ EvFork ForkChild :: after /\ child_end after h
     end).
Proof.
  split.
  - intros c o e s. destruct s as [tk ps er rd su sd lc rz wd tp].
    unfold writeoutput. mexec; helper_leaf.
  - intros n a o s. pose proof (parallelwriteoutput_spec OS n a o s I) as H.
    destruct (parallelwriteoutput OS n a o s) as [tr [x s'|h]];
      [apply H | exact H].
Qed.

(** C9, as stated, fails: when [open] and [fork] (and [malloc]) fail, both
    helpers return to their caller as if nothing had happened. *)
Lemma helpers_fatal_counterexample :
  (exists s',
     writeoutput hostile "true" "out.txt" "err.txt" init_state =
     ([EvOpen "out.txt" (Err 13); EvOpen "err.txt" (Err 13);
       EvFork (ForkErr 11)],
      Ret tt s')) /\
  (exists s',
     parallelwriteoutput hostile 2 ["/bin/echo"] "out.txt" init_state =
     ([EvOpen "out.txt" (Err 13); EvMalloc false;
       EvFork (ForkErr 11); EvFork (ForkErr 11)],
      Ret tt s')).
Proof. split; eexists; vm_compute; reflexivity. Qed.

(** The third way a child ends does happen: the child of
    [parallelwriteoutput] whose [malloc] fails never gets to [execv]. *)
Lemma child_store_through_null :
  parallelwriteoutput child_without_memory 1 ["/bin/echo"] "out.txt"
    init_state =
  ([EvOpen "out.txt" (Ok 3); EvMalloc true; EvFork ForkChild;
    EvDup2 3 STDOUT_FILENO; EvClose 3; EvMalloc false],
   Halt Undefined).
Proof. vm_compute. reflexivity. Qed.

(** *** [measure] and [main] in parts *)

Lemma measure_phases OS label su ac td iters sub s :
  measure OS label su ac td iters sub s =
  if iters =? 0 then ([EvStderr ItersMsg], Halt (Exit 2))
  else match phases OS su ac td iters sub s with
       | (t, Ret (total_ns, total_o) s1) =>
           (t ++ map EvStdout (report label iters sub total_ns total_o), Ret tt s1)
       | (t, Halt h) => (t, Halt h)
       end.
Proof.
  unfold measure, phases.
  destruct (iters =? 0); [reflexivity|].
  cbv beta iota zeta delta [bind when ret emit].
  destruct (for_loop _ (warm_cycle OS su ac td) tt s) as [t1 [[] s1|h]]; [|reflexivity].
  destruct (for_loop _ (timed_cycle OS su ac td) 0 s1) as [t2 [tot s2|h]]; [|reflexivity].
  destruct sub.
  - destruct (for_loop _ (overhead_cycle OS su td) 0 s2) as [t3 [tot_o s3|h]].
    + unfold report, mean_of. f_equal. trace_eq.
    + reflexivity.
  - unfold report, mean_of. f_equal. trace_eq.
Qed.

Lemma dispatch_eq OS argv which :
  match which with
    | 1 => measure OS "scenario_1_empty_function_call"
             None p_act_call_empty None 200000 true ;; ret 0
    | 2 => measure OS "scenario_2_drand48"
             None p_act_drand48 None 200000 true ;; ret 0
    | 3 => measure OS "scenario_3_getppid"
             None p_act_getppid None 200000 true ;; ret 0
    | 4 => measure OS "scenario_4_fork_parent_return"
             None p_act_fork_parent_return (Some p_teardown_wait_for_last_child)
             8000 true ;; ret 0
    | 5 => measure OS "scenario_5_waitpid_already_terminated"
             (Some p_setup_waitpid_ready) p_act_waitpid_ready
             (Some p_teardown_wait_ready) 2000 true ;; ret 0
    | 6 => measure OS "scenario_6_fork_child_exit_waitpid"
             None p_act_fork_child_exit_wait None 4000 false ;; ret 0
    | 7 => measure OS "scenario_7_system_true"
             None p_act_system_true None 2500 false ;; ret 0
    | 8 => measure OS "scenario_8_mkdir_rmdir"
             (Some p_setup_mkdir_rmdir) p_act_mkdir_rmdir None 20000 true ;; ret 0
    | _ => usage (prog_name argv) ;; ret 2
    end =
  match scenario_table which with
  | Some sc => run_scenario OS sc ;; ret 0
  | None => usage (prog_name argv) ;; ret 2
  end.
Proof.
  destruct which as [|p|p];
    try (destruct p as [p|p|];
         try (destruct p as [p|p|];
              try (destruct p as [p|p|]; try (destruct p as [p|p|]))));
    cbv beta iota delta [scenario_table run_scenario sc_label sc_setup
                         sc_action sc_teardown sc_iters sc_subtract];
    reflexivity.
Qed.

Lemma main_eq OS argv s :
  main OS argv s =
  if negb (Z.of_nat (List.length argv) =? 2)
  then ([EvStderr (UsageMsg (prog_name argv))], Ret 2 s)
  else (prelude OS ;;
        match scenario_table (atoi (nth 1%nat argv "")) with
        | Some sc => run_scenario OS sc ;; ret 0
        | None => usage (prog_name argv) ;; ret 2
        end) s.
Proof.
  unfold main. destruct (negb _); [reflexivity|].
  rewrite dispatch_eq.
  generalize (match scenario_table (atoi (nth 1%nat argv "")) with
              | Some sc => run_scenario OS sc ;; ret 0
              | None => usage (prog_name argv) ;; ret 2
              end).
  intros k. unfold prelude.
  destruct s as [tk ps er rd su sd lc rz wd tp].
  mexec; try reflexivity.
  all: destruct (k _) as [t r]; rewrite ?app_nil_r; reflexivity.
Qed.

(** *** The harness, for any property the logic carries *)

Section Harness.

Variable ok : state -> trace -> state -> Prop.
Variable bad : state -> trace -> halt -> Prop.
Hypothesis ok_nil : forall s, ok s [] s.
Hypothesis ok_app : forall s t1 s1 t2 s2,
  ok s t1 s1 -> ok s1 t2 s2 -> ok s (t1 ++ t2) s2.
Hypothesis bad_app : forall s t1 s1 t2 h,
  ok s t1 s1 -> bad s1 t2 h -> bad s (t1 ++ t2) h.
Hypothesis ok_barrier : forall s, ok s [EvBarrier] s.

Variable OS : os.
Variables (su : option action_fn) (ac : action_fn) (td : option action_fn).

(** [Inv] holds between cycles, [Mid] after the setup, [Fin] after the
    action. *)
Variables Inv Mid Fin : state -> Prop.
Hypothesis setup_spec : spec ok bad Inv (call_opt OS su) (fun _ => Mid).
Hypothesis action_spec : spec ok bad Mid (call OS ac) (fun _ => Fin).
Hypothesis teardown_spec : spec ok bad Fin (call_opt OS td) (fun _ => Inv).
Hypothesis teardown_spec0 : spec ok bad Mid (call_opt OS td) (fun _ => Inv).
Hypothesis clock_mid : spec ok bad Mid (nsecs_now OS) (fun _ => Mid).
Hypothesis clock_fin : spec ok bad Fin (nsecs_now OS) (fun _ => Fin).

Lemma barrier_spec (P : state -> Prop) :
  spec ok bad P COMPILER_BARRIER (fun _ => P).
Proof. intros s Hs. simpl. auto. Qed.

Ltac step := eapply (spec_bind ok bad ok_app bad_app).

Lemma warm_cycle_spec u :
  spec ok bad Inv (warm_cycle OS su ac td u) (fun _ => Inv).
Proof.
  unfold warm_cycle.
  step; [apply setup_spec|]. intros ?.
  step; [apply barrier_spec|]. intros ?.
  step; [apply action_spec|]. intros ?.
  step; [apply barrier_spec|]. intros ?.
  apply teardown_spec.
Qed.

Lemma timed_cycle_spec total :
  spec ok bad Inv (timed_cycle OS su ac td total) (fun _ => Inv).
Proof.
  unfold timed_cycle.
  step; [apply setup_spec|]. intros ?.
  step; [apply barrier_spec|]. intros ?.
  step; [apply clock_mid|]. intros t0.
  step; [apply action_spec|]. intros ?.
  step; [apply clock_fin|]. intros t1.
  step; [apply barrier_spec|]. intros ?.
  step; [apply teardown_spec|]. intros ?.
  apply (spec_ret ok bad ok_nil). auto.
Qed.

Lemma overhead_cycle_spec total :
  spec ok bad Inv (overhead_cycle OS su td total) (fun _ => Inv).
Proof.
  unfold overhead_cycle.
  step; [apply setup_spec|]. intros ?.
  step; [apply barrier_spec|]. intros ?.
  step; [apply clock_mid|]. intros t0.
  step; [apply barrier_spec|]. intros ?.
  step; [apply clock_mid|]. intros t1.
  step; [apply teardown_spec0|]. intros ?.
  apply (spec_ret ok bad ok_nil). auto.
Qed.

Lemma phases_spec iters sub :
  spec ok bad Inv (phases OS su ac td iters sub) (fun _ => Inv).
Proof.
  unfold phases.
  step.
  { apply (spec_for_loop ok bad ok_nil ok_app bad_app Inv).
    apply warm_cycle_spec. }
  intros ?. step.
  { apply (spec_for_loop ok bad ok_nil ok_app bad_app Inv).
    apply timed_cycle_spec. }
  intros total. step.
  { destruct sub.
    - apply (spec_for_loop ok bad ok_nil ok_app bad_app Inv).
      apply overhead_cycle_spec.
    - apply (spec_ret ok bad ok_nil). auto. }
  intros total_o. apply (spec_ret ok bad ok_nil). auto.
Qed.

(** With a property that the report and the diagnostic do not break. *)
Hypothesis ok_stdout : forall s ls, ok s (map EvStdout ls) s.
Hypothesis bad_iters : forall s, bad s [EvStderr ItersMsg] (Exit 2).

Lemma measure_spec label iters sub :
  spec ok bad Inv (measure OS label su ac td iters sub) (fun _ => Inv).
Proof.
  intros s Hs. rewrite measure_phases.
  destruct (iters =? 0); [apply bad_iters|].
  pose proof (phases_spec iters sub s Hs) as H.
  destruct (phases OS su ac td iters sub s) as [t [[tot tot_o] s1|h]]; auto.
  destruct H as [Ho Hi]. split; auto.
  eapply ok_app; eauto.
Qed.

End Harness.

(** *** C7: children *)

Lemma peak_ge_length tr ps : (List.length ps <= peak tr ps)%nat.
Proof. destruct tr; simpl; lia. Qed.

Lemma peak_app t1 : forall t2 ps,
  peak (t1 ++ t2) ps = Nat.max (peak t1 ps) (peak t2 (children_after t1 ps)).
Proof.
  induction t1 as [|e t1 IH]; intros t2 ps.
  - simpl. pose proof (peak_ge_length t2 ps). lia.
  - change (peak ((e :: t1) ++ t2) ps)
      with (Nat.max (List.length ps) (peak (t1 ++ t2) (step_children ps e))).
    rewrite IH. simpl. lia.
Qed.

Lemma children_after_app t1 t2 ps :
  children_after (t1 ++ t2) ps = children_after t2 (children_after t1 ps).
Proof. unfold children_after. apply fold_left_app. Qed.

Lemma peak_prefix tr ps n :
  (peak tr ps <= n)%nat ->
  forall pre suf, tr = pre ++ suf ->
    (List.length (children_after pre ps) <= n)%nat.
Proof.
  intros H pre suf ->. rewrite peak_app in H.
  pose proof (peak_ge_length suf (children_after pre ps)). lia.
Qed.

Lemma kids_ok_nil s : kids_ok s [] s.
Proof. split; simpl; auto. lia. Qed.

Lemma kids_ok_app s t1 s1 t2 s2 :
  kids_ok s t1 s1 -> kids_ok s1 t2 s2 -> kids_ok s (t1 ++ t2) s2.
Proof.
  intros [H1 E1] [H2 E2]. split.
  - intros Hl. rewrite peak_app. specialize (H1 Hl).
    rewrite <- E1.
    pose proof (peak_ge_length t1 (procs s)).
    pose proof (peak_prefix t1 (procs s) 1 H1 t1 [] (eq_sym (app_nil_r _))) as Hc.
    rewrite <- E1 in Hc. specialize (H2 Hc). lia.
  - now rewrite children_after_app, <- E1.
Qed.

Lemma kids_bad_app s t1 s1 t2 h :
  kids_ok s t1 s1 -> kids_bad s1 t2 h -> kids_bad s (t1 ++ t2) h.
Proof.
  intros [H1 E1] [H2 Hh]. split; auto.
  intros Hl. rewrite peak_app. specialize (H1 Hl).
  rewrite <- E1.
  pose proof (peak_prefix t1 (procs s) 1 H1 t1 [] (eq_sym (app_nil_r _))) as Hc.
  rewrite <- E1 in Hc. specialize (H2 Hc). lia.
Qed.
Lemma scenario_table_cases which sc :
  scenario_table which = Some sc ->
  which = 1 \/ which = 2 \/ which = 3 \/ which = 4 \/
  which = 5 \/ which = 6 \/ which = 7 \/ which = 8.
Proof.
  destruct which as [|p|p];
    try (destruct p as [p|p|];
         try (destruct p as [p|p|];
              try (destruct p as [p|p|]; try (destruct p as [p|p|]))));
    cbv beta iota delta [scenario_table]; intros H;
    first [discriminate H | tauto].
Qed.

Ltac kids_pre Hs :=
  unfold no_child, child_in_last_child, child_in_ready_zombie in Hs;
  cbn [procs last_child ready_zombie] in Hs;
  try (let p := fresh "p" in let Hp := fresh in let Hq := fresh in
       destruct Hs as (p & Hp & Hq));
  subst.

Ltac kids_post :=
  unfold kids_ok, kids_bad, no_child, child_in_last_child,
    child_in_ready_zombie;
  cbn [procs last_child ready_zombie];
  pred;
  repeat match goal with
         | |- _ /\ _ => split
         | |- _ -> _ => intro
         | |- exists _, _ => eexists
         end;
  first [reflexivity | lia | discriminate | assumption | idtac].

Ltac kids_leaf :=
  let s := fresh "s" in let Hs := fresh "Hs" in
  intros s Hs; destruct s as [tk ps er rd su sd lc rz wd tp];
  kids_pre Hs; pexec; kids_post.

Lemma kids_ok_barrier s : kids_ok s [EvBarrier] s.
Proof. split; simpl; auto. lia. Qed.

Lemma children_after_stdout ls ps : children_after (map EvStdout ls) ps = ps.
Proof. unfold children_after. induction ls; simpl; auto. Qed.

Lemma peak_stdout ls : forall ps, peak (map EvStdout ls) ps = List.length ps.
Proof.
  induction ls as [|l ls IH]; intros ps; simpl.
  - lia.
  - rewrite IH. lia.
Qed.

Lemma kids_ok_stdout s ls : kids_ok s (map EvStdout ls) s.
Proof.
  split.
  - rewrite peak_stdout. auto.
  - now rewrite children_after_stdout.
Qed.

Lemma kids_bad_iters s : kids_bad s [EvStderr ItersMsg] (Exit 2).
Proof. split; [simpl; lia | discriminate]. Qed.

Lemma kids_clock OS (P : state -> Prop) :
  (forall s n, P s -> P (set_tick n s)) ->
  spec kids_ok kids_bad P (nsecs_now OS) (fun _ => P).
Proof.
  intros HP s Hs. pose proof (HP s (S (tick s)) Hs) as Hs'.
  destruct s as [tk ps er rd su sd lc rz wd tp].
  unfold set_tick in Hs'.
  cbn [tick procs errno rand48 sink_u64 sink_double last_child ready_zombie
       workdir TRUE_PATH] in Hs'.
  mexec; unfold kids_ok, kids_bad; simpl; repeat split; auto;
    try lia; try discriminate.
Qed.

Ltac kids_stable :=
  let s := fresh "s" in let n := fresh "n" in let H := fresh "H" in
  intros s n H; destruct s;
  unfold no_child, child_in_last_child, child_in_ready_zombie in *;
  exact H.

Ltac kids_measure OS Mid Fin :=
  apply (measure_spec kids_ok kids_bad kids_ok_nil kids_ok_app kids_bad_app
           kids_ok_barrier OS _ _ _ no_child Mid Fin);
  try apply kids_ok_stdout; try apply kids_bad_iters;
  try (apply kids_clock; kids_stable); kids_leaf.

(** Every scenario of the table starts and ends its cycles without a child
    and never has two. *)
Lemma kids_scenario OS which sc :
  scenario_table which = Some sc ->
  spec kids_ok kids_bad no_child (run_scenario OS sc) (fun _ => no_child).
Proof.
  intros H. pose proof (scenario_table_cases _ _ H) as Hc.
  unfold run_scenario.
  destruct Hc as [->|[->|[->|[->|[->|[->|[->| ->]]]]]]];
    cbv beta iota delta [scenario_table] in H; inversion H; subst; clear H;
    cbn [sc_label sc_setup sc_action sc_teardown sc_iters sc_subtract].
  - kids_measure OS no_child no_child.
  - kids_measure OS no_child no_child.
  - kids_measure OS no_child no_child.
  - kids_measure OS no_child child_in_last_child.
  - kids_measure OS child_in_ready_zombie no_child.
  - kids_measure OS no_child no_child.
  - kids_measure OS no_child no_child.
  - kids_measure OS no_child no_child.
Qed.
Lemma kids_main OS argv :
  spec kids_ok kids_bad no_child (main OS argv) (fun _ => no_child).
Proof.
  intros s Hs. rewrite main_eq.
  destruct (negb _).
  { split; [split; simpl; auto; lia | assumption]. }
  revert s Hs.
  change (spec kids_ok kids_bad no_child
            (prelude OS ;;
             match scenario_table (atoi (nth 1%nat argv "")) with
             | Some sc => run_scenario OS sc ;; ret 0
             | None => usage (prog_name argv) ;; ret 2
             end) (fun _ => no_child)).
  eapply (spec_bind _ _ kids_ok_app kids_bad_app) with (Q := fun _ => no_child).
  { unfold prelude. kids_leaf. }
  intros _.
  destruct (scenario_table _) as [sc|] eqn:E.
  - eapply (spec_bind _ _ kids_ok_app kids_bad_app).
    + apply (kids_scenario OS _ _ E).
    + intros ?. apply (spec_ret _ _ kids_ok_nil). auto.
  - unfold usage. kids_leaf.
Qed.

(** C7. Whatever the operating system answers and whatever the arguments,
    the process never has more than one unreaped child: after every prefix
    of the events of a run the table of forked and not yet reaped children
    has at most one entry (this covers the scenarios that fork, 4, 5 and 6,
    in their warm-up, timed and overhead cycles).  When the run completes
    (exit status 0) the table is empty: every child forked by an action or a
    setup has been reaped. *)
Theorem children_bounded OS argv :
  let (tr, h) := run OS argv in
  (forall pre suf, tr = pre ++ suf ->
     (List.length (children_after pre []) <= 1)%nat)
  /\ (h = Exit 0 -> children_after tr [] = []).
Proof.
  unfold run.
  pose proof (kids_main OS argv init_state eq_refl) as H.
  destruct (main OS argv init_state) as [tr [a s'|h]].
  - destruct H as [[Hp Hc] Hn]. simpl in Hp, Hc. split.
    + apply peak_prefix. apply Hp. simpl. lia.
    + intros _. rewrite <- Hc. exact Hn.
  - destruct H as [Hp Hh]. simpl in Hp. split.
    + apply peak_prefix. apply Hp. simpl. lia.
    + intros ->. now destruct Hh.
Qed.

(** *** C6: failures of the monitored primitives *)

Lemma fatal_in_app t1 : forall cur t2,
  fatal_in cur (t1 ++ t2) = fatal_in cur t1 || fatal_in (cur_after cur t1) t2.
Proof.
  induction t1 as [|e t1 IH]; intros cur t2; simpl; auto.
  destruct e; simpl; rewrite IH; auto using orb_assoc.
Qed.

Lemma fatal_ok_nil s : fatal_ok s [] s.
Proof. split; auto. Qed.

Lemma fatal_ok_app s t1 s1 t2 s2 :
  fatal_ok s t1 s1 -> fatal_ok s1 t2 s2 -> fatal_ok s (t1 ++ t2) s2.
Proof.
  intros [O1 F1] [O2 F2]. split.
  - now rewrite stdout_of_app, O1, O2.
  - intros cur. now rewrite fatal_in_app, F1, F2.
Qed.

Lemma outcome_ok_app t1 t2 h :
  stdout_of t1 = [] -> (forall cur, fatal_in cur t1 = false) ->
  outcome_ok t2 h -> outcome_ok (t1 ++ t2) h.
Proof.
  intros O1 F1 H.
  assert (Hn : (forall cur, fatal_in cur t2 = false) ->
               forall cur, fatal_in cur (t1 ++ t2) = false).
  { intros F2 cur. now rewrite fatal_in_app, F1, F2. }
  assert (Hs : fatal_stop t2 -> fatal_stop (t1 ++ t2)).
  { intros (O2 & (pre & e & -> & He & Fp) & Ft). split; [|split].
    - now rewrite stdout_of_app, O1, O2.
    - exists (t1 ++ pre), e. rewrite app_assoc. repeat split; auto.
      intros cur. now rewrite fatal_in_app, F1, Fp.
    - intros cur. now rewrite fatal_in_app, F1, Ft. }
  destruct h as [st| | |]; simpl in *; auto.
  destruct st as [|p|p]; auto. destruct p; auto.
Qed.

Lemma fatal_bad_app s t1 s1 t2 h :
  fatal_ok s t1 s1 -> fatal_bad s1 t2 h -> fatal_bad s (t1 ++ t2) h.
Proof.
  intros [O1 F1] [O2 H]. split.
  - now rewrite stdout_of_app, O1, O2.
  - now apply outcome_ok_app.
Qed.

Lemma fatal_ok_barrier s : fatal_ok s [EvBarrier] s.
Proof. split; auto. Qed.

Ltac fatal_split tr :=
  lazymatch tr with
  | [?a; ?b] => exists [], a
  | [?x1; ?a; ?b] => exists [x1], a
  | [?x1; ?x2; ?a; ?b] => exists [x1; x2], a
  | [?x1; ?x2; ?x3; ?a; ?b] => exists [x1; x2; x3], a
  | [?x1; ?x2; ?x3; ?x4; ?a; ?b] => exists [x1; x2; x3; x4], a
  end.

Ltac fatal_post :=
  unfold fatal_ok, fatal_bad, outcome_ok, fatal_stop, any_state,
    pid_in_ready_zombie;
  cbn [ready_zombie];
  repeat match goal with
         | |- _ /\ _ => split
         | |- forall _, _ => intro
         | |- exists _ _, ?tr = _ /\ _ => fatal_split tr
         | |- exists _, _ => eexists
         end;
  first [ reflexivity | exact I
        | match goal with
          | cur : option action_fn |- _ => destruct cur as [[]|]; reflexivity
          end
        | idtac ].

Ltac fatal_leaf :=
  let s := fresh "s" in let Hs := fresh "Hs" in
  intros s Hs; destruct s as [tk ps er rd su sd lc rz wd tp];
  unfold any_state, pid_in_ready_zombie in Hs; cbn [ready_zombie] in Hs;
  lazymatch type of Hs with
  | ex _ => let p := fresh "p" in destruct Hs as [p Hs]; subst
  | _ => idtac
  end;
  mexec; fatal_post.

Lemma fatal_clock OS (P : state -> Prop) :
  (forall s n, P s -> P (set_tick n s)) ->
  spec fatal_ok fatal_bad P (nsecs_now OS) (fun _ => P).
Proof.
  intros HP s Hs. pose proof (HP s (S (tick s)) Hs) as Hs'.
  destruct s as [tk ps er rd su sd lc rz wd tp].
  unfold set_tick in Hs'.
  cbn [tick procs errno rand48 sink_u64 sink_double last_child ready_zombie
       workdir TRUE_PATH] in Hs'.
  mexec; fatal_post; assumption.
Qed.

Ltac fatal_stable :=
  let s := fresh "s" in let n := fresh "n" in let H := fresh "H" in
  intros s n H; destruct s; unfold any_state, pid_in_ready_zombie in *;
  exact H.

Ltac fatal_phases OS Mid :=
  apply (phases_spec fatal_ok fatal_bad fatal_ok_nil fatal_ok_app fatal_bad_app
           fatal_ok_barrier OS _ _ _ any_state Mid any_state);
  try (apply fatal_clock; fatal_stable); fatal_leaf.

Lemma fatal_scenario_phases OS which sc :
  scenario_table which = Some sc ->
  spec fatal_ok fatal_bad any_state
       (phases OS (sc_setup sc) (sc_action sc) (sc_teardown sc)
               (sc_iters sc) (sc_subtract sc))
       (fun _ => any_state).
Proof.
  intros H. pose proof (scenario_table_cases _ _ H) as Hc.
  destruct Hc as [->|[->|[->|[->|[->|[->|[->| ->]]]]]]];
    cbv beta iota delta [scenario_table] in H; inversion H; subst; clear H;
    cbn [sc_label sc_setup sc_action sc_teardown sc_iters sc_subtract].
  - fatal_phases OS any_state.
  - fatal_phases OS any_state.
  - fatal_phases OS any_state.
  - fatal_phases OS any_state.
  - fatal_phases OS pid_in_ready_zombie.
  - fatal_phases OS any_state.
  - fatal_phases OS any_state.
  - fatal_phases OS any_state.
Qed.
Lemma fatal_in_stdout ls : forall cur, fatal_in cur (map EvStdout ls) = false.
Proof. induction ls; simpl; auto. Qed.

Lemma fatal_run_scenario OS which sc s :
  scenario_table which = Some sc ->
  match run_scenario OS sc s with
  | (tr, Ret _ _) => forall cur, fatal_in cur tr = false
  | (tr, Halt h) => stdout_of tr = [] /\ outcome_ok tr h
  end.
Proof.
  intros H. unfold run_scenario. rewrite measure_phases.
  destruct (sc_iters sc =? 0).
  { split; [reflexivity|]. simpl. reflexivity. }
  pose proof (fatal_scenario_phases OS which sc H s I) as Hp.
  destruct (phases _ _ _ _ _ _ s) as [t [[tot tot_o] s1|h]]; auto.
  destruct Hp as [[_ F] _]. intros cur.
  now rewrite fatal_in_app, F, fatal_in_stdout.
Qed.

Lemma fatal_prelude OS :
  spec fatal_ok fatal_bad any_state (prelude OS) (fun _ => any_state).
Proof. unfold prelude. fatal_leaf. Qed.

Lemma fatal_main OS argv s :
  match main OS argv s with
  | (tr, Ret st _) => (forall cur, fatal_in cur tr = false) /\ st <> 1
  | (tr, Halt h) => outcome_ok tr h
  end.
Proof.
  rewrite main_eq. destruct (negb _).
  { split; [reflexivity | discriminate]. }
  unfold bind at 1.
  pose proof (fatal_prelude OS s I) as Hp.
  destruct (prelude OS s) as [tp [[] s1|h]]; [|apply Hp].
  destruct Hp as [[Op Fp] _].
  destruct (scenario_table _) as [sc|] eqn:E.
  - unfold bind. pose proof (fatal_run_scenario OS _ sc s1 E) as Hm.
    destruct (run_scenario OS sc s1) as [tm [[] s2|h]].
    + simpl. rewrite app_nil_r. split; [|discriminate].
      intros cur. now rewrite fatal_in_app, Fp, Hm.
    + destruct Hm as [Om Hm]. now apply outcome_ok_app.
  - simpl. split; [|discriminate].
    intros cur. rewrite fatal_in_app, Fp. reflexivity.
Qed.

(** C6, as the code has it.  In every run, a failure of a monitored
    primitive (clock read, fork, waitpid, mkdtemp, rmdir, system) other than
    the [ECHILD] that the [waitpid] of [teardown_wait_ready] tolerates ends
    the process with status 1; and a process that ends with status 1 has
    printed nothing of a report, and the last things it did are the failing
    call and the [perror] that names the call and the error: no retry, no
    further call. *)
Theorem monitored_failure_is_fatal OS argv :
  let (tr, h) := run OS argv in
  (fatal_in None tr = true -> h = Exit 1)
  /\ (h = Exit 1 ->
      stdout_of tr = []
      /\ exists pre e,
           tr = pre ++ [e; EvStderr (failure_report e)]
           /\ monitored_failure e = true
           /\ fatal_in None pre = false).
Proof.
  unfold run. pose proof (fatal_main OS argv init_state) as H.
  destruct (main OS argv init_state) as [tr [st s'|h]].
  - destruct H as [F Hst]. split.
    + intros E. now rewrite F in E.
    + intros E. inversion E. contradiction.
  - split.
    + intros E. destruct h as [st| | |]; simpl in H; try (now rewrite H in E).
      destruct st as [|p|p]; try (now rewrite H in E).
      destruct p; try (now rewrite H in E). reflexivity.
    + intros ->. simpl in H. destruct H as (O & (pre & e & Htr & He & Fp) & _).
      split; auto. exists pre, e. auto.
Qed.

(** C6, as stated, fails: in the fifth scenario the [waitpid] of every
    teardown that follows an action fails (with [ECHILD]), and the process
    goes on, prints its report and ends with status 0. *)
Lemma monitored_failure_counterexample :
  let (tr, h) := run nice ["gettimings"; "5"] in
  existsb (fun e => monitored_failure e && is_echild e) tr = true
  /\ h = Exit 0
  /\ stdout_of tr <> [].
Proof. vm_compute. repeat split; discriminate. Qed.

(** *** C10: the child-pid registers *)

Ltac regs_post :=
  unfold registers_ok in *;
  cbn [last_child ready_zombie] in *;
  first [exact I | lia | idtac].

Lemma call_registers OS f s :
  registers_ok s ->
  match call OS f s with
  | (_, Ret _ s') => registers_ok s'
  | (_, Halt _) => True
  end.
Proof.
  intros Hs. destruct s as [tk ps er rd su sd lc rz wd tp].
  destruct f; mexec; regs_post.
Qed.

Lemma prelude_registers OS s :
  registers_ok s ->
  match prelude OS s with
  | (_, Ret _ s') => registers_ok s'
  | (_, Halt _) => True
  end.
Proof.
  intros Hs. destruct s as [tk ps er rd su sd lc rz wd tp].
  unfold prelude. mexec; regs_post.
Qed.

Lemma clock_registers OS s :
  registers_ok s ->
  match nsecs_now OS s with
  | (_, Ret _ s') => registers_ok s'
  | (_, Halt _) => True
  end.
Proof.
  intros Hs. destruct s as [tk ps er rd su sd lc rz wd tp].
  mexec; regs_post.
Qed.

Lemma reachable_registers OS s : reachable OS s -> registers_ok s.
Proof.
  induction 1 as [|s tr s' _ IH E|f s tr s' _ IH E|s tr t s' _ IH E].
  - unfold registers_ok. simpl. lia.
  - pose proof (prelude_registers OS s IH) as H. now rewrite E in H.
  - pose proof (call_registers OS f s IH) as H. now rewrite E in H.
  - pose proof (clock_registers OS s IH) as H. now rewrite E in H.
Qed.

(** C10, as the code has it.  In every state the program can be in, a
    teardown that returns leaves its register at -1: [last_child] after
    [teardown_wait_for_last_child], [ready_zombie] after
    [teardown_wait_ready].  [act_waitpid_ready] leaves [ready_zombie] as it
    was, so in a cycle of the fifth scenario in which the action runs
    (warm-up and timed cycles; the cycle starts without a child, and setup
    and action return) the teardown calls [waitpid] once more on the pid
    that the action has just reaped; that call fails with [ECHILD], and the
    teardown returns all the same, whatever the system answers: it is the
    guard [errno != ECHILD] that lets it.  In a cycle without the action
    (the overhead cycles) the [waitpid] of the teardown is the call that
    reaps the child; there the teardown returns unless its [waitpid] is
    interrupted, which ends the process with status 1. *)
Theorem child_registers_cleared OS :
  (forall s tr s',
     reachable OS s ->
     teardown_wait_for_last_child OS s = (tr, Ret tt s') ->
     last_child s' = -1)
  /\ (forall s tr s',
        reachable OS s ->
        teardown_wait_ready OS s = (tr, Ret tt s') ->
        ready_zombie s' = -1)
  /\ (forall s tr s',
        act_waitpid_ready OS s = (tr, Ret tt s') ->
        ready_zombie s' = ready_zombie s)
  /\ (forall s t1 s1 t2 s2,
        procs s = [] ->
        setup_waitpid_ready OS s = (t1, Ret tt s1) ->
        act_waitpid_ready OS s1 = (t2, Ret tt s2) ->
        exists p s3,
          ready_zombie s1 = Z.pos p
          /\ t2 = [EvWaitpid (Z.pos p) (Ok (Z.pos p))]
          /\ ready_zombie s2 = Z.pos p
          /\ teardown_wait_ready OS s2
             = ([EvWaitpid (Z.pos p) (Err ECHILD)], Ret tt s3)
          /\ ready_zombie s3 = -1 /\ procs s3 = [])
  /\ (forall s t1 s1,
        procs s = [] ->
        setup_waitpid_ready OS s = (t1, Ret tt s1) ->
        exists p,
          ready_zombie s1 = Z.pos p
          /\ match teardown_wait_ready OS s1 with
             | (t3, Ret _ s3) =>
                 t3 = [EvWaitpid (Z.pos p) (Ok (Z.pos p))]
                 /\ ready_zombie s3 = -1 /\ procs s3 = []
             | (t3, Halt h) =>
                 t3 = [EvWaitpid (Z.pos p) (Err EINTR);
                       EvStderr (Perror "waitpid" EINTR)]
                 /\ h = Exit 1
             end).
Proof.
  split; [|split; [|split; [|split]]].
  - intros s tr s' Hr. apply reachable_registers in Hr.
    destruct s as [tk ps er rd su sd lc rz wd tp].
    revert tr s'. mexec; intros tr s' Hrun; inversion Hrun; subst;
      regs_post.
  - intros s tr s' Hr. apply reachable_registers in Hr.
    destruct s as [tk ps er rd su sd lc rz wd tp].
    revert tr s'. mexec; intros tr s' Hrun; inversion Hrun; subst;
      regs_post.
  - intros s. destruct s as [tk ps er rd su sd lc rz wd tp].
    mexec; intros tr s' Hrun; inversion Hrun; subst; reflexivity.
  - intros s t1 s1 t2 s2 Hp H1 H2.
    destruct s as [tk ps er rd su sd lc rz wd tp]. simpl in Hp. subst ps.
    revert H1. pexec; intros H1; inversion H1; subst; clear H1.
    all: revert H2; pexec; intros H2; inversion H2; subst; clear H2.
    all: eexists; eexists;
      (split; [reflexivity|]); (split; [reflexivity|]);
      (split; [reflexivity|]); (split; [pexec; reflexivity|]);
      split; reflexivity.
  - intros s t1 s1 Hp H1.
    destruct s as [tk ps er rd su sd lc rz wd tp]. simpl in Hp. subst ps.
    revert H1. pexec; intros H1; inversion H1; subst; clear H1.
    all: eexists; (split; [reflexivity|]); pexec; repeat split; reflexivity.
Qed.

(** C10, as stated, fails in its last part: the teardown of the fifth
    scenario does not always wait for a pid that was reaped already.  In the
    overhead cycles of a run of that scenario its [waitpid] succeeds: it
    reaps the child of the setup, and the tolerance of [ECHILD] plays no
    part. *)
Lemma child_registers_counterexample :
  let (tr, h) := run nice ["gettimings"; "5"] in
  teardown_reaps tr = true /\ h = Exit 0.
Proof. vm_compute. split; reflexivity. Qed.

(** *** C8: the fifth scenario *)

(** C8, as the code has it.  In the fifth scenario the setup forks, is
    fatal when [fork] fails, sleeps 2 ms in the parent and then stores the
    child's pid in [ready_zombie], whatever [nanosleep] returned; the action
    waits for exactly that pid and returns only when [waitpid] gave it back,
    any failure ending the process with status 1; the teardown waits for it
    once more and returns when the child was reaped or when [waitpid] failed
    with [ECHILD], any other failure ending the process with status 1.
    Among the monitored primitives this [ECHILD] is the only failure a run
    survives: a run that does not end with status 1 holds no other. *)
Theorem waitpid_ready_scenario OS :
  (forall s,
     match setup_waitpid_ready OS s with
     | (tr, Ret _ s') =>
         exists p r,
           tr = [EvFork (ForkParent p); EvNanosleep 2000000 r]
           /\ ready_zombie s' = Z.pos p
     | (tr, Halt h) =>
         (exists e, tr = [EvFork (ForkErr e); EvStderr (Perror "fork" e)]
                    /\ h = Exit 1)
         \/ (tr = [EvFork ForkChild] /\ h = ChildExit 0)
     end)
  /\ (forall s p,
        ready_zombie s = Z.pos p ->
        match act_waitpid_ready OS s with
        | (tr, Ret _ s') => tr = [EvWaitpid (Z.pos p) (Ok (Z.pos p))]
        | (tr, Halt h) =>
            exists e, tr = [EvWaitpid (Z.pos p) (Err e);
                            EvStderr (Perror "waitpid" e)]
                      /\ h = Exit 1
        end)
  /\ (forall s p,
        ready_zombie s = Z.pos p ->
        match teardown_wait_ready OS s with
        | (tr, Ret _ s') =>
            (tr = [EvWaitpid (Z.pos p) (Ok (Z.pos p))]
             \/ tr = [EvWaitpid (Z.pos p) (Err ECHILD)])
            /\ ready_zombie s' = -1
        | (tr, Halt h) =>
            exists e, tr = [EvWaitpid (Z.pos p) (Err e);
                            EvStderr (Perror "waitpid" e)]
                      /\ e <> ECHILD /\ h = Exit 1
        end)
  /\ (forall argv,
        let (tr, h) := run OS argv in
        h <> Exit 1 -> fatal_in None tr = false).
Proof.
  split; [|split; [|split]].
  - intros s. destruct s as [tk ps er rd su sd lc rz wd tp].
    mexec; eauto 8.
  - intros s p Hp. destruct s as [tk ps er rd su sd lc rz wd tp].
    simpl in Hp. subst rz. mexec; eauto.
  - intros s p Hp. destruct s as [tk ps er rd su sd lc rz wd tp].
    simpl in Hp. subst rz. mexec; eauto.
    eexists. repeat split; discriminate.
  - intros argv. unfold run.
    pose proof (fatal_main OS argv init_state) as H.
    destruct (main OS argv init_state) as [tr [st s'|h]].
    + intros _. apply H.
    + intros Hh. destruct h as [st| | |]; simpl in H; auto.
      destruct st as [|q|q]; auto. destruct q; auto. now destruct Hh.
Qed.

(** C8, as stated, fails: the [ECHILD] of the teardown is not the only
    error the program survives.  Here every [nanosleep] of the setup fails
    and the first [access] of [main] fails, and the fifth scenario runs to
    its end with status 0. *)
Lemma waitpid_ready_counterexample :
  let (tr, h) := run sleepless ["gettimings"; "5"] in
  existsb (fun e => ignored_failure e && negb (is_echild e)) tr = true
  /\ hd_error tr = Some (EvAccess "/bin/true" (Err 2))
  /\ h = Exit 0.
Proof. vm_compute. repeat split. Qed.

(** *** C4: the command line *)

Lemma prelude_returns OS s :
  exists tp s1, prelude OS s = (tp, Ret tt s1) /\ forallb is_access tp = true.
Proof.
  destruct s as [tk ps er rd su sd lc rz wd tp].
  unfold prelude. mexec; eauto.
Qed.

Lemma scenario_table_range which :
  if (1 <=? which) && (which <=? 8)
  then exists sc, scenario_table which = Some sc
  else scenario_table which = None.
Proof.
  destruct which as [|p|p];
    try (destruct p as [p|p|];
         try (destruct p as [p|p|];
              try (destruct p as [p|p|]; try (destruct p as [p|p|]))));
    cbv beta iota delta [scenario_table Z.leb Z.compare Pos.compare
                         Pos.compare_cont andb];
    eauto.
Qed.

Lemma to_int32_clamp n :
  - 2 ^ 31 <= n < 2 ^ 31 -> to_int32 (clamp_long n) = n.
Proof.
  intros H. unfold clamp_long, to_int32.
  rewrite Z.min_r, Z.max_r by lia.
  rewrite Z.mod_small by lia. lia.
Qed.

Lemma numeral_digits s n : numeral s = Some n -> n = digits s 0.
Proof.
  unfold numeral. destruct s; [discriminate|].
  destruct (all_digits _); congruence.
Qed.

(** On an argument that is an integer in the range of [int], [atoi] gives
    that integer. *)
Lemma atoi_denotes arg n :
  denotes_integer arg = Some n -> - 2 ^ 31 <= n < 2 ^ 31 -> atoi arg = n.
Proof.
  intros H Hn. destruct arg as [|c r]; [discriminate|].
  unfold atoi, strtol10.
  destruct c as [[] [] [] [] [] [] [] []];
    cbn [denotes_integer] in H;
    try (cbn in H; discriminate H);
    cbn [skip_space isspace nat_of_ascii Nat.eqb Nat.leb orb andb];
    try (apply numeral_digits in H; subst n; now apply to_int32_clamp).
  destruct (numeral r) as [m|] eqn:E; [|discriminate].
  cbn in H. injection H as <-. apply numeral_digits in E. subst m.
  change (nat_of_ascii _) with 45%nat. cbn.
  now apply to_int32_clamp.
Qed.

(** C4, as the code has it.  The scenario selector is [atoi] of the single
    argument: optional white space and sign, then the longest run of
    decimal digits, whatever follows.  When there is not exactly one
    argument, or its [atoi] value is outside [1, 8], the process writes the
    usage message to the error stream, ends with status 2 and prints
    nothing; it does nothing else but the [access] probes of [main].  When
    the value is in [1, 8], the process runs [measure] once, with the
    parameters of that scenario, after the probes, and ends with status 0
    when [measure] returns.  On an argument that is an integer of [1, 8]
    the value is that integer. *)
Theorem main_dispatch OS argv :
  let which := atoi (nth 1%nat argv "") in
  (let (tr, h) := run OS argv in
   if (Z.of_nat (List.length argv) =? 2) && ((1 <=? which) && (which <=? 8))
   then
     exists sc tp s1,
       scenario_table which = Some sc
       /\ prelude OS init_state = (tp, Ret tt s1)
       /\ forallb is_access tp = true
       /\ (tr, h) =
           (let (tm, r) := run_scenario OS sc s1 in
            (tp ++ tm, match r with Ret _ _ => Exit 0 | Halt h' => h' end))
   else
     h = Exit 2
     /\ stdout_of tr = []
     /\ stderr_of tr = [UsageMsg (prog_name argv)]
     /\ forallb (fun e => is_access e || is_stderr e) tr = true)
  /\ (forall arg n,
        denotes_integer arg = Some n -> 1 <= n <= 8 -> atoi arg = n).
Proof.
  cbv zeta. split.
  2:{ intros arg n H Hn. apply atoi_denotes; auto. lia. }
  unfold run. rewrite main_eq.
  destruct (Z.of_nat (List.length argv) =? 2); cbn [negb andb].
  2:{ simpl. repeat split. }
  unfold bind at 1.
  destruct (prelude_returns OS init_state) as (tp & s1 & Hp & Ha).
  rewrite Hp.
  pose proof (scenario_table_range (atoi (nth 1%nat argv ""))) as Hr.
  destruct ((1 <=? atoi (nth 1%nat argv "")) && (atoi (nth 1%nat argv "") <=? 8)).
  - destruct Hr as [sc Hsc]. rewrite Hsc. unfold bind.
    destruct (run_scenario OS sc s1) as [tm [[] s2|h']] eqn:Er; simpl;
      exists sc, tp, s1; rewrite Er; repeat split; auto.
    now rewrite app_nil_r.
  - rewrite Hr. cbn.
    assert (Hso : forall t, forallb is_access t = true ->
                  stdout_of t = [] /\ stderr_of t = []).
    { induction t as [|e t IH]; simpl; auto.
      destruct e; simpl; try discriminate. auto. }
    destruct (Hso tp Ha) as [Ho He].
    rewrite stdout_of_app, stderr_of_app, Ho, He. repeat split.
    rewrite forallb_app. simpl. rewrite andb_true_r.
    clear -Ha. induction tp as [|e t IH]; simpl in *; auto.
    apply andb_prop in Ha as [H1 H2]. rewrite H1. simpl. auto.
Qed.

(** C4, as stated, fails: ["7x"] is not an integer, and the process runs
    the seventh scenario, prints its report and ends with status 0. *)
Lemma main_dispatch_counterexample :
  integer_in_1_8 "7x" = false
  /\ let (tr, h) := run nice ["gettimings"; "7x"] in
     h = Exit 0
     /\ hd_error (stdout_of tr) = Some (LLabel "scenario_7_system_true").
Proof. vm_compute. repeat split. Qed.

(** *** Clock readings and calls of a measurement *)

Lemma clock_reads_app t1 t2 :
  clock_reads (t1 ++ t2) = clock_reads t1 ++ clock_reads t2.
Proof. unfold clock_reads. apply flat_map_app. Qed.

Lemma quiet_clock_reads tr : quiet tr -> clock_reads tr = [].
Proof.
  induction 1 as [|e tr He _ IH]; simpl; auto.
  destruct e; simpl in *; try discriminate; auto.
Qed.

Lemma opt_call_clock_reads f b : quiet b -> clock_reads (opt_call_trace f b) = [].
Proof. destruct f; simpl; auto using quiet_clock_reads. Qed.

Lemma stdout_clock_reads ls : clock_reads (map EvStdout ls) = [].
Proof. induction ls; simpl; auto. Qed.

Lemma warm_clock_reads su ac td cs :
  Forall quiet_cycle cs -> clock_reads (flat_map (warm_trace su ac td) cs) = [].
Proof.
  induction 1 as [|c cs (Hs & Ha & Ht) _ IH]; simpl; auto.
  rewrite clock_reads_app, IH. unfold warm_trace.
  rewrite !clock_reads_app, !opt_call_clock_reads, (quiet_clock_reads _ Ha); auto.
Qed.

Lemma timed_clock_reads su ac td cs :
  Forall quiet_cycle cs ->
  clock_reads (flat_map (timed_trace su ac td) cs) = cycle_reads cs.
Proof.
  induction 1 as [|c cs (Hs & Ha & Ht) _ IH]; simpl; auto.
  rewrite clock_reads_app, IH. unfold timed_trace.
  rewrite !clock_reads_app, !opt_call_clock_reads, (quiet_clock_reads _ Ha); auto.
Qed.

Lemma overhead_clock_reads su td cs :
  Forall quiet_cycle cs ->
  clock_reads (flat_map (overhead_trace su td) cs) = cycle_reads cs.
Proof.
  induction 1 as [|c cs (Hs & Ha & Ht) _ IH]; simpl; auto.
  rewrite clock_reads_app, IH. unfold overhead_trace.
  rewrite !clock_reads_app, !opt_call_clock_reads; auto.
Qed.

Lemma cycle_reads_length cs : List.length (cycle_reads cs) = (2 * List.length cs)%nat.
Proof. induction cs; simpl; lia. Qed.

Lemma ns_of_real ts : ns_of ts = u64 (real_ns ts).
Proof.
  unfold ns_of, real_ns, u64.
  rewrite Z.add_mod, Z.mul_mod_idemp_l, Z.mod_mod, <- Z.add_mod by lia.
  reflexivity.
Qed.

Lemma u64_idem x : u64 (u64 x) = u64 x.
Proof. unfold u64. apply Z.mod_mod. lia. Qed.

Lemma u64_add_l x y : u64 (u64 x + y) = u64 (x + y).
Proof. unfold u64. apply Z.add_mod_idemp_l. lia. Qed.

Lemma u64_add_r x y : u64 (x + u64 y) = u64 (x + y).
Proof. unfold u64. apply Z.add_mod_idemp_r. lia. Qed.

Lemma u64_sub x y : u64 (u64 x - u64 y) = u64 (x - y).
Proof. unfold u64. symmetry. apply Zminus_mod. Qed.

(** Whatever wraps around on the way, the accumulator is the sum of the
    true differences modulo 2^64. *)
Lemma accumulate_sum cs : forall total,
  u64 (accumulate cs total) = u64 (total + pair_sum (cycle_reads cs)).
Proof.
  unfold accumulate.
  induction cs as [|c cs IH]; intros total; simpl.
  - now rewrite Z.add_0_r.
  - rewrite IH, !ns_of_real, u64_sub, u64_add_l.
    replace (total + u64 (real_ns (c_end c) - real_ns (c_start c))
             + pair_sum (cycle_reads cs))
      with (total + pair_sum (cycle_reads cs)
            + u64 (real_ns (c_end c) - real_ns (c_start c))) by lia.
    rewrite u64_add_r. f_equal. fold (cycle_reads cs). lia.
Qed.

Lemma accumulate_range cs : forall total,
  0 <= total < 2 ^ 64 -> 0 <= accumulate cs total < 2 ^ 64.
Proof.
  unfold accumulate.
  induction cs as [|c cs IH]; intros total H; simpl; auto.
  apply IH. unfold u64. apply Z.mod_pos_bound. lia.
Qed.

Lemma accumulate_0 cs : accumulate cs 0 = u64 (pair_sum (cycle_reads cs)).
Proof.
  pose proof (accumulate_sum cs 0) as H. rewrite Z.add_0_l in H.
  rewrite <- H. unfold u64.
  symmetry. apply Z.mod_small. apply accumulate_range. lia.
Qed.

(** A monotone sequence of readings: the differences add up to no more
    than what lies between the first and the last. *)
Lemma last_default (x : timespec) rs : forall a b,
  last (x :: rs) a = last (x :: rs) b.
Proof.
  revert x. induction rs as [|y rs IH]; intros x a b; auto.
  change (last (y :: rs) a = last (y :: rs) b). apply IH.
Qed.

Lemma last_cons2 (t0 t1 : timespec) rs lo :
  last (t0 :: t1 :: rs) lo = last rs t1.
Proof.
  change (last (t1 :: rs) lo = last rs t1).
  rewrite (last_default t1 rs lo t1). destruct rs; reflexivity.
Qed.

Lemma pair_sum_monotone_aux n : forall rs lo,
  (List.length rs <= n)%nat ->
  monotone (lo :: rs) ->
  0 <= pair_sum rs <= real_ns (last rs lo) - real_ns lo.
Proof.
  induction n as [|n IH]; intros rs lo Hn Hm.
  - destruct rs; [simpl; lia | simpl in Hn; lia].
  - destruct rs as [|t0 [|t1 rs]].
    + simpl. lia.
    + simpl in *. lia.
    + destruct Hm as (H0 & H1 & Hm).
      assert (Hl : (List.length rs <= n)%nat) by (simpl in Hn; lia).
      specialize (IH rs t1 Hl Hm).
      change (pair_sum (t0 :: t1 :: rs))
        with (real_ns t1 - real_ns t0 + pair_sum rs).
      rewrite last_cons2. lia.
Qed.

Lemma pair_sum_monotone rs lo :
  monotone (lo :: rs) ->
  0 <= pair_sum rs <= real_ns (last rs lo) - real_ns lo.
Proof. apply (pair_sum_monotone_aux (List.length rs)). lia. Qed.

Lemma measure_clock_reads_shape OS label su ac td iters sub s tr a s' :
  measure OS label su ac td iters sub s = (tr, Ret a s') ->
  exists timed over,
    clock_reads tr = cycle_reads timed ++ cycle_reads over
    /\ List.length timed = Z.to_nat iters
    /\ List.length over = (if sub then Z.to_nat iters else 0%nat)
    /\ stdout_of tr =
       report label iters sub (accumulate timed 0) (accumulate over 0).
Proof.
  intros H. apply measure_Ret in H.
  destruct H as (warm & timed & over & -> & _ & Hl & Hlo & Hw & Ht & Ho & _).
  exists timed, over. repeat split; auto.
  - rewrite !clock_reads_app, warm_clock_reads, timed_clock_reads,
      overhead_clock_reads, stdout_clock_reads by auto.
    now rewrite app_nil_r.
  - rewrite !stdout_of_app, warm_stdout, timed_stdout, overhead_stdout by auto.
    rewrite stdout_of_map. reflexivity.
Qed.

(** X1. A measurement that returns has read the clock exactly twice per
    timed cycle and twice per overhead cycle, every time with success:
    [2 * iterations] readings without overhead subtraction,
    [4 * iterations] with it, and none in the warm-up. *)
Theorem measure_reads_clock OS label su ac td iters sub s tr s' :
  measure OS label su ac td iters sub s = (tr, Ret tt s') ->
  List.length (clock_reads tr)
  = ((if sub then 4 else 2) * Z.to_nat iters)%nat
  /\ forallb (fun e => match e with EvClock (Err _) => false | _ => true end) tr
     = true.
Proof.
  intros H. split.
  - apply measure_clock_reads_shape in H.
    destruct H as (timed & over & -> & Hl & Hlo & _).
    rewrite length_app, !cycle_reads_length, Hl, Hlo. destruct sub; lia.
  - apply measure_Ret in H.
    destruct H as (warm & timed & over & -> & _ & _ & _ & Hw & Ht & Ho & _).
    assert (Hq : forall b, quiet b ->
      forallb (fun e => match e with EvClock (Err _) => false | _ => true end) b
      = true).
    { induction 1 as [|e b He _ IH]; simpl; auto.
      destruct e; simpl in *; try discriminate; auto. }
    assert (Hc : forall f b, quiet b ->
      forallb (fun e => match e with EvClock (Err _) => false | _ => true end)
              (opt_call_trace f b) = true).
    { intros [g|] b Hb; simpl; auto. }
    assert (Hr : forall ls,
      forallb (fun e => match e with EvClock (Err _) => false | _ => true end)
              (map EvStdout ls) = true).
    { induction ls; simpl; auto. }
    assert (H1 : forallb
      (fun e => match e with EvClock (Err _) => false | _ => true end)
      (flat_map (warm_trace su ac td) warm) = true).
    { induction Hw as [|c cs (Hs & Ha & Hd) _ IH]; simpl; auto.
      rewrite forallb_app, IH, andb_true_r. unfold warm_trace.
      rewrite !forallb_app, !Hc, (Hq _ Ha); auto. }
    assert (H2 : forallb
      (fun e => match e with EvClock (Err _) => false | _ => true end)
      (flat_map (timed_trace su ac td) timed) = true).
    { induction Ht as [|c cs (Hs & Ha & Hd) _ IH]; simpl; auto.
      rewrite forallb_app, IH, andb_true_r. unfold timed_trace.
      rewrite !forallb_app, !Hc, (Hq _ Ha); auto. }
    assert (H3 : forallb
      (fun e => match e with EvClock (Err _) => false | _ => true end)
      (flat_map (overhead_trace su td) over) = true).
    { induction Ho as [|c cs (Hs & Ha & Hd) _ IH]; simpl; auto.
      rewrite forallb_app, IH, andb_true_r. unfold overhead_trace.
      rewrite !forallb_app, !Hc; auto. }
    rewrite !forallb_app, H1, H2, H3, Hr. reflexivity.
Qed.

Lemma measure_reads_clock_witness :
  List.length (clock_reads (fst demo_run)) = (4 * Z.to_nat 2)%nat
  /\ forallb (fun e => match e with EvClock (Err _) => false | _ => true end)
             (fst demo_run) = true.
Proof.
  apply (measure_reads_clock nice "demo" (Some p_setup_waitpid_ready)
           p_act_waitpid_ready (Some p_teardown_wait_ready) 2 true init_state
           (fst demo_run) (final_state demo_run)).
  vm_compute. reflexivity.
Defined.

Lemma firstn_cycle_reads timed over :
  firstn (2 * List.length timed) (cycle_reads timed ++ cycle_reads over)
  = cycle_reads timed.
Proof.
  rewrite <- cycle_reads_length. rewrite firstn_app, Nat.sub_diag, firstn_all.
  simpl. apply app_nil_r.
Qed.

Lemma skipn_cycle_reads timed over :
  skipn (2 * List.length timed) (cycle_reads timed ++ cycle_reads over)
  = cycle_reads over.
Proof.
  rewrite <- cycle_reads_length. rewrite skipn_app, Nat.sub_diag, skipn_all.
  reflexivity.
Qed.

(** X2. The number printed as mean_ns_total is computed from the sum,
    modulo 2^64, of the true differences between the two readings of each
    timed cycle (the first [2 * iterations] readings of the run, two by
    two): the wrap-arounds of the conversion to nanoseconds, of the
    subtraction and of the accumulation cancel out.  With overhead
    subtraction the same holds for mean_ns_overhead and the remaining
    readings. *)
Theorem mean_from_true_differences OS label su ac td iters sub s tr s' :
  measure OS label su ac td iters sub s = (tr, Ret tt s') ->
  let n := (2 * Z.to_nat iters)%nat in
  nth_error (stdout_of tr) 2
  = Some (LMeanTotal
            (mean_of (u64 (pair_sum (firstn n (clock_reads tr)))) iters))
  /\ (sub = true ->
      nth_error (stdout_of tr) 3
      = Some (LMeanOverhead
                (mean_of (u64 (pair_sum (skipn n (clock_reads tr)))) iters))).
Proof.
  intros H. apply measure_clock_reads_shape in H.
  destruct H as (timed & over & -> & Hl & Hlo & ->). cbv zeta.
  rewrite <- Hl, firstn_cycle_reads, skipn_cycle_reads, <- !accumulate_0.
  split; [reflexivity|]. intros ->. reflexivity.
Qed.

Lemma mean_from_true_differences_witness :
  let n := (2 * Z.to_nat 2)%nat in
  nth_error (stdout_of (fst demo_run)) 2
  = Some (LMeanTotal
            (mean_of (u64 (pair_sum (firstn n (clock_reads (fst demo_run))))) 2))
  /\ (true = true ->
      nth_error (stdout_of (fst demo_run)) 3
      = Some (LMeanOverhead
                (mean_of (u64 (pair_sum (skipn n (clock_reads (fst demo_run))))) 2))).
Proof.
  apply (mean_from_true_differences nice "demo" (Some p_setup_waitpid_ready)
           p_act_waitpid_ready (Some p_teardown_wait_ready) 2 true init_state
           (fst demo_run) (final_state demo_run)).
  vm_compute. reflexivity.
Defined.

Lemma mean_from_true_differences_aux OS label su ac td iters sub s tr a s' :
  measure OS label su ac td iters sub s = (tr, Ret a s') ->
  exists timed over,
    clock_reads tr = cycle_reads timed ++ cycle_reads over
    /\ List.length timed = Z.to_nat iters
    /\ nth_error (stdout_of tr) 2
       = Some (LMeanTotal (mean_of (accumulate timed 0) iters)).
Proof.
  intros H. apply measure_clock_reads_shape in H.
  destruct H as (timed & over & Hr & Hl & _ & ->).
  exists timed, over. repeat split; auto.
Qed.

Lemma monotone_tail x l : monotone (x :: l) -> monotone l.
Proof. destruct l; simpl; tauto. Qed.

Lemma monotone_le_last l : forall x,
  monotone (x :: l) -> real_ns x <= real_ns (last l x).
Proof.
  induction l as [|y l IH]; intros x H.
  - simpl. lia.
  - destruct H as [Hxy H]. specialize (IH y H).
    change (last (y :: l) x) with (last (y :: l) x).
    rewrite (last_default y l x y).
    replace (last (y :: l) y) with (last l y) by (destruct l; reflexivity).
    lia.
Qed.

Lemma monotone_app_l l1 : forall l2, monotone (l1 ++ l2) -> monotone l1.
Proof.
  induction l1 as [|x l1 IH]; intros l2 H; simpl; auto.
  destruct l1 as [|y l1]; simpl; auto.
  destruct H as [Hxy H]. split; auto. apply (IH l2). exact H.
Qed.

Lemma monotone_last_app l1 : forall x l2 d,
  monotone ((x :: l1) ++ l2) ->
  real_ns (last (x :: l1) d) <= real_ns (last ((x :: l1) ++ l2) d).
Proof.
  induction l1 as [|y l1 IH]; intros x l2 d H.
  - simpl app in *. rewrite (last_default x l2 d x).
    replace (last (x :: l2) x) with (last l2 x) by (destruct l2; reflexivity).
    simpl. now apply monotone_le_last.
  - change (real_ns (last (y :: l1) d)
            <= real_ns (last ((y :: l1) ++ l2) d)).
    apply IH. simpl in H. tauto.
Qed.

(** X3. With a clock that never goes back and that advances by less than
    2^64 nanoseconds between the first and the last reading of the run,
    nothing wraps: mean_ns_total is computed from the exact sum of the
    elapsed times of the timed cycles, and that sum is not negative. *)
Theorem mean_exact_with_monotone_clock OS label su ac td iters sub s tr s' :
  measure OS label su ac td iters sub s = (tr, Ret tt s') ->
  monotone (clock_reads tr) ->
  real_ns (last (clock_reads tr) (0, 0))
  - real_ns (hd (0, 0) (clock_reads tr)) < 2 ^ 64 ->
  let total := pair_sum (firstn (2 * Z.to_nat iters) (clock_reads tr)) in
  0 <= total
  /\ nth_error (stdout_of tr) 2 = Some (LMeanTotal (mean_of total iters)).
Proof.
  intros H Hm Hspan. cbv zeta.
  pose proof (mean_from_true_differences_aux OS label su ac td iters sub s tr tt s' H)
    as (timed & over & Hr & Hl & Hout).
  rewrite Hr in *. rewrite <- Hl, firstn_cycle_reads.
  assert (Hb : 0 <= pair_sum (cycle_reads timed) < 2 ^ 64).
  { destruct timed as [|c timed]; [simpl; lia|].
    change (cycle_reads (c :: timed))
      with (c_start c :: (c_end c :: cycle_reads timed)) in *.
    set (l1 := c_end c :: cycle_reads timed) in *.
    assert (Hm1 : monotone (c_start c :: l1)).
    { apply (monotone_app_l _ (cycle_reads over)). exact Hm. }
    pose proof (pair_sum_monotone (c_start c :: l1) (c_start c)) as Hp.
    assert (Hm2 : monotone (c_start c :: c_start c :: l1)).
    { split; [lia | exact Hm1]. }
    specialize (Hp Hm2).
    pose proof (monotone_last_app l1 (c_start c) (cycle_reads over) (0, 0) Hm)
      as Hlast.
    rewrite (last_default (c_start c) l1 (c_start c) (0, 0)) in Hp.
    simpl hd in Hspan. lia. }
  split; [lia|].
  rewrite Hout, accumulate_0. unfold u64. rewrite Z.mod_small by lia.
  reflexivity.
Qed.

Lemma mean_exact_with_monotone_clock_witness :
  let total := pair_sum (firstn (2 * Z.to_nat 2) (clock_reads (fst demo_run))) in
  0 <= total
  /\ nth_error (stdout_of (fst demo_run)) 2
     = Some (LMeanTotal (mean_of total 2)).
Proof.
  apply (mean_exact_with_monotone_clock nice "demo"
           (Some p_setup_waitpid_ready) p_act_waitpid_ready
           (Some p_teardown_wait_ready) 2 true init_state
           (fst demo_run) (final_state demo_run)).
  - vm_compute. reflexivity.
  - vm_compute. repeat split; discriminate.
  - vm_compute. reflexivity.
Defined.

Lemma count_calls_app f t1 t2 :
  count_calls f (t1 ++ t2) = (count_calls f t1 + count_calls f t2)%nat.
Proof. unfold count_calls. now rewrite filter_app, length_app. Qed.

Lemma quiet_count_calls f tr : quiet tr -> count_calls f tr = 0%nat.
Proof.
  unfold count_calls. induction 1 as [|e tr He _ IH]; simpl; auto.
  destruct e; simpl in *; try discriminate; auto.
Qed.

Lemma opt_call_count_calls f g b :
  quiet b -> g <> Some f -> count_calls f (opt_call_trace g b) = 0%nat.
Proof.
  intros Hb Hg. destruct g as [g|]; simpl; auto.
  unfold count_calls. simpl.
  destruct (action_fn_eq_dec f g) as [->|_]; [now destruct Hg|].
  now apply quiet_count_calls.
Qed.

Lemma count_calls_self f : count_calls f [EvCall f] = 1%nat.
Proof.
  unfold count_calls. simpl.
  destruct (action_fn_eq_dec f f); [reflexivity | contradiction].
Qed.

Lemma warm_count_calls su ac td cs :
  su <> Some ac -> td <> Some ac -> Forall quiet_cycle cs ->
  count_calls ac (flat_map (warm_trace su ac td) cs) = List.length cs.
Proof.
  intros Hsu Htd. induction 1 as [|c cs (Hs & Ha & Hd) _ IH]; simpl; auto.
  rewrite count_calls_app, IH. unfold warm_trace.
  rewrite !count_calls_app, !opt_call_count_calls, (quiet_count_calls _ _ Ha)
    by auto.
  change [EvBarrier; EvCall ac] with ([EvBarrier] ++ [EvCall ac]).
  rewrite count_calls_app, count_calls_self. reflexivity.
Qed.

Lemma timed_count_calls su ac td cs :
  su <> Some ac -> td <> Some ac -> Forall quiet_cycle cs ->
  count_calls ac (flat_map (timed_trace su ac td) cs) = List.length cs.
Proof.
  intros Hsu Htd. induction 1 as [|c cs (Hs & Ha & Hd) _ IH]; simpl; auto.
  rewrite count_calls_app, IH. unfold timed_trace.
  rewrite !count_calls_app, !opt_call_count_calls, (quiet_count_calls _ _ Ha)
    by auto.
  change [EvBarrier; EvClock (Ok (c_start c)); EvCall ac]
    with ([EvBarrier; EvClock (Ok (c_start c))] ++ [EvCall ac]).
  rewrite count_calls_app, count_calls_self. reflexivity.
Qed.

Lemma overhead_count_calls su ac td cs :
  su <> Some ac -> td <> Some ac -> Forall quiet_cycle cs ->
  count_calls ac (flat_map (overhead_trace su td) cs) = 0%nat.
Proof.
  intros Hsu Htd. induction 1 as [|c cs (Hs & Ha & Hd) _ IH]; simpl; auto.
  rewrite count_calls_app, IH. unfold overhead_trace.
  rewrite !count_calls_app, !opt_call_count_calls by auto. reflexivity.
Qed.

Lemma stdout_count_calls f ls : count_calls f (map EvStdout ls) = 0%nat.
Proof. induction ls; simpl; auto. Qed.

(** X4. When the action is neither the setup nor the teardown (as in all
    eight scenarios), a measurement that returns has called the action once
    per warm-up cycle and once per timed cycle, [iterations / 10 + 1 +
    iterations] times in all, and never in the overhead cycles. *)
Theorem measure_calls_action OS label su ac td iters sub s tr s' :
  0 < iters < 2 ^ 64 ->
  su <> Some ac -> td <> Some ac ->
  measure OS label su ac td iters sub s = (tr, Ret tt s') ->
  count_calls ac tr = Z.to_nat (iters / 10 + 1 + iters).
Proof.
  intros Hi Hsu Htd H. apply measure_Ret in H.
  destruct H as (warm & timed & over & -> & Hlw & Hl & _ & Hw & Ht & Ho & _).
  assert (Hu : u64 (iters / 10 + 1) = iters / 10 + 1).
  { unfold u64. apply Z.mod_small.
    assert (0 <= iters / 10) by (apply Z.div_pos; lia).
    assert (iters / 10 < iters) by (apply Z.div_lt; lia). lia. }
  rewrite !count_calls_app, warm_count_calls, timed_count_calls,
    overhead_count_calls, stdout_count_calls, Hlw, Hl, Hu by auto.
  assert (0 <= iters / 10) by (apply Z.div_pos; lia). lia.
Qed.

Lemma measure_calls_action_witness :
  0 < 10 < 2 ^ 64 /\
  count_calls p_act_getppid (fst ten_run) = Z.to_nat (10 / 10 + 1 + 10).
Proof.
  split; [lia|].
  apply (measure_calls_action nice "ten" None p_act_getppid None 10 false
           init_state (fst ten_run) (final_state ten_run)).
  - lia.
  - discriminate.
  - discriminate.
  - vm_compute. reflexivity.
Defined.

(** *** Exit status, report and diagnostics of a run *)

Lemma say_ok_nil s : say_ok s [] s.
Proof. split; reflexivity. Qed.

Lemma say_ok_app s t1 s1 t2 s2 :
  say_ok s t1 s1 -> say_ok s1 t2 s2 -> say_ok s (t1 ++ t2) s2.
Proof.
  intros [O1 E1] [O2 E2]. split.
  - now rewrite stdout_of_app, O1, O2.
  - now rewrite stderr_of_app, E1, E2.
Qed.

Lemma say_bad_app s t1 s1 t2 h :
  say_ok s t1 s1 -> say_bad s1 t2 h -> say_bad s (t1 ++ t2) h.
Proof.
  intros [O1 E1] [O2 H]. split.
  - now rewrite stdout_of_app, O1, O2.
  - rewrite stderr_of_app, E1. exact H.
Qed.

Lemma say_ok_barrier s : say_ok s [EvBarrier] s.
Proof. split; reflexivity. Qed.

Ltac say_post :=
  unfold say_ok, say_bad, any_state; simpl;
  repeat match goal with |- _ /\ _ => split end;
  first [ reflexivity | exact I
        | left; split; [reflexivity | eexists; eexists; reflexivity]
        | right; split; reflexivity
        | idtac ].

Ltac say_leaf :=
  let s := fresh "s" in let Hs := fresh "Hs" in
  intros s Hs; destruct s as [tk ps er rd su sd lc rz wd tp];
  mexec; say_post.

Lemma say_clock OS :
  spec say_ok say_bad any_state (nsecs_now OS) (fun _ => any_state).
Proof. say_leaf. Qed.

Lemma say_call_opt OS f :
  spec say_ok say_bad any_state (call_opt OS f) (fun _ => any_state).
Proof. destruct f as [[]|]; say_leaf. Qed.

Lemma say_call OS f :
  spec say_ok say_bad any_state (call OS f) (fun _ => any_state).
Proof. destruct f; say_leaf. Qed.

Lemma say_phases OS su ac td iters sub :
  spec say_ok say_bad any_state (phases OS su ac td iters sub)
       (fun _ => any_state).
Proof.
  apply (phases_spec say_ok say_bad say_ok_nil say_ok_app say_bad_app
           say_ok_barrier OS su ac td any_state any_state any_state);
    auto using say_clock, say_call_opt, say_call.
Qed.

Lemma say_prelude OS :
  spec say_ok say_bad any_state (prelude OS) (fun _ => any_state).
Proof. unfold prelude. say_leaf. Qed.

Lemma scenario_iters_nonzero which sc :
  scenario_table which = Some sc -> (sc_iters sc =? 0) = false.
Proof.
  intros H. pose proof (scenario_table_cases _ _ H) as Hc.
  destruct Hc as [->|[->|[->|[->|[->|[->|[->| ->]]]]]]];
    cbv beta iota delta [scenario_table] in H; inversion H; reflexivity.
Qed.

(** X5. How a run ends and what it has written by then.  The process ends
    with status 0, 1 or 2, or with [_exit(0)] on the child's side of a
    [fork].  Status 0: the standard output is exactly one report block, with
    the label and the iteration count of the selected scenario, and the
    error stream is empty.  Status 1: one [perror] line and no output.
    Status 2: the usage line and no output.  A forked child writes
    nothing. *)
Theorem run_outcomes OS argv :
  let (tr, h) := run OS argv in
  match h with
  | Exit st =>
      (st = 0 /\ stderr_of tr = []
       /\ exists sc total_ns total_o,
            scenario_table (atoi (nth 1%nat argv "")) = Some sc
            /\ stdout_of tr = report (sc_label sc) (sc_iters sc)
                                     (sc_subtract sc) total_ns total_o)
      \/ (st = 1 /\ stdout_of tr = []
          /\ exists tag e, stderr_of tr = [Perror tag e])
      \/ (st = 2 /\ stdout_of tr = []
          /\ stderr_of tr = [UsageMsg (prog_name argv)])
  | ChildExit st => st = 0 /\ stdout_of tr = [] /\ stderr_of tr = []
  | _ => False
  end.
Proof.
  unfold run. rewrite main_eq. destruct (negb _).
  { right. right. repeat split. }
  unfold bind at 1.
  pose proof (say_prelude OS init_state I) as Hp.
  destruct (prelude OS init_state) as [tp [[] s1|h]].
  2:{ destruct Hp as [Op [[-> (tag & e & He)]|[-> He]]]; eauto 10. }
  destruct Hp as [[Op Ep] _].
  destruct (scenario_table _) as [sc|] eqn:E.
  - unfold bind, run_scenario. rewrite measure_phases.
    rewrite (scenario_iters_nonzero _ _ E).
    pose proof (say_phases OS (sc_setup sc) (sc_action sc) (sc_teardown sc)
                  (sc_iters sc) (sc_subtract sc) s1 I) as Hm.
    destruct (phases _ _ _ _ _ _ s1) as [tm [[tot tot_o] s2|h]].
    + destruct Hm as [[Om Em] _]. cbv beta iota zeta delta [ret]. left.
      rewrite app_nil_r.
      rewrite !stdout_of_app, !stderr_of_app, Op, Ep, Om, Em, stdout_of_map.
      repeat split.
      * clear. generalize (report (sc_label sc) (sc_iters sc) (sc_subtract sc)
                             tot tot_o).
        intros ls. induction ls; simpl; auto.
      * exists sc, tot, tot_o. auto.
    + destruct Hm as [Om Hm].
      cbv beta iota zeta.
      rewrite stdout_of_app, stderr_of_app, Op, Ep, Om. simpl.
      destruct Hm as [[-> (tag & e & He)]|[-> He]]; eauto 10.
  - simpl. right. right.
    rewrite stdout_of_app, stderr_of_app, Op, Ep. repeat split.
Qed.

(** *** The command of the subshell scenario *)

Lemma runs_only_app p t1 t2 :
  runs_only p t1 -> runs_only p t2 -> runs_only p (t1 ++ t2).
Proof. unfold runs_only. intros. apply Forall_app. auto. Qed.

Lemma path_ok_nil p s : path_ok p s [] s.
Proof. constructor. Qed.

Lemma path_ok_app p s t1 s1 t2 s2 :
  path_ok p s t1 s1 -> path_ok p s1 t2 s2 -> path_ok p s (t1 ++ t2) s2.
Proof. apply runs_only_app. Qed.

Lemma path_bad_app p s t1 s1 t2 h :
  path_ok p s t1 s1 -> path_bad p s1 t2 h -> path_bad p s (t1 ++ t2) h.
Proof. apply runs_only_app. Qed.

Lemma path_ok_barrier p s : path_ok p s [EvBarrier] s.
Proof. repeat constructor. Qed.

Ltac path_post :=
  unfold path_ok, path_bad, runs_only, has_path; cbn [TRUE_PATH];
  repeat match goal with |- _ /\ _ => split end;
  first [reflexivity | repeat constructor | idtac].

Ltac path_leaf :=
  let s := fresh "s" in let Hs := fresh "Hs" in
  intros s Hs; destruct s as [tk ps er rd su sd lc rz wd tp];
  unfold has_path in Hs; cbn [TRUE_PATH] in Hs; subst;
  mexec; path_post.

Lemma path_clock OS p :
  spec (path_ok p) (path_bad p) (has_path p) (nsecs_now OS)
       (fun _ => has_path p).
Proof. path_leaf. Qed.

Lemma path_call OS p f :
  spec (path_ok p) (path_bad p) (has_path p) (call OS f)
       (fun _ => has_path p).
Proof. destruct f; path_leaf. Qed.

Lemma path_call_opt OS p f :
  spec (path_ok p) (path_bad p) (has_path p) (call_opt OS f)
       (fun _ => has_path p).
Proof. destruct f as [f|]; [apply path_call | path_leaf]. Qed.

Lemma path_measure OS p label su ac td iters sub :
  spec (path_ok p) (path_bad p) (has_path p)
       (measure OS label su ac td iters sub) (fun _ => has_path p).
Proof.
  apply (measure_spec (path_ok p) (path_bad p) (path_ok_nil p) (path_ok_app p)
           (path_bad_app p) (path_ok_barrier p) OS su ac td
           (has_path p) (has_path p) (has_path p));
    auto using path_clock, path_call_opt, path_call.
  - intros s ls. unfold path_ok, runs_only. induction ls; simpl; auto.
  - intros s. repeat constructor.
Qed.

(** X6. The command of the subshell scenario is resolved once, by the two
    probes at the start of [main], and never changes: every [system] of a
    run is given the path that the probes selected, [/usr/bin/true] when
    [/bin/true] cannot be executed and [/usr/bin/true] can, [/bin/true] in
    every other case (also when neither can be executed). *)
Theorem system_runs_resolved_path OS argv :
  let (tr, h) := run OS argv in
  runs_only (resolved_path tr) tr.
Proof.
  unfold run. rewrite main_eq. destruct (negb _).
  { repeat constructor. }
  set (k := match scenario_table _ with
            | Some sc => run_scenario OS sc ;; ret 0
            | None => usage (prog_name argv) ;; ret 2
            end).
  assert (Hk : forall p, spec (path_ok p) (path_bad p) (has_path p) k
                              (fun _ => has_path p)).
  { intros p. unfold k. destruct (scenario_table _) as [sc|].
    - eapply (spec_bind _ _ (path_ok_app p) (path_bad_app p)).
      + apply path_measure.
      + intros ?. apply (spec_ret _ _ (path_ok_nil p)). auto.
    - unfold usage. path_leaf. }
  clearbody k. unfold bind, prelude, init_state.
  mred;
    repeat (first
      [ match goal with
        | |- context [k ?s] =>
            let H := fresh in
            pose proof (Hk (TRUE_PATH s) s eq_refl) as H;
            cbn [TRUE_PATH] in H;
            destruct (k s) as [? [? ?|?]];
            [destruct H as [H _]|]
        end
      | mcase ]; mred);
    unfold resolved_path;
    repeat (apply Forall_cons; [exact I|]); assumption.
Qed.

(** *** Temporary directories *)

Lemma dirs_after_app t1 t2 ds :
  dirs_after (t1 ++ t2) ds = dirs_after t2 (dirs_after t1 ds).
Proof. unfold dirs_after. apply fold_left_app. Qed.

Lemma dir_ok_nil s : dir_ok s [] s.
Proof. split; [reflexivity | constructor]. Qed.

Lemma dir_ok_app s t1 s1 t2 s2 :
  dir_ok s t1 s1 -> dir_ok s1 t2 s2 -> dir_ok s (t1 ++ t2) s2.
Proof.
  intros [B1 T1] [B2 T2]. split.
  - intros ds. now rewrite dirs_after_app, B1, B2.
  - apply Forall_app. auto.
Qed.

Lemma dir_bad_app s t1 s1 t2 h :
  dir_ok s t1 s1 -> dir_bad s1 t2 h -> dir_bad s (t1 ++ t2) h.
Proof.
  intros [B1 T1] [T2 Hh]. split; auto. apply Forall_app. auto.
Qed.

Lemma dir_ok_barrier s : dir_ok s [EvBarrier] s.
Proof. split; [reflexivity | repeat constructor]. Qed.

Ltac dir_post :=
  unfold dir_ok, dir_bad, from_template, has_template, any_state;
  cbn [workdir];
  repeat match goal with
         | |- _ /\ _ => split
         | |- forall _, _ => intro
         end;
  cbn [dirs_after fold_left step_dirs remove_str];
  rewrite ?String.eqb_refl;
  first [ reflexivity | exact I | discriminate
        | repeat constructor | idtac ].

Ltac dir_leaf :=
  let s := fresh "s" in let Hs := fresh "Hs" in
  intros s Hs; destruct s as [tk ps er rd su sd lc rz wd tp];
  unfold has_template, any_state in Hs; cbn [workdir] in Hs;
  try subst wd;
  mexec; dir_post.

Lemma dir_clock OS (P : state -> Prop) :
  (forall s n, P s -> P (set_tick n s)) ->
  spec dir_ok dir_bad P (nsecs_now OS) (fun _ => P).
Proof.
  intros HP s Hs. pose proof (HP s (S (tick s)) Hs) as Hs'.
  destruct s as [tk ps er rd su sd lc rz wd tp].
  unfold set_tick in Hs'.
  cbn [tick procs errno rand48 sink_u64 sink_double last_child ready_zombie
       workdir TRUE_PATH] in Hs'.
  mexec; dir_post; assumption.
Qed.

Lemma dir_ok_stdout s ls : dir_ok s (map EvStdout ls) s.
Proof.
  split.
  - intros ds. unfold dirs_after. induction ls; simpl; auto.
  - unfold from_template. induction ls; simpl; auto.
Qed.

Ltac dir_stable :=
  let s := fresh "s" in let n := fresh "n" in let H := fresh "H" in
  intros s n H; destruct s; unfold any_state, has_template in *; exact H.

Ltac dir_measure OS Mid :=
  apply (measure_spec dir_ok dir_bad dir_ok_nil dir_ok_app dir_bad_app
           dir_ok_barrier OS _ _ _ any_state Mid any_state);
  try (apply dir_clock; dir_stable);
  lazymatch goal with
  | |- spec _ _ _ _ _ => dir_leaf
  | |- forall s ls, dir_ok _ _ _ => apply dir_ok_stdout
  | |- forall s, dir_bad _ _ _ =>
      intros ?; split; [repeat constructor | discriminate]
  end.

Lemma dir_scenario OS which sc :
  scenario_table which = Some sc ->
  spec dir_ok dir_bad any_state (run_scenario OS sc) (fun _ => any_state).
Proof.
  intros H. pose proof (scenario_table_cases _ _ H) as Hc.
  unfold run_scenario.
  destruct Hc as [->|[->|[->|[->|[->|[->|[->| ->]]]]]]];
    cbv beta iota delta [scenario_table] in H; inversion H; subst; clear H;
    cbn [sc_label sc_setup sc_action sc_teardown sc_iters sc_subtract].
  - dir_measure OS any_state.
  - dir_measure OS any_state.
  - dir_measure OS any_state.
  - dir_measure OS any_state.
  - dir_measure OS any_state.
  - dir_measure OS any_state.
  - dir_measure OS any_state.
  - dir_measure OS has_template.
Qed.

(** X7. Temporary directories.  Every [mkdtemp] of a run is given the
    template [/tmp/gtXXXXXX], and a run that completes (status 0) has
    removed every directory it created: each successful [mkdtemp] is
    followed by a successful [rmdir] of the name it returned. *)
Theorem directories_removed OS argv :
  let (tr, h) := run OS argv in
  from_template tr /\ (h = Exit 0 -> dirs_after tr [] = []).
Proof.
  unfold run. rewrite main_eq. destruct (negb _).
  { split; [repeat constructor | reflexivity]. }
  assert (Hm : spec dir_ok dir_bad any_state
            (prelude OS ;;
             match scenario_table (atoi (nth 1%nat argv "")) with
             | Some sc => run_scenario OS sc ;; ret 0
             | None => usage (prog_name argv) ;; ret 2
             end) (fun _ => any_state)).
  { eapply (spec_bind _ _ dir_ok_app dir_bad_app) with (Q := fun _ => any_state).
    { unfold prelude. dir_leaf. }
    intros _. destruct (scenario_table _) as [sc|] eqn:E.
    - eapply (spec_bind _ _ dir_ok_app dir_bad_app).
      + apply (dir_scenario OS _ _ E).
      + intros ?. apply (spec_ret _ _ dir_ok_nil). auto.
    - unfold usage. dir_leaf. }
  specialize (Hm init_state I).
  destruct ((prelude OS ;; _) init_state) as [tr [a s'|h]].
  - destruct Hm as [[B T] _]. split; auto.
  - destruct Hm as [T Hh]. split; auto. intros ->. now destruct Hh.
Qed.

(** *** fork_run.c: what the caller has done when a helper returns *)

Lemma bind_Halt {A B} (m : M A) (k : A -> M B) s tr h :
  bind m k s = (tr, Halt h) ->
  m s = (tr, Halt h) \/
  exists t1 a s1 t2,
    m s = (t1, Ret a s1) /\ k a s1 = (t2, Halt h) /\ tr = t1 ++ t2.
Proof.
  unfold bind. destruct (m s) as [t1 [a s1|h1]].
  - destruct (k a s1) as [t2 r] eqn:E. intros H; inversion H; subst.
    right. exists t1, a, s1, t2. auto.
  - intros H; inversion H; subst. now left.
Qed.

Lemma parallel_fork_Ret OS argv fd i pids s t loc s' :
  parallel_fork OS argv fd (i, pids) s = (t, Ret loc s') ->
  exists r, r <> ForkChild /\ t = [EvFork r] /\
    loc = (i + 1, match pids with
                  | Some a => Some (store a (Z.to_nat i) (fork_value r))
                  | None => None
                  end) /\
    procs s' = (if 0 <? fork_value r then fork_value r :: procs s else procs s).
Proof.
  destruct s as [tk ps er rd su sd lc rz wd tp].
  unfold parallel_fork, parallel_child. mexec; intros H; inversion H; subst;
    eexists; (split; [|split; [reflexivity|split; reflexivity]]); discriminate.
Qed.

Lemma fork_loop_Ret OS argv fd k : forall i pids s t loc s',
  for_loop k (parallel_fork OS argv fd) (i, pids) s = (t, Ret loc s') ->
  0 <= i ->
  exists rs, ~ In ForkChild rs /\ t = map EvFork rs /\ List.length rs = k /\
    loc = (i + Z.of_nat k,
           match pids with
           | Some a => Some (store_all a (Z.to_nat i) (map fork_value rs))
           | None => None
           end) /\
    procs s' = rev (filter (Z.ltb 0) (map fork_value rs)) ++ procs s.
Proof.
  induction k as [|k IH]; intros i pids s t loc s' H Hi.
  - inversion H; subst. exists []. simpl. repeat split; auto.
    + now rewrite Z.add_0_r; destruct pids.
  - simpl in H. bind_inv H H1 a. destruct a as [i1 pids1].
    apply parallel_fork_Ret in H1 as (r & Hr & -> & E & Hp).
    inversion E; subst. apply IH in H as (rs & Hrs & -> & Hl & -> & Hp'); [|lia].
    exists (r :: rs). repeat split.
    + simpl. intros [F|F]; auto.
    + simpl. now rewrite Hl.
    + f_equal; [lia|]. destruct pids; simpl; auto.
      now replace (Z.to_nat (i + 1)) with (S (Z.to_nat i)) by lia.
    + rewrite Hp', Hp. simpl. destruct (0 <? fork_value r); simpl; auto.
      now rewrite <- app_assoc.
Qed.

Lemma store_app l1 : forall x l2 v,
  store (l1 ++ x :: l2) (List.length l1) v = l1 ++ v :: l2.
Proof. induction l1 as [|y l1 IH]; intros; simpl; [|rewrite IH]; reflexivity. Qed.

Lemma store_all_app vs : forall l1 l2,
  (List.length vs <= List.length l2)%nat ->
  store_all (l1 ++ l2) (List.length l1) vs = l1 ++ vs ++ skipn (List.length vs) l2.
Proof.
  induction vs as [|v vs IH]; intros l1 l2 Hl; simpl; auto.
  destruct l2 as [|x l2]; simpl in Hl; [lia|].
  rewrite store_app. change (l1 ++ v :: l2) with (l1 ++ [v] ++ l2).
  rewrite app_assoc.
  replace (S (List.length l1)) with (List.length (l1 ++ [v]))
    by (rewrite length_app; simpl; lia).
  rewrite IH by lia. now rewrite <- app_assoc.
Qed.

Lemma store_all_repeat vs :
  store_all (repeat 0 (List.length vs)) 0 vs = vs.
Proof.
  pose proof (store_all_app vs [] (repeat 0 (List.length vs))) as H.
  simpl in H. rewrite H by (rewrite repeat_length; lia).
  rewrite skipn_all2 by (rewrite repeat_length; lia). apply app_nil_r.
Qed.

Lemma existsb_eqb_In x ps : existsb (Z.eqb x) ps = true <-> In x ps.
Proof.
  rewrite existsb_exists. split.
  - intros (y & Hy & E). apply Z.eqb_eq in E. now subst.
  - intros H. exists x. split; auto. apply Z.eqb_refl.
Qed.

Lemma parallel_wait_Ret OS a i s t i' s' :
  parallel_wait OS a i s = (t, Ret i' s') ->
  i' = i + 1 /\
  ((nth (Z.to_nat i) a 0 <= 0 /\ t = [] /\ procs s' = procs s) \/
   (0 < nth (Z.to_nat i) a 0 /\ In (nth (Z.to_nat i) a 0) (procs s) /\
    ((t = [EvWaitpid (nth (Z.to_nat i) a 0) (Ok (nth (Z.to_nat i) a 0))] /\
      procs s' = remove_one (nth (Z.to_nat i) a 0) (procs s)) \/
     (t = [EvWaitpid (nth (Z.to_nat i) a 0) (Err EINTR)] /\
      procs s' = procs s))) \/
   (0 < nth (Z.to_nat i) a 0 /\ ~ In (nth (Z.to_nat i) a 0) (procs s) /\
    t = [EvWaitpid (nth (Z.to_nat i) a 0) (Err ECHILD)] /\
    procs s' = procs s)).
Proof.
  destruct s as [tk ps er rd su sd lc rz wd tp].
  unfold parallel_wait. generalize (nth (Z.to_nat i) a 0) as x. intros x.
  destruct (Z.ltb_spec 0 x) as [Hx|Hx].
  - assert (Hb : (0 <? x) = true) by now apply Z.ltb_lt.
    cbv beta iota zeta delta [when bind get ret waitpid procs].
    unfold wait_target. rewrite Hb.
    destruct (existsb (Z.eqb x) ps) eqn:E.
    + apply existsb_eqb_In in E.
      mred. destruct (os_waitpid OS tk); intros H; inversion H; subst;
        (split; [reflexivity|]); right; left; auto.
    + assert (~ In x ps) by (rewrite <- existsb_eqb_In; congruence).
      mred. intros H'; inversion H'; subst.
      split; [reflexivity|]. right; right; auto.
  - mred. intros H; inversion H; subst.
    split; [reflexivity|]. left. auto.
Qed.

Lemma remove_one_app x l ps :
  In x l -> remove_one x (l ++ ps) = remove_one x l ++ ps.
Proof.
  induction l as [|y l IH]; simpl; [tauto|].
  intros [->|H].
  - now rewrite Z.eqb_refl.
  - destruct (y =? x); auto. now rewrite IH.
Qed.

Lemma remove_one_perm x l : In x l -> Permutation l (x :: remove_one x l).
Proof.
  induction l as [|y l IH]; simpl; [tauto|].
  destruct (Z.eqb_spec y x) as [->|Hn]; auto.
  intros [E|H]; [congruence|].
  rewrite perm_swap. now constructor; apply IH.
Qed.

Lemma wait_loop_Ret OS l2 : forall l1 i s t i' s' front extra ps,
  for_loop (List.length l2) (parallel_wait OS (l1 ++ l2)) i s = (t, Ret i' s') ->
  0 <= i -> List.length l1 = Z.to_nat i ->
  procs s = front ++ ps ->
  Permutation front (filter (Z.ltb 0) l2 ++ extra) ->
  forallb is_wait t = true /\
  waited t = filter (Z.ltb 0) l2 /\
  (forall pid e, In (EvWaitpid pid (Err e)) t -> e = EINTR) /\
  exists front', procs s' = front' ++ ps /\
                 Permutation front' (interrupted t ++ extra).
Proof.
  induction l2 as [|x l2 IH]; intros l1 i s t i' s' front extra ps H Hi Hl Hp Hf.
  - inversion H; subst. simpl. repeat split; try tauto. eauto.
  - simpl in H. bind_inv H H1 i1.
    apply parallel_wait_Ret in H1 as [-> H1].
    rewrite <- Hl, nth_middle in H1.
    change (l1 ++ x :: l2) with (l1 ++ [x] ++ l2) in H.
    rewrite app_assoc in H.
    assert (Hl' : List.length (l1 ++ [x]) = Z.to_nat (i + 1))
      by (rewrite length_app; simpl; lia).
    simpl in Hf.
    destruct H1 as [(Hx & -> & Hs)|[(Hx & Hin & [(-> & Hs)|(-> & Hs)])|(Hx & Hin & _)]].
    + replace (0 <? x) with false in Hf by (symmetry; apply Z.ltb_ge; lia).
      eapply (IH _ _ _ _ _ _ front extra ps) in H;
        [ | lia | exact Hl' | congruence | exact Hf ].
      simpl. replace (0 <? x) with false by (symmetry; apply Z.ltb_ge; lia).
      exact H.
    + replace (0 <? x) with true in Hf by (symmetry; apply Z.ltb_lt; lia).
      assert (Hxf : In x front)
        by (eapply Permutation_in; [symmetry; exact Hf|now left]).
      eapply (IH _ _ _ _ _ _ (remove_one x front) extra ps) in H; auto; try lia.
      * destruct H as (Hw & Hwd & He & front' & Hp' & Hperm).
        simpl. replace (0 <? x) with true by (symmetry; apply Z.ltb_lt; lia).
        repeat split; auto.
        -- now rewrite Hwd.
        -- intros pid e [F|F]; [discriminate|eauto].
        -- eauto.
      * rewrite Hs, Hp. now apply remove_one_app.
      * apply Permutation_cons_inv with (a := x).
        rewrite <- remove_one_perm by assumption. exact Hf.
    + replace (0 <? x) with true in Hf by (symmetry; apply Z.ltb_lt; lia).
      eapply (IH _ _ _ _ _ _ front (x :: extra) ps) in H; auto; try lia.
      * destruct H as (Hw & Hwd & He & front' & Hp' & Hperm).
        simpl. replace (0 <? x) with true by (symmetry; apply Z.ltb_lt; lia).
        repeat split; auto.
        -- now rewrite Hwd.
        -- intros pid e [F|F]; [now inversion F|eauto].
        -- exists front'. split; auto.
           rewrite Hperm. symmetry. apply Permutation_middle.
      * congruence.
      * rewrite Hf. apply Permutation_middle.
    + exfalso. apply Hin. rewrite Hp. apply in_or_app. left.
      replace (0 <? x) with true in Hf by (symmetry; apply Z.ltb_lt; lia).
      eapply Permutation_in; [symmetry; exact Hf|now left].
Qed.

Lemma open_trunc_Ret OS path s t fd s1 :
  open_trunc OS path s = (t, Ret fd s1) ->
  exists ro, t = [EvOpen path ro] /\ fd = open_fd ro /\ procs s1 = procs s.
Proof.
  destruct s as [tk ps er rd su sd lc rz wd tp].
  mexec; intros H; inversion H; subst; eexists; repeat split.
Qed.

Lemma close_Ret fd s t u s1 :
  when (0 <=? fd) (close fd) s = (t, Ret u s1) ->
  s1 = s /\ t = if 0 <=? fd then [EvClose fd] else [].
Proof.
  destruct (0 <=? fd); simpl; intros H; inversion H; auto.
Qed.

Lemma pids_Ret OS count s t pids s1 :
  (if 0 <? count
   then ok <- malloc OS ;;
        ret (if ok then Some (repeat 0 (Z.to_nat count)) else None)
   else ret None) s = (t, Ret pids s1) ->
  procs s1 = procs s /\
  ((count <= 0 /\ t = [] /\ pids = None) \/
   (0 < count /\ exists ok, t = [EvMalloc ok] /\
      pids = if ok then Some (repeat 0 (Z.to_nat count)) else None)).
Proof.
  destruct s as [tk ps er rd su sd lc rz wd tp].
  destruct (Z.ltb_spec 0 count) as [Hc|Hc].
  - mred. intros H; inversion H; subst. split; auto. right. split; auto.
    eexists. split; reflexivity.
  - intros H; inversion H; subst. auto.
Qed.

Lemma parallelwriteoutput_Ret OS count argv path s tr u s' :
  parallelwriteoutput OS count argv path s = (tr, Ret u s') ->
  exists ro t_m rs t_w,
    tr = EvOpen path ro :: t_m ++ map EvFork rs ++
         (if 0 <=? open_fd ro then [EvClose (open_fd ro)] else []) ++ t_w /\
    ~ In ForkChild rs /\ List.length rs = Z.to_nat count /\
    ((count <= 0 /\ t_m = []) \/ (0 < count /\ exists ok, t_m = [EvMalloc ok])) /\
    forallb is_wait t_w = true /\
    (forall pid e, In (EvWaitpid pid (Err e)) t_w -> e = EINTR) /\
    ((t_m = [EvMalloc true] /\
      waited t_w = filter (Z.ltb 0) (map fork_value rs) /\
      exists front, procs s' = front ++ procs s /\
                    Permutation front (interrupted t_w)) \/
     (t_m <> [EvMalloc true] /\ t_w = [] /\
      procs s' = rev (filter (Z.ltb 0) (map fork_value rs)) ++ procs s)).
Proof.
  unfold parallelwriteoutput. intros H.
  bind_inv H Ho fd. apply open_trunc_Ret in Ho as (ro & -> & -> & Hp0).
  bind_inv H Hm pids. apply pids_Ret in Hm as (Hp1 & Hm).
  bind_inv H Hf loc.
  apply fork_loop_Ret in Hf as (rs & Hrs & -> & Hl & -> & Hp2); [|lia].
  bind_inv H Hc x. apply close_Ret in Hc as (-> & ->).
  simpl snd in H.
  destruct Hm as [(Hc & -> & ->)|(Hc & ok & -> & ->)]; [|destruct ok].
  - inversion H; subst. exists ro, [], rs, []. repeat split; auto.
    + simpl. tauto.
    + right. repeat split; [discriminate|congruence].
  - bind_inv H Hw i'. inversion H; subst.
    simpl Z.to_nat in Hw. rewrite <- Hl, <- (length_map fork_value) in Hw.
    rewrite store_all_repeat in Hw.
    eapply (wait_loop_Ret OS _ [] 0 _ _ _ _
              (rev (filter (Z.ltb 0) (map fork_value rs))) [] (procs s))
      in Hw; [ | lia | reflexivity | congruence | ].
    + destruct Hw as (Hw & Hwd & He & front & Hp' & Hperm).
      rewrite app_nil_r in *.
      eexists ro, [EvMalloc true], rs, _. split; [reflexivity|].
      repeat split; eauto;
        left; repeat split; auto; exists front; split; auto; congruence.
    + rewrite app_nil_r. symmetry. apply Permutation_rev.
  - inversion H; subst. exists ro, [EvMalloc false], rs, [].
    repeat split; eauto.
    + simpl. tauto.
    + right. repeat split; [discriminate|congruence].
Qed.

Lemma fork_values_app t1 t2 : fork_values (t1 ++ t2) = fork_values t1 ++ fork_values t2.
Proof. apply flat_map_app. Qed.

Lemma waited_app t1 t2 : waited (t1 ++ t2) = waited t1 ++ waited t2.
Proof. apply flat_map_app. Qed.

Lemma interrupted_app t1 t2 :
  interrupted (t1 ++ t2) = interrupted t1 ++ interrupted t2.
Proof. apply flat_map_app. Qed.

Lemma opened_fds_app t1 t2 : opened_fds (t1 ++ t2) = opened_fds t1 ++ opened_fds t2.
Proof. apply flat_map_app. Qed.

Lemma closed_fds_app t1 t2 : closed_fds (t1 ++ t2) = closed_fds t1 ++ closed_fds t2.
Proof. apply flat_map_app. Qed.

Lemma pids_allocated_app t1 t2 :
  pids_allocated (t1 ++ t2) = pids_allocated t1 || pids_allocated t2.
Proof. apply existsb_app. Qed.

Lemma forks_facts rs :
  ~ In ForkChild rs ->
  fork_values (map EvFork rs) = map fork_value rs /\
  waited (map EvFork rs) = [] /\ interrupted (map EvFork rs) = [] /\
  opened_fds (map EvFork rs) = [] /\ closed_fds (map EvFork rs) = [] /\
  pids_allocated (map EvFork rs) = false /\
  forallb (fun e => negb (child_side e)) (map EvFork rs) = true.
Proof.
  induction rs as [|r rs IH]; [simpl; tauto|].
  intros H. destruct IH as (H1 & H2 & H3 & H4 & H5 & H6 & H7);
    [simpl in H; tauto|].
  change (map EvFork (r :: rs)) with ([EvFork r] ++ map EvFork rs).
  rewrite fork_values_app, waited_app, interrupted_app, opened_fds_app,
    closed_fds_app, pids_allocated_app, forallb_app, H1, H2, H3, H4, H5, H6, H7.
  destruct r; simpl in *; tauto.
Qed.

Lemma waits_facts t :
  forallb is_wait t = true ->
  fork_values t = [] /\ opened_fds t = [] /\ closed_fds t = [] /\
  pids_allocated t = false /\
  forallb (fun e => negb (child_side e)) t = true.
Proof.
  induction t as [|e t IH]; [simpl; tauto|].
  intros H. simpl in H. apply andb_prop in H as [He H].
  destruct IH as (H1 & H2 & H3 & H4 & H5); auto.
  change (e :: t) with ([e] ++ t).
  rewrite fork_values_app, opened_fds_app, closed_fds_app, pids_allocated_app,
    forallb_app, H1, H2, H3, H4, H5.
  destruct e; try discriminate; simpl; auto.
Qed.

Ltac split_trace :=
  match goal with
  | |- context [?e :: ?t ++ ?u] => change (e :: t ++ u) with ([e] ++ t ++ u)
  end;
  rewrite ?fork_values_app, ?waited_app, ?interrupted_app, ?opened_fds_app,
    ?closed_fds_app, ?pids_allocated_app, ?forallb_app.

(** X8.  When [writeoutput] or [parallelwriteoutput] returns, the calling
    process has done nothing of what the code reserves for the child: no
    [dup2] (its own standard streams are never redirected) and no [exec];
    and it has called [close] exactly on the descriptors that [open]
    delivered, once each and in the order they were opened. *)
Theorem helpers_caller_side OS :
  (forall command out_path err_path s,
     match writeoutput OS command out_path err_path s with
     | (tr, Ret _ _) =>
         forallb (fun e => negb (child_side e)) tr = true /\
         closed_fds tr = opened_fds tr
     | (_, Halt _) => True
     end) /\
  (forall count argv_base out_path s,
     match parallelwriteoutput OS count argv_base out_path s with
     | (tr, Ret _ _) =>
         forallb (fun e => negb (child_side e)) tr = true /\
         closed_fds tr = opened_fds tr
     | (_, Halt _) => True
     end).
Proof.
  split.
  - intros c o e s. destruct s as [tk ps er rd su sd lc rz wd tp].
    unfold writeoutput. mexec; try exact I; split; reflexivity.
  - intros n a o s.
    destruct (parallelwriteoutput OS n a o s) as [tr [u s'|h]] eqn:E; [|exact I].
    apply parallelwriteoutput_Ret in E
      as (ro & t_m & rs & t_w & -> & Hrs & _ & Hm & Hw & _).
    apply forks_facts in Hrs as (_ & _ & _ & Ho & Hc & _ & Hs).
    apply waits_facts in Hw as (_ & Ho' & Hc' & _ & Hs').
    split_trace. rewrite Ho, Hc, Hs, Ho', Hc', Hs'.
    destruct Hm as [(_ & ->)|(_ & ok & ->)];
      destruct ro as [fd|err]; simpl; try destruct (0 <=? fd); split; reflexivity.
Qed.

(** X9.  When [parallelwriteoutput] returns, the caller has called [fork]
    exactly [count] times (none for a [count] that is not positive), and it
    has called [waitpid] exactly once for each [fork] that delivered a
    child, in the order of the forks -- provided the array of process ids
    could be allocated.  When that [malloc] failed (or [count] is not
    positive) it has waited for no child at all. *)
Theorem parallelwriteoutput_forks_and_waits OS count argv_base out_path s :
  match parallelwriteoutput OS count argv_base out_path s with
  | (tr, Ret _ _) =>
      List.length (fork_values tr) = Z.to_nat count /\
      waited tr = if pids_allocated tr
                  then filter (Z.ltb 0) (fork_values tr)
                  else []
  | (_, Halt _) => True
  end.
Proof.
  destruct (parallelwriteoutput OS count argv_base out_path s)
    as [tr [u s'|h]] eqn:E; [|exact I].
  apply parallelwriteoutput_Ret in E
    as (ro & t_m & rs & t_w & -> & Hrs & Hl & Hm & Hw & _ & Hc).
  apply forks_facts in Hrs as (Hf & Hwd & _ & _ & _ & Ha & _).
  apply waits_facts in Hw as (Hf' & _ & _ & Ha' & _).
  split_trace. rewrite Hf, Hwd, Ha, Hf', Ha'.
  destruct (0 <=? open_fd ro).
  all: destruct Hc as [(-> & Hwt & _)|(Hn & -> & _)];
    [|destruct Hm as [(_ & ->)|(_ & [|] & ->)]; try congruence];
    simpl; rewrite ?app_nil_r, length_map; split; auto.
Qed.

(** X10.  The children [parallelwriteoutput] leaves unreaped when it
    returns.  No [waitpid] of the caller fails for want of a child
    ([ECHILD]); the only failure is an interruption.  With the array of
    process ids allocated, the children left over are exactly those whose
    [waitpid] was interrupted; without it, every child forked is left over.
    The children the caller had before are untouched. *)
Theorem parallelwriteoutput_unreaped OS count argv_base out_path s :
  match parallelwriteoutput OS count argv_base out_path s with
  | (tr, Ret _ s') =>
      (forall pid e, In (EvWaitpid pid (Err e)) tr -> e = EINTR) /\
      exists left_over,
        procs s' = left_over ++ procs s /\
        Permutation left_over
          (if pids_allocated tr then interrupted tr
           else filter (Z.ltb 0) (fork_values tr))
  | (_, Halt _) => True
  end.
Proof.
  destruct (parallelwriteoutput OS count argv_base out_path s)
    as [tr [u s'|h]] eqn:E; [|exact I].
  apply parallelwriteoutput_Ret in E
    as (ro & t_m & rs & t_w & -> & Hrs & Hl & Hm & Hw & He & Hc).
  pose proof Hrs as Hrs'.
  apply forks_facts in Hrs as (Hf & _ & Hi & _ & _ & Ha & _).
  apply waits_facts in Hw as (Hf' & _ & _ & Ha' & _).
  split.
  - intros pid e [F|F]; [discriminate|].
    apply in_app_or in F as [F|F];
      [destruct Hm as [(_ & ->)|(_ & ok & ->)]; simpl in F;
       [tauto|destruct F as [F|[]]; discriminate]|].
    apply in_app_or in F as [F|F];
      [apply in_map_iff in F as (r & F & _); discriminate|].
    apply in_app_or in F as [F|F]; [|eauto].
    destruct (0 <=? open_fd ro); simpl in F; [destruct F as [F|[]]; discriminate|tauto].
  - split_trace. rewrite Hf, Hi, Ha, Hf', Ha'.
    destruct (0 <=? open_fd ro).
    all: destruct Hc as [(-> & _ & front & Hp & Hperm)|(Hn & -> & Hp)];
      [exists front; simpl; auto|];
      exists (rev (filter (Z.ltb 0) (map fork_value rs))); split; auto;
      destruct Hm as [(_ & ->)|(_ & [|] & ->)]; try congruence;
      simpl; rewrite ?app_nil_r; symmetry; apply Permutation_rev.
Qed.

(** X11.  [writeoutput] forks once.  When it returns, the caller has waited
    for the child if [fork] delivered one and for nothing otherwise; that
    [waitpid] never fails for want of a child; and the caller's children
    are those it had before, plus the new child only if the [waitpid] for
    it was interrupted. *)
Theorem writeoutput_waits OS command out_path err_path s :
  match writeoutput OS command out_path err_path s with
  | (tr, Ret _ s') =>
      List.length (fork_values tr) = 1%nat /\
      waited tr = filter (Z.ltb 0) (fork_values tr) /\
      (forall pid e, In (EvWaitpid pid (Err e)) tr -> e = EINTR) /\
      procs s' = interrupted tr ++ procs s
  | (_, Halt _) => True
  end.
Proof.
  destruct s as [tk ps er rd su sd lc rz wd tp].
  unfold writeoutput. pexec; try exact I;
    (repeat split; try reflexivity; intros pid e' F; simpl in F;
     repeat (destruct F as [F|F]; [try discriminate; now inversion F|]);
     destruct F).
Qed.

(** X12.  With a [count] that is not positive, [parallelwriteoutput] creates
    nothing but the output file: it opens (and so truncates) [out_path],
    closes the descriptor if it got one, and returns -- no [malloc], no
    [fork], no [waitpid]. *)
Theorem parallelwriteoutput_no_children OS count argv_base out_path s
    (Hcount : count <= 0) :
  exists ro s',
    parallelwriteoutput OS count argv_base out_path s =
    (EvOpen out_path ro ::
     (if 0 <=? open_fd ro then [EvClose (open_fd ro)] else []),
     Ret tt s') /\
    procs s' = procs s.
Proof.
  destruct s as [tk ps er rd su sd lc rz wd tp].
  unfold parallelwriteoutput.
  replace (0 <? count) with false by (symmetry; apply Z.ltb_ge; lia).
  replace (Z.to_nat count) with 0%nat by lia.
  exists (os_open OS tk). simpl for_loop.
  mred. destruct (os_open OS tk) as [[|p|p]|e]; cbv [open_fd]; mred;
    eexists; split; reflexivity.
Qed.

Lemma parallelwriteoutput_no_children_witness :
  exists ro s',
    parallelwriteoutput nice 0 ["/bin/echo"] "out.txt" init_state =
    (EvOpen "out.txt" ro ::
     (if 0 <=? open_fd ro then [EvClose (open_fd ro)] else []),
     Ret tt s') /\
    procs s' = procs init_state.
Proof. apply (parallelwriteoutput_no_children nice 0); lia. Defined.

(** *** fork_run.c: the children of [parallelwriteoutput] *)

Lemma parallel_fork_Halt OS argv fd i pids s t h :
  parallel_fork OS argv fd (i, pids) s = (t, Halt h) ->
  exists ok r,
    t = EvFork ForkChild :: child_trace argv fd i ok r /\ h = child_halt ok r.
Proof.
  destruct s as [tk ps er rd su sd lc rz wd tp].
  unfold parallel_fork, parallel_child. mexec; intros H; inversion H; subst;
    repeat match goal with a : unit |- _ => destruct a end;
    first [ exists true, (Ok tt); split; reflexivity
          | eexists true, (Err _); split; reflexivity
          | exists false, (Ok tt); split; reflexivity ].
Qed.

Lemma fork_loop_Halt OS argv fd k : forall i pids s t h,
  for_loop k (parallel_fork OS argv fd) (i, pids) s = (t, Halt h) ->
  exists rs ok r,
    ~ In ForkChild rs /\ (List.length rs < k)%nat /\
    t = map EvFork rs ++
        EvFork ForkChild ::
        child_trace argv fd (i + Z.of_nat (List.length rs)) ok r /\
    h = child_halt ok r.
Proof.
  induction k as [|k IH]; intros i pids s t h H.
  - discriminate.
  - simpl in H. apply bind_Halt in H as [H|(t1 & [i1 pids1] & s1 & t2 & H1 & H & ->)].
    + apply parallel_fork_Halt in H as (ok & r & -> & ->).
      exists [], ok, r. simpl. rewrite Z.add_0_r.
      repeat split; auto; first [tauto|lia].
    + apply parallel_fork_Ret in H1 as (r1 & Hr1 & -> & E & _).
      inversion E; subst.
      apply IH in H as (rs & ok & r & Hrs & Hl & -> & ->).
      exists (r1 :: rs), ok, r. repeat split.
      * simpl. intros [F|F]; auto.
      * simpl. lia.
      * change (List.length (r1 :: rs)) with (S (List.length rs)).
        rewrite Nat2Z.inj_succ. cbn [map app].
        now replace (i + 1 + Z.of_nat (List.length rs))
          with (i + Z.succ (Z.of_nat (List.length rs))) by lia.
Qed.

Lemma wait_loop_no_Halt OS a k : forall i s t h,
  for_loop k (parallel_wait OS a) i s <> (t, Halt h).
Proof.
  induction k as [|k IH]; intros i s t h H.
  - discriminate.
  - simpl in H. apply bind_Halt in H as [H|(t1 & i1 & s1 & t2 & _ & H & _)].
    + revert H. destruct s as [tk ps er rd su sd lc rz wd tp].
      unfold parallel_wait. mexec; discriminate.
    + now apply IH in H.
Qed.

Lemma parallelwriteoutput_Halt OS count argv path s tr h :
  parallelwriteoutput OS count argv path s = (tr, Halt h) ->
  exists ro t_m rs ok r,
    tr = EvOpen path ro :: t_m ++ map EvFork rs ++
         EvFork ForkChild ::
         child_trace argv (open_fd ro) (Z.of_nat (List.length rs)) ok r /\
    ~ In ForkChild rs /\ (List.length rs < Z.to_nat count)%nat /\
    (t_m = [] \/ exists got, t_m = [EvMalloc got]) /\
    h = child_halt ok r.
Proof.
  unfold parallelwriteoutput. intros H.
  apply bind_Halt in H as [H|(t1 & fd & s1 & t2 & Ho & H & ->)].
  { revert H. destruct s. mexec; discriminate. }
  apply open_trunc_Ret in Ho as (ro & -> & -> & _).
  apply bind_Halt in H as [H|(t1 & pids & s2 & t3 & Hm & H & ->)].
  { revert H. destruct s1. mexec; discriminate. }
  apply pids_Ret in Hm as (_ & Hm).
  apply bind_Halt in H as [H|(t4 & loc & s3 & t5 & _ & H & ->)].
  - apply fork_loop_Halt in H as (rs & ok & r & Hrs & Hl & -> & ->).
    exists ro, t1, rs, ok, r. repeat split; auto.
    destruct Hm as [(_ & -> & _)|(_ & got & -> & _)]; eauto.
  - exfalso.
    apply bind_Halt in H as [H|(t6 & x & s4 & t7 & _ & H & _)].
    + revert H. unfold when. destruct (0 <=? open_fd ro); discriminate.
    + destruct (snd loc); [|discriminate].
      apply bind_Halt in H as [H|(t8 & y & s5 & t9 & _ & H & _)];
        [now apply wait_loop_no_Halt in H|discriminate].
Qed.

(** X13.  What a child of [parallelwriteoutput] does.  A process that does
    not return from the function is the child of the first [fork] that
    answered 0.  If [i] forks were seen from the parent before it ([i] is
    the loop index, [i < count]), the child points its standard output at
    the output file when [open] had succeeded and closes the descriptor,
    then runs [argv_base[0]] with the arguments [argv_base] followed by the
    decimal numeral of [i].  It ends in the new image, with [_exit(127)]
    when [execv] failed, or on the store through a failed [malloc]. *)
Theorem parallelwriteoutput_child OS count argv_base out_path s tr h
    (Hrun : parallelwriteoutput OS count argv_base out_path s = (tr, Halt h)) :
  exists ro t_m rs ok r,
    tr = EvOpen out_path ro :: t_m ++ map EvFork rs ++
         EvFork ForkChild ::
         child_trace argv_base (open_fd ro) (Z.of_nat (List.length rs)) ok r /\
    ~ In ForkChild rs /\ Z.of_nat (List.length rs) < count /\
    (t_m = [] \/ exists got, t_m = [EvMalloc got]) /\
    h = child_halt ok r.
Proof.
  apply parallelwriteoutput_Halt in Hrun
    as (ro & t_m & rs & ok & r & Ht & Hrs & Hl & Hm & Hh).
  exists ro, t_m, rs, ok, r. repeat split; auto. lia.
Qed.

Lemma parallelwriteoutput_child_witness :
  exists ro t_m rs ok r,
    fst (parallelwriteoutput in_second_child 3 ["/bin/echo"] "out.txt"
           init_state) =
    EvOpen "out.txt" ro :: t_m ++ map EvFork rs ++
    EvFork ForkChild ::
    child_trace ["/bin/echo"] (open_fd ro) (Z.of_nat (List.length rs)) ok r /\
    ~ In ForkChild rs /\ Z.of_nat (List.length rs) < 3 /\
    (t_m = [] \/ exists got, t_m = [EvMalloc got]) /\
    ChildExec = child_halt ok r.
Proof.
  apply (parallelwriteoutput_child in_second_child 3 ["/bin/echo"] "out.txt"
           init_state).
  vm_compute. reflexivity.
Defined.

Lemma decimal_inj i j : decimal i = decimal j -> i = j.
Proof.
  unfold decimal. intros H.
  assert (Hn : forall z, Z.to_int z <> Decimal.Pos Decimal.Nil /\
                         Z.to_int z <> Decimal.Neg Decimal.Nil).
  { intros [|p|p]; simpl; split; try discriminate;
      intros E; injection E; apply DecimalPos.Unsigned.to_uint_nonnil. }
  apply (f_equal NilZero.int_of_string) in H.
  rewrite !NilZero.isi in H by apply Hn.
  injection H as H. apply (f_equal Z.of_int) in H.
  now rewrite !DecimalZ.of_to in H.
Qed.

Lemma child_exec_argv argv fd i ok r p a r' :
  In (EvExec p a r') (child_trace argv fd i ok r) ->
  a = argv ++ [decimal i].
Proof.
  unfold child_trace. intros H. apply in_app_or in H as [H|H].
  - destruct (0 <=? fd); simpl in H; [|tauto].
    destruct H as [H|[H|[]]]; discriminate.
  - destruct H as [H|H]; [discriminate|].
    destruct ok; simpl in H; [|tauto].
    destruct H as [H|[]]. now inversion H.
Qed.

Lemma child_trace_forks argv fd i ok r :
  fork_values (child_trace argv fd i ok r) = [].
Proof. unfold child_trace. now destruct (0 <=? fd), ok. Qed.

Lemma parallelwriteoutput_exec OS count argv path s tr h p a r :
  parallelwriteoutput OS count argv path s = (tr, Halt h) ->
  In (EvExec p a r) tr ->
  a = argv ++ [decimal (Z.of_nat (List.length (fork_values tr)))].
Proof.
  intros H Hin. apply parallelwriteoutput_Halt in H
    as (ro & t_m & rs & ok & r0 & -> & Hrs & _ & Hm & _).
  apply forks_facts in Hrs as (Hf & _).
  assert (Hi : Z.of_nat (List.length rs) =
               Z.of_nat (List.length
                 (fork_values (EvOpen path ro :: t_m ++ map EvFork rs ++
                    EvFork ForkChild ::
                    child_trace argv (open_fd ro)
                      (Z.of_nat (List.length rs)) ok r0)))).
  { split_trace.
    change (EvFork ForkChild :: ?x) with ([EvFork ForkChild] ++ x).
    rewrite fork_values_app, Hf, child_trace_forks.
    destruct Hm as [->|(got & ->)]; simpl;
      now rewrite app_nil_r, length_map. }
  rewrite <- Hi.
  destruct Hin as [F|F]; [discriminate|].
  apply in_app_or in F as [F|F].
  { destruct Hm as [->|(got & ->)]; simpl in F; [tauto|].
    destruct F as [F|[]]; discriminate. }
  apply in_app_or in F as [F|F].
  { apply in_map_iff in F as (x & F & _). discriminate. }
  destruct F as [F|F]; [discriminate|].
  eapply child_exec_argv; eauto.
Qed.

(** X14.  The last argument identifies the child.  Two children of
    [parallelwriteoutput] (of one process or of two, whatever the operating
    system answered) that were started on the same [argv_base] run their
    programs with the same argument vector only if they have the same
    index, that is, if the same number of forks came before them. *)
Theorem child_argument_identifies_index OS1 OS2 count1 count2 argv_base
    out1 out2 s1 s2 tr1 tr2 h1 h2 p1 p2 a r1 r2
    (Hrun1 : parallelwriteoutput OS1 count1 argv_base out1 s1 = (tr1, Halt h1))
    (Hrun2 : parallelwriteoutput OS2 count2 argv_base out2 s2 = (tr2, Halt h2))
    (Hexec1 : In (EvExec p1 a r1) tr1)
    (Hexec2 : In (EvExec p2 a r2) tr2) :
  List.length (fork_values tr1) = List.length (fork_values tr2).
Proof.
  apply (parallelwriteoutput_exec _ _ _ _ _ _ _ _ _ _ Hrun1) in Hexec1.
  apply (parallelwriteoutput_exec _ _ _ _ _ _ _ _ _ _ Hrun2) in Hexec2.
  rewrite Hexec1 in Hexec2. apply app_inv_head in Hexec2.
  injection Hexec2 as E. apply decimal_inj in E. lia.
Qed.

Lemma child_argument_identifies_index_witness :
  List.length
    (fork_values (fst (parallelwriteoutput in_second_child 3 ["/bin/echo"]
                         "out.txt" init_state))) =
  List.length
    (fork_values (fst (parallelwriteoutput in_second_child_failing 2
                         ["/bin/echo"] "log.txt" init_state))).
Proof.
  apply (child_argument_identifies_index in_second_child
           in_second_child_failing 3 2 ["/bin/echo"] "out.txt" "log.txt"
           init_state init_state _ _ ChildExec (ChildExit 127)
           "/bin/echo" "/bin/echo" ["/bin/echo"; "1"] (Ok tt) (Err 2)).
  - vm_compute. reflexivity.
  - vm_compute. reflexivity.
  - vm_compute. auto 10.
  - vm_compute. auto 10.
Defined.

(** *** The arithmetic of the report: binary64 on 64-bit counts *)

Lemma digits2_size p : digits2_pos p = Pos.size p.
Proof. induction p; simpl; congruence. Qed.

Lemma digits_gt a : 0 <= a -> a < 2 ^ Zdigits2 a.
Proof.
  destruct a as [|p|p]; simpl; try lia. intros _.
  rewrite digits2_size. pose proof (Pos.size_gt p) as H.
  apply Pos2Z.pos_lt_pos in H. now rewrite Pos2Z.inj_pow in H.
Qed.

Lemma digits_le a : 0 < a -> 2 ^ (Zdigits2 a - 1) <= a.
Proof.
  destruct a as [|p|p]; try lia. intros _. unfold Zdigits2.
  rewrite digits2_size. pose proof (Pos.size_le p) as H.
  apply Pos2Z.pos_le_pos in H. rewrite Pos2Z.inj_pow in H.
  replace (Z.pos (Pos.size p)) with (Z.succ (Z.pos (Pos.size p) - 1)) in H by lia.
  rewrite Z.pow_succ_r in H by lia. lia.
Qed.

Lemma digits_nonneg a : 0 <= Zdigits2 a.
Proof. destruct a; simpl; lia. Qed.

Lemma digits_bound a k : 0 <= a < 2 ^ k -> 0 <= k -> Zdigits2 a <= k.
Proof.
  intros [H0 H] Hk. destruct (Z.eq_dec a 0) as [->|Hn]; [simpl; lia|].
  pose proof (digits_le a ltac:(lia)) as Hl.
  pose proof (digits_nonneg a) as Hd.
  assert (Hd1 : 1 <= Zdigits2 a) by (destruct a; simpl in *; lia).
  assert (2 ^ (Zdigits2 a - 1) < 2 ^ k) by lia.
  apply Z.pow_lt_mono_r_iff in H1; lia.
Qed.

Lemma digits_mono a b : 0 <= a <= b -> Zdigits2 a <= Zdigits2 b.
Proof.
  intros H. apply digits_bound; [|apply digits_nonneg].
  pose proof (digits_gt b ltac:(lia)). lia.
Qed.

Lemma digits_shift a s : 0 <= a -> 0 <= s -> Zdigits2 (a * 2 ^ s) <= Zdigits2 a + s.
Proof.
  intros Ha Hs. pose proof (digits_nonneg a) as Hd.
  apply digits_bound; [|lia].
  rewrite Z.pow_add_r by lia. pose proof (digits_gt a Ha).
  assert (0 < 2 ^ s) by (apply Z.pow_pos_nonneg; lia). nia.
Qed.

Lemma digits_succ a : 0 <= a -> Zdigits2 (a + 1) <= Zdigits2 a + 1.
Proof.
  intros Ha. pose proof (digits_nonneg a) as Hd.
  apply digits_bound; [|lia].
  rewrite Z.pow_add_r by lia. pose proof (digits_gt a Ha).
  change (2 ^ 1) with 2. lia.
Qed.

Lemma digits_div a n :
  0 <= a -> 0 <= n -> Zdigits2 (a / 2 ^ n) <= Z.max (Zdigits2 a - n) 0.
Proof.
  intros Ha Hn. pose proof (digits_nonneg a) as Hd.
  pose proof (digits_gt a Ha) as Hg.
  assert (Hp : 0 < 2 ^ n) by (apply Z.pow_pos_nonneg; lia).
  destruct (Z.le_gt_cases n (Zdigits2 a)) as [Hle|Hgt].
  - rewrite Z.max_l by lia. apply digits_bound; [|lia]. split.
    + apply Z.div_pos; lia.
    + apply Z.div_lt_upper_bound; [lia|].
      rewrite <- Z.pow_add_r by lia. now replace (n + (Zdigits2 a - n)) with (Zdigits2 a) by lia.
  - rewrite Z.div_small; [simpl; lia|]. split; [lia|].
    assert (2 ^ Zdigits2 a <= 2 ^ n) by (apply Z.pow_le_mono_r; lia). lia.
Qed.

Lemma shr_1_m mrs : 0 <= shr_m mrs -> shr_m (shr_1 mrs) = shr_m mrs / 2.
Proof.
  destruct mrs as [m r s]. rewrite <- Z.div2_div.
  destruct m as [|[p|p|]|p]; simpl; try reflexivity; lia.
Qed.

Lemma iter_shr_1_m p : forall mrs,
  0 <= shr_m mrs -> shr_m (iter_pos shr_1 p mrs) = shr_m mrs / 2 ^ Z.pos p.
Proof.
  assert (Hn : forall m k, 0 <= m -> 0 <= k -> 0 <= m / 2 ^ k)
    by (intros; apply Z.div_pos; [lia|apply Z.pow_pos_nonneg; lia]).
  induction p as [p IH|p IH|]; intros mrs H; simpl iter_pos;
    try assert (Hp : 0 < 2 ^ Z.pos p) by (apply Z.pow_pos_nonneg; lia).
  - assert (H1 : 0 <= shr_m (shr_1 mrs))
      by (rewrite shr_1_m by auto; apply Z.div_pos; lia).
    assert (H2 : 0 <= shr_m (iter_pos shr_1 p (shr_1 mrs)))
      by (rewrite IH by auto; apply Hn; lia).
    rewrite (IH _ H2), (IH _ H1), shr_1_m by auto.
    rewrite !Z.div_div by lia.
    f_equal. replace (Z.pos p~1) with (1 + Z.pos p + Z.pos p) by lia.
    rewrite !Z.pow_add_r by lia. change (2 ^ 1) with 2. lia.
  - assert (H2 : 0 <= shr_m (iter_pos shr_1 p mrs))
      by (rewrite IH by auto; apply Hn; lia).
    rewrite (IH _ H2), (IH _ H).
    rewrite !Z.div_div by lia.
    f_equal. replace (Z.pos p~0) with (Z.pos p + Z.pos p) by lia.
    now rewrite Z.pow_add_r by lia.
  - now rewrite shr_1_m.
Qed.

Lemma fexp_eq x : fexp 53 1024 x = Z.max (x - 53) (-1074).
Proof. reflexivity. Qed.

Lemma shr_record_of_loc_m m l : shr_m (shr_record_of_loc m l) = m.
Proof. destruct l as [|[]]; reflexivity. Qed.

Lemma shr_fexp_spec m e l mrs e' :
  0 <= m -> shr_fexp 53 1024 m e l = (mrs, e') ->
  (fexp 53 1024 (Zdigits2 m + e) - e <= 0 /\ shr_m mrs = m /\ e' = e) \/
  (0 < fexp 53 1024 (Zdigits2 m + e) - e /\
   shr_m mrs = m / 2 ^ (fexp 53 1024 (Zdigits2 m + e) - e) /\
   e' = fexp 53 1024 (Zdigits2 m + e)).
Proof.
  intros Hm. unfold shr_fexp, shr.
  destruct (fexp 53 1024 (Zdigits2 m + e) - e) as [|p|p] eqn:E;
    intros H; inversion H; subst.
  - left. rewrite shr_record_of_loc_m. repeat split; lia.
  - right. rewrite iter_shr_1_m by (rewrite shr_record_of_loc_m; auto).
    rewrite shr_record_of_loc_m. repeat split; lia.
  - left. rewrite shr_record_of_loc_m. repeat split; lia.
Qed.

Lemma shr_fexp_bounds m e l mrs e' :
  0 <= m -> shr_fexp 53 1024 m e l = (mrs, e') ->
  0 <= shr_m mrs /\ e <= e' /\
  e' <= Z.max e (Z.max (Zdigits2 m + e - 53) (-1074)) /\
  Zdigits2 (shr_m mrs) + e' <= Z.max (Zdigits2 m + e) (-1074).
Proof.
  intros Hm H. apply shr_fexp_spec in H; auto.
  rewrite fexp_eq in H. pose proof (digits_nonneg m) as Hd.
  destruct H as [(Hn & -> & ->)|(Hn & -> & ->)]; [lia|].
  assert (Hp : 0 < 2 ^ (Z.max (Zdigits2 m + e - 53) (-1074) - e))
    by (apply Z.pow_pos_nonneg; lia).
  pose proof (digits_div m (Z.max (Zdigits2 m + e - 53) (-1074) - e)
                ltac:(lia) ltac:(lia)) as Hdiv.
  repeat split; try lia. apply Z.div_pos; lia.
Qed.

Lemma shr_fexp_pos m e l mrs e' :
  0 < m -> -1074 <= e -> shr_fexp 53 1024 m e l = (mrs, e') -> 0 < shr_m mrs.
Proof.
  intros Hm He H. apply shr_fexp_spec in H; [|lia].
  rewrite fexp_eq in H.
  destruct H as [(Hn & -> & ->)|(Hn & -> & ->)]; [lia|].
  replace (Z.max (Zdigits2 m + e - 53) (-1074) - e) with (Zdigits2 m - 53)
    in * by lia.
  pose proof (digits_le m Hm) as Hl.
  assert (Hp : 0 < 2 ^ (Zdigits2 m - 53)) by (apply Z.pow_pos_nonneg; lia).
  assert (2 ^ 52 <= m / 2 ^ (Zdigits2 m - 53)); [|lia].
  apply Z.div_le_lower_bound; [lia|].
  rewrite <- Z.pow_add_r by lia.
  now replace (Zdigits2 m - 53 + 52) with (Zdigits2 m - 1) by lia.
Qed.

Lemma round_bounds m l : m <= round_nearest_even m l <= m + 1.
Proof. destruct l as [|[]]; simpl; try destruct (Z.even m); lia. Qed.

Lemma binary_round_aux_spec s m e l :
  0 <= m -> e <= 971 -> Zdigits2 m + e <= 1023 ->
  finite (binary_round_aux 53 1024 s m e l) = true /\
  sign_bit (binary_round_aux 53 1024 s m e l) = s /\
  within e (Z.max (Zdigits2 m + e) (-1074) + 1) (binary_round_aux 53 1024 s m e l) /\
  (0 < m -> -1074 <= e ->
   exists m' e', binary_round_aux 53 1024 s m e l = S754_finite s m' e').
Proof.
  intros Hm He Hd. unfold binary_round_aux.
  destruct (shr_fexp 53 1024 m e l) as [mrs1 e1] eqn:E1.
  pose proof (round_bounds (shr_m mrs1) (loc_of_shr_record mrs1)) as Hr.
  set (m2 := round_nearest_even (shr_m mrs1) (loc_of_shr_record mrs1)) in *.
  destruct (shr_fexp 53 1024 m2 e1 loc_Exact) as [mrs2 e2] eqn:E2.
  pose proof (shr_fexp_bounds _ _ _ _ _ Hm E1) as (H1 & H2 & H3 & H4).
  assert (Hm2 : 0 <= m2) by lia.
  pose proof (shr_fexp_bounds _ _ _ _ _ Hm2 E2) as (H5 & H6 & H7 & H8).
  assert (Hd2 : Zdigits2 m2 <= Zdigits2 (shr_m mrs1) + 1).
  { etransitivity; [apply (digits_mono m2 (shr_m mrs1 + 1)); lia|].
    now apply digits_succ. }
  assert (Hpos : 0 < m -> -1074 <= e -> 0 < shr_m mrs2).
  { intros Hm' He'.
    pose proof (shr_fexp_pos _ _ _ _ _ Hm' He' E1).
    apply (shr_fexp_pos m2 e1 loc_Exact mrs2 e2); auto; lia. }
  destruct (shr_m mrs2) as [|p|p] eqn:Ep; try lia.
  - simpl. repeat split; auto. intros; lia.
  - change (Zdigits2 (Z.pos p)) with (Z.pos (digits2_pos p)) in H8.
    replace (e2 <=? 1024 - 53) with true by (symmetry; apply Z.leb_le; lia).
    cbn [finite sign_bit within]. repeat split; eauto; lia.
Qed.

Lemma within_weaken lo hi lo' hi' x :
  within lo hi x -> lo' <= lo -> hi <= hi' -> within lo' hi' x.
Proof. destruct x; simpl; auto. lia. Qed.

Lemma iter_xO p d : Z.pos (Pos.iter xO p d) = Z.pos p * 2 ^ Z.pos d.
Proof.
  induction d as [|d IH] using Pos.peano_ind.
  - simpl. change (2 ^ 1) with 2. lia.
  - rewrite Pos.iter_succ, Pos2Z.inj_xO, IH, Pos2Z.inj_succ, Z.pow_succ_r by lia.
    lia.
Qed.

Lemma shl_align_spec mx ex ex' mz ez :
  shl_align mx ex ex' = (mz, ez) ->
  ez = Z.min ex ex' /\ Z.pos mz = Z.pos mx * 2 ^ (ex - ez).
Proof.
  unfold shl_align. destruct (ex' - ex) as [|d|d] eqn:E;
    intros H; inversion H; subst.
  - split; [lia|]. rewrite Z.sub_diag. simpl. lia.
  - split; [lia|]. rewrite Z.sub_diag. simpl. lia.
  - split; [lia|]. rewrite iter_xO. f_equal. f_equal. lia.
Qed.

Lemma shl_align_digits mx ex ex' mz ez :
  shl_align mx ex ex' = (mz, ez) ->
  Z.pos (digits2_pos mz) + ez <= Z.pos (digits2_pos mx) + ex.
Proof.
  intros H. apply shl_align_spec in H as [-> Hz].
  pose proof (digits_shift (Z.pos mx) (ex - Z.min ex ex') ltac:(lia) ltac:(lia)) as Hs.
  rewrite <- Hz in Hs. simpl Zdigits2 in Hs. lia.
Qed.

Lemma binary_round_spec s mx ex :
  ex <= 971 -> Z.pos (digits2_pos mx) + ex <= 1023 ->
  finite (binary_round 53 1024 s mx ex) = true /\
  sign_bit (binary_round 53 1024 s mx ex) = s /\
  within (Z.min ex (fexp 53 1024 (Z.pos (digits2_pos mx) + ex)))
         (Z.max (Z.pos (digits2_pos mx) + ex) (-1074) + 1)
         (binary_round 53 1024 s mx ex) /\
  (-1074 <= ex ->
   exists m' e', binary_round 53 1024 s mx ex = S754_finite s m' e').
Proof.
  intros He Hd. unfold binary_round.
  destruct (shl_align mx ex (fexp 53 1024 (Z.pos (digits2_pos mx) + ex)))
    as [mz ez] eqn:E.
  pose proof (shl_align_digits _ _ _ _ _ E) as Hz.
  apply shl_align_spec in E as [Hez _].
  pose proof (fexp_eq (Z.pos (digits2_pos mx) + ex)) as Hf.
  destruct (binary_round_aux_spec s (Z.pos mz) ez loc_Exact)
    as (H1 & H2 & H3 & H4); simpl Zdigits2; try lia.
  repeat split; auto.
  - eapply within_weaken; [exact H3|simpl Zdigits2; lia..].
  - intros. apply H4; lia.
Qed.

Lemma double_of_u64_spec n :
  0 <= n < 2 ^ 64 ->
  finite (double_of_u64 n) = true /\ sign_bit (double_of_u64 n) = false /\
  within (-52) 65 (double_of_u64 n) /\
  (0 < n -> exists m e, double_of_u64 n = S754_finite false m e).
Proof.
  intros Hn. unfold double_of_u64, binary_normalize.
  destruct n as [|p|p]; try lia.
  - simpl. repeat split. intros; lia.
  - pose proof (digits_bound (Z.pos p) 64 Hn ltac:(lia)) as Hd.
    simpl Zdigits2 in Hd.
    destruct (binary_round_spec false p 0) as (H1 & H2 & H3 & H4); try lia.
    repeat split; auto.
    + eapply within_weaken; [exact H3|rewrite fexp_eq; lia|lia].
    + intros _. apply H4. lia.
Qed.

Lemma ddiv_spec x my ey :
  finite x = true -> sign_bit x = false -> within (-52) 65 x ->
  within (-52) 65 (S754_finite false my ey) ->
  finite (ddiv x (S754_finite false my ey)) = true /\
  sign_bit (ddiv x (S754_finite false my ey)) = false /\
  within (-1074) 118 (ddiv x (S754_finite false my ey)).
Proof.
  intros Hf Hs Hw [Hy1 Hy2].
  destruct x as [sx|sx| |sx mx ex]; try discriminate; simpl in Hs; subst sx.
  - simpl. auto.
  - destruct Hw as [Hx1 Hx2]. unfold ddiv, SFdiv, SFdiv_core_binary.
    set (e' := Z.min (fexp 53 1024 (Zdigits2 (Z.pos mx) + ex -
                                    (Zdigits2 (Z.pos my) + ey))) (ex - ey)).
    set (m' := match ex - ey - e' with
               | 0 => Z.pos mx
               | Z.pos _ => Z.shiftl (Z.pos mx) (ex - ey - e')
               | Z.neg _ => 0
               end).
    assert (He' : -1074 <= e' <= ex - ey) by (unfold e'; rewrite fexp_eq; lia).
    assert (Hm' : m' = Z.pos mx * 2 ^ (ex - ey - e')).
    { unfold m'. destruct (ex - ey - e') as [|p|p] eqn:E; try lia.
      now rewrite Z.shiftl_mul_pow2 by lia. }
    destruct (Z.div_eucl m' (Z.pos my)) as [q r] eqn:E.
    assert (Hq : q = m' / Z.pos my) by (unfold Z.div; now rewrite E).
    assert (Hp : 0 < 2 ^ (ex - ey - e')) by (apply Z.pow_pos_nonneg; lia).
    assert (Hq0 : 0 <= q) by (rewrite Hq; apply Z.div_pos; nia).
    assert (Hqm : q <= m').
    { rewrite Hq. apply Z.div_le_upper_bound; [lia|]. nia. }
    pose proof (digits_mono q m' ltac:(lia)) as Hdq.
    pose proof (digits_shift (Z.pos mx) (ex - ey - e') ltac:(lia) ltac:(lia)) as Hdm.
    rewrite <- Hm' in Hdm. simpl Zdigits2 in Hdm at 2.
    assert (Hd1 : 1 <= Z.pos (digits2_pos mx)) by lia.
    assert (Hd2 : 1 <= Z.pos (digits2_pos my)) by lia.
    destruct (binary_round_aux_spec (xorb false false) q e'
                (new_location (Z.pos my) r)) as (H1 & H2 & H3 & _); try lia.
    repeat split; auto.
    eapply within_weaken; [exact H3|lia..].
Qed.

Lemma dsub_spec x y :
  finite x = true -> sign_bit x = false -> within (-1074) 118 x ->
  finite y = true -> sign_bit y = false -> within (-1074) 118 y ->
  finite (dsub x y) = true.
Proof.
  intros Hfx Hsx Hwx Hfy Hsy Hwy.
  destruct x as [sx|sx| |sx mx ex]; try discriminate;
    destruct y as [sy|sy| |sy my ey]; try discriminate;
    simpl in Hsx, Hsy; subst; try reflexivity.
  destruct Hwx as [Hx1 Hx2], Hwy as [Hy1 Hy2].
  unfold dsub, SFsub, cond_Zopp, binary_normalize.
  destruct (shl_align mx ex (Z.min ex ey)) as [ma ea] eqn:Ea.
  destruct (shl_align my ey (Z.min ex ey)) as [mb eb] eqn:Eb.
  pose proof (shl_align_digits _ _ _ _ _ Ea) as Ha.
  pose proof (shl_align_digits _ _ _ _ _ Eb) as Hb.
  apply shl_align_spec in Ea as [Hea _]. apply shl_align_spec in Eb as [Heb _].
  simpl fst.
  assert (Hd : forall m, Z.pos m <= Z.max (Z.pos ma) (Z.pos mb) ->
                         Z.pos (digits2_pos m) + Z.min ex ey <= 118).
  { intros m Hm.
    destruct (Z.max_spec (Z.pos ma) (Z.pos mb)) as [[_ Hmax]|[_ Hmax]];
      rewrite Hmax in Hm.
    - pose proof (digits_mono (Z.pos m) (Z.pos mb) ltac:(lia)) as H.
      simpl Zdigits2 in H. lia.
    - pose proof (digits_mono (Z.pos m) (Z.pos ma) ltac:(lia)) as H.
      simpl Zdigits2 in H. lia. }
  assert (He : Z.min ex ey <= 971).
  { assert (1 <= Z.pos (digits2_pos mx)) by lia. lia. }
  destruct (Z.pos ma - Z.pos mb) as [|m|m] eqn:E; [reflexivity| |];
    pose proof (Hd m ltac:(lia)) as Hdm;
    apply binary_round_spec; change IntDef.Z.min with Z.min; lia.
Qed.

Lemma mean_of_spec total iters :
  0 <= total < 2 ^ 64 -> 0 < iters < 2 ^ 64 ->
  finite (mean_of total iters) = true /\
  sign_bit (mean_of total iters) = false /\
  within (-1074) 118 (mean_of total iters).
Proof.
  intros Ht Hi. unfold mean_of.
  destruct (double_of_u64_spec total Ht) as (H1 & H2 & H3 & _).
  destruct (double_of_u64_spec iters ltac:(lia)) as (_ & _ & H4 & H5).
  destruct H5 as (m & e & E); [lia|]. rewrite E in *.
  now apply ddiv_spec.
Qed.

(** X15.  The numbers of the report are numbers.  For every returning
    [measure] (with [iters] a [uint64_t]), whatever the clock answered, the
    values handed to [printf] as mean_ns_total and mean_ns_overhead are
    finite binary64 values with the sign bit clear (never NaN, never
    infinite, never negative), and the value printed as mean_ns_subtracted
    is finite (it can be negative). *)
Theorem report_means_are_numbers OS label su ac td iters sub s tr a s'
    (Hiters : 0 < iters < 2 ^ 64)
    (Hrun : measure OS label su ac td iters sub s = (tr, Ret a s')) :
  Forall mean_line_ok (stdout_of tr).
Proof.
  apply measure_clock_reads_shape in Hrun
    as (timed & over & _ & _ & _ & ->).
  pose proof (mean_of_spec (accumulate timed 0) iters
                (accumulate_range timed 0 ltac:(lia)) Hiters) as (T1 & T2 & T3).
  pose proof (mean_of_spec (accumulate over 0) iters
                (accumulate_range over 0 ltac:(lia)) Hiters) as (O1 & O2 & O3).
  unfold report. destruct sub; repeat constructor; simpl; auto.
  now apply dsub_spec.
Qed.

Lemma report_means_are_numbers_witness :
  Forall mean_line_ok (stdout_of (fst demo_run)).
Proof.
  apply (report_means_are_numbers nice "demo" (Some p_setup_waitpid_ready)
           p_act_waitpid_ready (Some p_teardown_wait_ready) 2 true init_state
           (fst demo_run) tt (final_state demo_run)).
  - lia.
  - vm_compute. reflexivity.
Defined.

(** *** The children of the scenarios do nothing *)

Lemma forallb_rev {A} (f : A -> bool) l : forallb f (rev l) = forallb f l.
Proof.
  induction l as [|x l IH]; simpl; auto.
  rewrite forallb_app, IH. simpl. rewrite andb_true_r. apply andb_comm.
Qed.

Lemma parent_ok_nil s : parent_ok s [] s.
Proof. reflexivity. Qed.

Lemma parent_ok_app s t1 s1 t2 s2 :
  parent_ok s t1 s1 -> parent_ok s1 t2 s2 -> parent_ok s (t1 ++ t2) s2.
Proof. unfold parent_ok. intros H1 H2. now rewrite forallb_app, H1, H2. Qed.

Lemma parent_bad_app s t1 s1 t2 h :
  parent_ok s t1 s1 -> parent_bad s1 t2 h -> parent_bad s (t1 ++ t2) h.
Proof.
  unfold parent_ok, parent_bad, ends_at_fork. intros H1.
  destruct h; auto.
  - intros H2. now rewrite forallb_app, H1, H2.
  - intros [Hst H2]. split; auto. revert H2.
    rewrite rev_app_distr. destruct (rev t2) as [|e before]; [discriminate|].
    destruct e; try discriminate.
    match goal with r : fork_reply |- _ => destruct r end; try discriminate.
    simpl. intros H2.
    now rewrite forallb_app, H2, forallb_rev, H1.
Qed.

Lemma parent_ok_barrier s : parent_ok s [EvBarrier] s.
Proof. reflexivity. Qed.

Ltac parent_leaf :=
  let s := fresh "s" in
  intros s _; destruct s as [tk ps er rd su sd lc rz wd tp];
  mexec; unfold parent_ok, parent_bad;
  repeat match goal with |- _ /\ _ => split end;
  first [reflexivity | exact I].

Lemma parent_clock OS :
  spec parent_ok parent_bad (fun _ => True) (nsecs_now OS) (fun _ _ => True).
Proof. parent_leaf. Qed.

Lemma parent_call OS f :
  spec parent_ok parent_bad (fun _ => True) (call OS f) (fun _ _ => True).
Proof. destruct f; parent_leaf. Qed.

Lemma parent_call_opt OS f :
  spec parent_ok parent_bad (fun _ => True) (call_opt OS f) (fun _ _ => True).
Proof. destruct f as [f|]; [apply parent_call | parent_leaf]. Qed.

Lemma parent_measure OS label su ac td iters sub :
  spec parent_ok parent_bad (fun _ => True)
       (measure OS label su ac td iters sub) (fun _ _ => True).
Proof.
  apply (measure_spec parent_ok parent_bad parent_ok_nil parent_ok_app
           parent_bad_app parent_ok_barrier OS su ac td
           (fun _ => True) (fun _ => True) (fun _ => True));
    auto using parent_clock, parent_call_opt, parent_call.
  - intros s ls. unfold parent_ok. induction ls; simpl; auto.
  - intros s. reflexivity.
Qed.

Lemma parent_main OS argv :
  spec parent_ok parent_bad (fun _ => True) (main OS argv) (fun _ _ => True).
Proof.
  intros s _. rewrite main_eq. destruct (negb _); [now split|].
  assert (H : spec parent_ok parent_bad (fun _ => True)
                (prelude OS ;;
                 match scenario_table (atoi (nth 1%nat argv "")) with
                 | Some sc => run_scenario OS sc ;; ret 0
                 | None => usage (prog_name argv) ;; ret 2
                 end) (fun _ _ => True)).
  { eapply (spec_bind _ _ parent_ok_app parent_bad_app)
      with (Q := fun _ _ => True).
    - unfold prelude. parent_leaf.
    - intros _. destruct (scenario_table _) as [sc|].
      + eapply (spec_bind _ _ parent_ok_app parent_bad_app).
        * apply parent_measure.
        * intros ?. apply (spec_ret _ _ parent_ok_nil). auto.
      + unfold usage. parent_leaf. }
  exact (H s I).
Qed.

(** X16.  The children of the scenarios do nothing.  A run that ends in a
    forked child ends at the very [fork] that created it: the child's side
    of the [fork] is the last event, so the child neither reads the clock
    nor runs the rest of the loop nor forks again before its [_exit(0)].
    A run that ends in the original process holds no child's side of a
    [fork] at all.  No run ends in another way. *)
Theorem scenario_children_do_nothing OS argv :
  let (tr, h) := run OS argv in
  match h with
  | Exit _ => forallb not_child tr = true
  | ChildExit st =>
      st = 0 /\
      exists before,
        tr = before ++ [EvFork ForkChild] /\ forallb not_child before = true
  | _ => False
  end.
Proof.
  unfold run. pose proof (parent_main OS argv init_state I) as H.
  destruct (main OS argv init_state) as [tr [st s'|h]].
  - apply H.
  - unfold parent_bad in H. destruct h; auto.
    destruct H as [Hst H]. split; auto.
    unfold ends_at_fork in H. destruct (rev tr) as [|e before] eqn:E;
      [discriminate|].
    destruct e; try discriminate.
    match goal with r : fork_reply |- _ => destruct r end; try discriminate.
    exists (rev before). rewrite forallb_rev. split; auto.
    rewrite <- (rev_involutive tr), E. reflexivity.
Qed.

(** *** The workload of a successful run *)

Lemma measure_count_calls OS label su ac td iters sub s tr s' :
  0 < iters < 2 ^ 64 -> su <> Some ac -> td <> Some ac ->
  measure OS label su ac td iters sub s = (tr, Ret tt s') ->
  count_calls ac tr = Z.to_nat (iters / 10 + 1 + iters).
Proof.
  intros Hi Hsu Htd H. apply measure_Ret in H.
  destruct H as (warm & timed & over & -> & Hlw & Hl & _ & Hw & Ht & Ho & _).
  assert (H0 : 0 <= iters / 10) by (apply Z.div_pos; lia).
  assert (Hu : u64 (iters / 10 + 1) = iters / 10 + 1).
  { unfold u64. apply Z.mod_small.
    assert (iters / 10 < iters) by (apply Z.div_lt; lia). lia. }
  rewrite !count_calls_app, warm_count_calls, timed_count_calls,
    overhead_count_calls, stdout_count_calls, Hlw, Hl, Hu by auto.
  lia.
Qed.

Lemma scenario_table_facts which sc :
  scenario_table which = Some sc ->
  0 < sc_iters sc < 2 ^ 64 /\
  sc_setup sc <> Some (sc_action sc) /\ sc_teardown sc <> Some (sc_action sc).
Proof.
  intros H. pose proof (scenario_table_cases _ _ H) as Hc.
  destruct Hc as [->|[->|[->|[->|[->|[->|[->| ->]]]]]]];
    cbv beta iota delta [scenario_table] in H; inversion H; simpl;
    repeat split; (lia || discriminate).
Qed.

Lemma prelude_shape OS s f :
  exists tp s1,
    prelude OS s = (tp, Ret tt s1) /\
    count_calls f tp = 0%nat /\ clock_reads tp = [].
Proof.
  destruct s as [tk ps er rd su sd lc rz wd tp].
  unfold prelude. mexec; eexists _, _; repeat split.
Qed.

(** X17.  The workload of a successful run.  A run that ends with status 0
    has executed the scenario its argument selects with the iteration count
    written in [main]: the action was called [iters / 10 + 1 + iters] times
    (200000 iterations give 220001 calls, the 2500 of scenario 7 give 2751)
    and the clock was read [4 * iters] times, or [2 * iters] times in the
    two scenarios that do not subtract the overhead. *)
Theorem successful_run_workload OS argv :
  let (tr, h) := run OS argv in
  h = Exit 0 ->
  exists sc,
    scenario_table (atoi (nth 1%nat argv "")) = Some sc /\
    count_calls (sc_action sc) tr
    = Z.to_nat (sc_iters sc / 10 + 1 + sc_iters sc) /\
    List.length (clock_reads tr)
    = ((if sc_subtract sc then 4 else 2) * Z.to_nat (sc_iters sc))%nat.
Proof.
  unfold run. rewrite main_eq. destruct (negb _); [discriminate|].
  destruct (scenario_table _) as [sc|] eqn:E.
  - destruct (prelude_shape OS init_state (sc_action sc))
      as (tp & s1 & Hp & Hc & Hr).
    unfold bind at 1. rewrite Hp. unfold bind, run_scenario.
    destruct (scenario_table_facts _ _ E) as (Hi & Hsu & Htd).
    pose proof (say_phases OS (sc_setup sc) (sc_action sc) (sc_teardown sc)
                  (sc_iters sc) (sc_subtract sc) s1 I) as Hh.
    pose proof (measure_phases OS (sc_label sc) (sc_setup sc) (sc_action sc)
                  (sc_teardown sc) (sc_iters sc) (sc_subtract sc) s1) as Hm.
    rewrite (scenario_iters_nonzero _ _ E) in Hm.
    destruct (measure OS (sc_label sc) (sc_setup sc) (sc_action sc)
                (sc_teardown sc) (sc_iters sc) (sc_subtract sc) s1)
      as [tm [[] s2|h]] eqn:Em.
    + intros _. exists sc. cbv beta iota zeta delta [ret].
      rewrite app_nil_r, count_calls_app, clock_reads_app, Hc, Hr.
      split; auto. split.
      * now apply (measure_count_calls _ _ _ _ _ _ _ _ _ _ Hi Hsu Htd Em).
      * apply measure_clock_reads_shape in Em
          as (timed & over & -> & Hl & Hlo & _).
        simpl. rewrite length_app, !cycle_reads_length, Hl, Hlo.
        destruct (sc_subtract sc); lia.
    + destruct (phases _ _ _ _ _ _ s1) as [t [[tot tot_o] s2|h']];
        [discriminate|].
      inversion Hm; subst.
      destruct Hh as [_ [[-> _]|[-> _]]]; discriminate.
  - destruct (prelude_shape OS init_state p_act_call_empty)
      as (tp & s1 & Hp & _).
    unfold bind at 1. rewrite Hp. simpl. discriminate.
Qed.

(** X18.  What the child of [writeoutput] does.  A process that does not
    return from [writeoutput] is the child of its one [fork]: after the two
    [open] calls of the parent it points standard output and standard error
    at the files that could be opened, closes those descriptors, and runs
    [/bin/sh -c command]; it ends in the shell, or with [_exit(127)] when
    [execl] failed.  A file that could not be opened leaves the stream of
    the caller in place. *)
Theorem writeoutput_child OS command out_path err_path s tr h
    (Hrun : writeoutput OS command out_path err_path s = (tr, Halt h)) :
  exists ro re r,
    tr = [EvOpen out_path ro; EvOpen err_path re; EvFork ForkChild]
         ++ shell_child_trace command (open_fd ro) (open_fd re) r /\
    h = child_halt true r.
Proof.
  revert Hrun. destruct s as [tk ps er rd su sd lc rz wd tp].
  unfold writeoutput. mexec; intros H; inversion H; subst;
    lazymatch goal with
    | |- context [EvOpen out_path ?a] =>
        lazymatch goal with
        | |- context [EvOpen err_path ?b] =>
            lazymatch goal with
            | |- context [EvExec _ _ ?r] => exists a, b, r
            end
        end
    end; split; reflexivity.
Qed.

Lemma writeoutput_child_witness :
  exists ro re r,
    fst (writeoutput in_child "ls" "out.txt" "err.txt" init_state) =
    [EvOpen "out.txt" ro; EvOpen "err.txt" re; EvFork ForkChild]
    ++ shell_child_trace "ls" (open_fd ro) (open_fd re) r /\
    ChildExec = child_halt true r.
Proof.
  apply (writeoutput_child in_child "ls" "out.txt" "err.txt" init_state).
  vm_compute. reflexivity.
Defined.

(** X19.  [parallelwriteoutput] starts all its children before it waits for
    any.  The trace of a call that returns splits in two: first the [open],
    the [malloc], every [fork] and the [close] of the output descriptor,
    with no [waitpid] among them; then nothing but [waitpid] calls. *)
Theorem parallelwriteoutput_forks_then_waits OS count argv_base out_path s :
  match parallelwriteoutput OS count argv_base out_path s with
  | (tr, Ret _ _) =>
      exists starts waits,
        tr = starts ++ waits /\
        forallb (fun e => negb (is_wait e)) starts = true /\
        fork_values starts = fork_values tr /\
        forallb is_wait waits = true
  | (_, Halt _) => True
  end.
Proof.
  destruct (parallelwriteoutput OS count argv_base out_path s)
    as [tr [u s'|h]] eqn:E; [|exact I].
  apply parallelwriteoutput_Ret in E
    as (ro & t_m & rs & t_w & -> & Hrs & _ & Hm & Hw & _).
  exists (EvOpen out_path ro :: t_m ++ map EvFork rs ++
          (if 0 <=? open_fd ro then [EvClose (open_fd ro)] else [])), t_w.
  repeat split; auto.
  - simpl. now rewrite <- !app_assoc.
  - assert (Hf : forallb (fun e => negb (is_wait e)) (map EvFork rs) = true)
      by (clear; induction rs; simpl; auto).
    simpl. rewrite !forallb_app, Hf.
    destruct Hm as [(_ & ->)|(_ & ok & ->)]; destruct (0 <=? open_fd ro);
      reflexivity.
  - apply waits_facts in Hw as (Hf & _).
    change (EvOpen out_path ro :: ?x) with ([EvOpen out_path ro] ++ x).
    rewrite !fork_values_app, Hf, !app_nil_r. reflexivity.
Qed.

(** *** The pseudo-random scenario *)

Lemma draws_app t1 t2 : draws (t1 ++ t2) = (draws t1 + draws t2)%nat.
Proof. apply count_calls_app. Qed.

Lemma rand_ok_nil s : rand_ok s [] s.
Proof. split; reflexivity. Qed.

Lemma rand_ok_app s t1 s1 t2 s2 :
  rand_ok s t1 s1 -> rand_ok s1 t2 s2 -> rand_ok s (t1 ++ t2) s2.
Proof.
  unfold rand_ok. intros [R1 D1] [R2 D2]. rewrite draws_app. split.
  - rewrite R2, R1, Nat.add_comm. symmetry. apply Nat.iter_add.
  - destruct (draws t2) as [|n2].
    + rewrite Nat.add_0_r. simpl in R2. rewrite D2, D1, R2. reflexivity.
    + rewrite D2. now destruct (draws t1).
Qed.

Lemma rand_bad_app s t1 s1 t2 h :
  rand_ok s t1 s1 -> rand_bad s1 t2 h -> rand_bad s (t1 ++ t2) h.
Proof. exact (fun _ _ => I). Qed.

Lemma rand_ok_barrier s : rand_ok s [EvBarrier] s.
Proof. split; reflexivity. Qed.

Ltac rand_leaf :=
  let s := fresh "s" in
  intros s _; destruct s as [tk ps er rd su sd lc rz wd tp];
  mexec; unfold rand_ok, rand_bad;
  repeat match goal with |- _ /\ _ => split end;
  first [reflexivity | exact I].

Lemma rand_measure OS label iters sub :
  spec rand_ok rand_bad (fun _ => True)
       (measure OS label None p_act_drand48 None iters sub) (fun _ _ => True).
Proof.
  apply (measure_spec rand_ok rand_bad rand_ok_nil rand_ok_app rand_bad_app
           rand_ok_barrier OS None p_act_drand48 None
           (fun _ => True) (fun _ => True) (fun _ => True));
    try (rand_leaf; fail).
  - intros s ls. unfold rand_ok, draws. rewrite stdout_count_calls.
    split; reflexivity.
  - intros s. exact I.
Qed.

(** X20.  The pseudo-random scenario is reproducible.  A measurement of
    [act_drand48] (no setup, no teardown) that returns has advanced the
    generator by exactly one step per warm-up cycle and per timed cycle,
    [iters / 10 + 1 + iters] steps from the state it started in, whatever
    the clock and the rest of the system answered, and [sink_double] holds
    the value of the last draw. *)
Theorem drand48_scenario_state OS label iters sub s tr s'
    (Hiters : 0 < iters < 2 ^ 64)
    (Hrun : measure OS label None p_act_drand48 None iters sub s
            = (tr, Ret tt s')) :
  rand48 s' = Nat.iter (Z.to_nat (iters / 10 + 1 + iters)) lcg (rand48 s) /\
  sink_double s' = drand48_value (rand48 s').
Proof.
  pose proof (rand_measure OS label iters sub s I) as H.
  rewrite Hrun in H. destruct H as [[R D] _].
  assert (Hn : draws tr = Z.to_nat (iters / 10 + 1 + iters)).
  { apply (measure_count_calls OS label None p_act_drand48 None iters sub s tr s');
      auto; discriminate. }
  rewrite Hn in *. split; auto.
  assert (0 <= iters / 10) by (apply Z.div_pos; lia).
  destruct (Z.to_nat (iters / 10 + 1 + iters)) eqn:E; [lia|exact D].
Qed.

Lemma drand48_scenario_state_witness :
  rand48 (final_state rand_run)
  = Nat.iter (Z.to_nat (2 / 10 + 1 + 2)) lcg (rand48 init_state) /\
  sink_double (final_state rand_run)
  = drand48_value (rand48 (final_state rand_run)).
Proof.
  apply (drand48_scenario_state nice "rand" 2 true init_state (fst rand_run)).
  - lia.
  - vm_compute. reflexivity.
Defined.
